(** * Validator health manager of the tbft consensus engine

    A shallow embedding of [consensus/tbft/types/heartbeat.go]: the
    [Health] records, the [HealthMgr] that owns them, its tick loop
    ([work], [checkSwitchValidator], [pickUnuseValidator]), the handling of
    switch outcomes ([switchResult]), the liveness signal ([Update]) and the
    canonical signing form of a [Heartbeat] ([SignBytes]).

    Go pointers are modelled by locations into an explicit store, because the
    same [Health] object is reachable from the active map, from the backup
    slice and from every [SwitchValidator] that names it.  A nil pointer
    dereference panics; here every operation returns [None] when the Go code
    panics. *)

From stdpp Require Import gmap strings list fin_maps sorting pretty finite.
From Stdlib Require Import ZArith.
From Stdlib.Strings Require Import Byte.

Local Open Scope Z_scope.

(** ** Data model *)

Abbreviation bytes := (list byte).

#[global] Instance byte_eq_dec' : EqDecision byte := Byte.byte_eq_dec.

(** [p2p.ID] is a Go string type. *)
Abbreviation p2p_ID := string.

(** Modelled from the spec: the [Validator] struct is declared in another
    file of the package; the spec gives it as the immutable tuple
    (address, voting_power, public_key).  Only [Address] is read here. *)
Record Validator := {
  Address : bytes;
  VotingPower : Z;
  PubKey : bytes;
}.

Definition HealthOut : Z := 60 * 10.
Definition StateUnused : Z := 0.
Definition StateSwitching : Z := 1.
Definition StateUsed : Z := 2.
Definition StateRemoved : Z := 3.

(** [Val] is a [*Validator]; [None] is the nil pointer.  Validators are never
    mutated, so the pointee is stored by value. *)
Record Health := {
  ID : p2p_ID;
  IP : string;
  Port : Z;
  Tick : Z;
  State : Z;
  Val : option Validator;
}.

Abbreviation loc := nat.

(** A [*Health]: [None] is nil. *)
Abbreviation ptr := (option nat).

Abbreviation store := (gmap loc Health).

Record SwitchValidator := {
  Remove : ptr;
  Add : ptr;
  Resion : string;
  from : Z;
}.

#[global] Instance SwitchValidator_eq_dec : EqDecision SwitchValidator.
Proof. solve_decision. Defined.

(** The fields of [HealthMgr] that hold data.  [healthTick] is [true] once the
    ticker has been created ([h.healthTick != nil]).  The channel is not a
    field here: what [Switch] is called with is returned by [work]. *)
Record HealthMgr := {
  Sum : Z;
  Work : gmap p2p_ID ptr;
  Back : list ptr;
  Remove' : list ptr;
  healthTick : bool;
}.

Definition NewHealthMgr : HealthMgr :=
  {| Sum := 0; Work := ∅; Back := []; Remove' := []; healthTick := false |}.

(** ** The store *)

Definition deref (σ : store) (p : ptr) : option Health :=
  l ← p; σ !! l.

Definition with_State (s : Z) (r : Health) : Health :=
  {| ID := ID r; IP := IP r; Port := Port r; Tick := Tick r;
     State := s; Val := Val r |}.

Definition with_Tick (t : Z) (r : Health) : Health :=
  {| ID := ID r; IP := IP r; Port := Port r; Tick := t;
     State := State r; Val := Val r |}.

(** [v.State = s] *)
Definition set_State (v : ptr) (s : Z) (σ : store) : option store :=
  l ← v; r ← σ !! l; Some (<[l := with_State s r]> σ).

(** Two's complement wrap-around of [int32] arithmetic. *)
Definition wrap32 (z : Z) : Z := (z + 2 ^ 31) mod 2 ^ 32 - 2 ^ 31.

(** [atomic.LoadInt32(&v.Tick)] *)
Definition LoadInt32 (v : ptr) (σ : store) : option Z :=
  Tick <$> deref σ v.

(** [atomic.AddInt32(&v.Tick, delta)] *)
Definition AddInt32 (v : ptr) (delta : Z) (σ : store) : option store :=
  l ← v; r ← σ !! l; Some (<[l := with_Tick (wrap32 (Tick r + delta)) r]> σ).

(** ** The backup pool picker *)

(** The loop of [pickUnuseValidator] over [h.Back[i:]]. *)
Fixpoint pick_loop (back : list ptr) (σ : store) : option (ptr * store) :=
  match back with
  | [] => Some (None, σ)
  | v :: rest =>
      r ← deref σ v;
      if State r =? StateUnused
      then σ' ← set_State v StateSwitching σ; Some (v, σ')
      else pick_loop rest σ
  end.

Definition pickUnuseValidator (h : HealthMgr) (σ : store) : option (ptr * store) :=
  pick_loop (Back h) σ.

(** ** The tick loop *)

(** Returns the requests handed to [h.Switch] and the store afterwards. *)
Definition checkSwitchValidator (h : HealthMgr) (v : ptr) (σ : store)
  : option (list SwitchValidator * store) :=
  val ← LoadInt32 v σ;
  r ← deref σ v;
  if (val >? HealthOut) && (State r =? StateUsed)
  then
    '(back, σ1) ← pickUnuseValidator h σ;
    let sv := {| Remove := v; Add := back; Resion := "Switch"; from := 0 |} in
    σ2 ← set_State v StateSwitching σ1;
    Some ([sv], σ2)
  else Some ([], σ).

(** One iteration of the [range h.Work] loop, for the value [v]. *)
Definition work_body (h : HealthMgr) (v : ptr) (σ : store)
  : option (list SwitchValidator * store) :=
  r ← deref σ v;
  σ1 ← (if State r =? StateUsed then AddInt32 v 1 σ else Some σ);
  checkSwitchValidator h v σ1.

(** The loop over the values of [h.Work], visited in the order [vs]. *)
Fixpoint work_loop (h : HealthMgr) (vs : list ptr) (σ : store)
  : option (list SwitchValidator * store) :=
  match vs with
  | [] => Some ([], σ)
  | v :: rest =>
      '(out1, σ1) ← work_body h v σ;
      '(out2, σ2) ← work_loop h rest σ1;
      Some (out1 ++ out2, σ2)
  end.

(** Go leaves the iteration order of a map unspecified: [vs] is a possible
    order of visit when it is a permutation of the map's values. *)
Definition visit_order (h : HealthMgr) (vs : list ptr) : Prop :=
  vs ≡ₚ (map_to_list (Work h)).*2.

(** [work] with the order of visit that [map_to_list] gives. *)
Definition work (h : HealthMgr) (σ : store) : option (list SwitchValidator * store) :=
  work_loop h (map_to_list (Work h)).*2 σ.

(** [n] ticks in a row, with all that they hand to [Switch]. *)
Fixpoint work_times (n : nat) (h : HealthMgr) (σ : store)
  : option (list SwitchValidator * store) :=
  match n with
  | O => Some ([], σ)
  | S n' =>
      '(out1, σ1) ← work h σ;
      '(out2, σ2) ← work_times n' h σ1;
      Some (out1 ++ out2, σ2)
  end.

(** ** Switch outcomes *)

(** [Health.String] reads [h.ID ... h.State] and [h.Val.Address]: it
    panics on a nil receiver and on a nil [Val].  The text only goes to the
    log; what is kept here is whether the call returns. *)
Definition String_returns (σ : store) (p : ptr) : option unit :=
  r ← deref σ p; v ← Val r; Some ().

(** The loop of [switchResult] over [h.Back]. *)
Fixpoint promote_loop (back : list ptr) (add : ptr) (σ : store) : option store :=
  match back with
  | [] => Some σ
  | v :: rest =>
      r ← deref σ v;
      a ← deref σ add;
      if String.eqb (ID r) (ID a)
      then set_State v StateUsed σ
      else promote_loop rest add σ
  end.

Definition switchResult (h : HealthMgr) (res : SwitchValidator) (σ : store)
  : option store :=
  if from res =? 1 then
    σ1 ← (if String.eqb (Resion res) EmptyString
          then
            rm ← deref σ (Remove res);
            σa ← match Work h !! ID rm with
                 | Some v => set_State v StateRemoved σ
                 | None => Some σ
                 end;
            promote_loop (Back h) (Add res) σa
          else Some σ);
    _ ← String_returns σ1 (Remove res);
    _ ← String_returns σ1 (Add res);
    Some σ1
  else Some σ.

(** ** The liveness signal *)

Definition Update (h : HealthMgr) (id : p2p_ID) (σ : store) : option store :=
  match Work h !! id with
  | Some v =>
      val ← LoadInt32 v σ;
      AddInt32 v (wrap32 (- val)) σ
  | None => Some σ
  end.

(** ** The backup pool and the lifecycle *)

(** [bytes.Compare]: lexicographic on the unsigned byte values. *)
Fixpoint bytes_Compare (a b : bytes) : Z :=
  match a, b with
  | [], [] => 0
  | [], _ :: _ => -1
  | _ :: _, [] => 1
  | x :: a', y :: b' =>
      match N.compare (Byte.to_N x) (Byte.to_N y) with
      | Lt => -1
      | Gt => 1
      | Eq => bytes_Compare a' b'
      end
  end.

(** [hs[i].Val.Address], when it can be read. *)
Definition address_of (σ : store) (p : ptr) : option bytes :=
  r ← deref σ p; v ← Val r; Some (Address v).

(** [HealthsByAddress.Less] *)
Definition Less (σ : store) (p q : ptr) : option bool :=
  a ← address_of σ p; b ← address_of σ q; Some (bytes_Compare a b =? -1).

(** The order [sort.Sort] leaves the slice in: no element is [Less] than an
    earlier one. *)
Definition addr_le (σ : store) (p q : ptr) : Prop :=
  bytes_Compare (default [] (address_of σ q)) (default [] (address_of σ p)) ≠ -1.

#[global] Instance addr_le_dec σ p q : Decision (addr_le σ p q).
Proof. unfold addr_le. apply _. Defined.

(** [sort.Sort] is Go's standard library.  It calls [Less] on every element
    of a slice of two or more, so it panics there when an address cannot be
    read, and it never calls [Less] on a shorter slice.  It is not stable; the
    merge sort below stands for it, and the theorems use only that the result
    is a sorted permutation. *)
Definition sort_Sort (σ : store) (hs : list ptr) : option (list ptr) :=
  if (2 <=? Z.of_nat (length hs)) && negb (forallb (λ p, bool_decide (is_Some (address_of σ p))) hs)
  then None
  else Some (merge_sort (addr_le σ) hs).

Definition SetBackValidators (hh : list ptr) (h : HealthMgr) (σ : store)
  : option HealthMgr :=
  back ← sort_Sort σ hh;
  Some {| Sum := Sum h; Work := Work h; Back := back;
          Remove' := Remove' h; healthTick := healthTick h |}.

(** [OnStart] creates the ticker (and starts [healthGoroutine]) when there is
    none yet; it always returns a nil error. *)
Definition OnStart (h : HealthMgr) : HealthMgr :=
  if healthTick h then h
  else {| Sum := Sum h; Work := Work h; Back := Back h;
          Remove' := Remove' h; healthTick := true |}.

(** ** Running examples

    Three active validators A, B, C and two standbys D, E, as five [Health]
    objects at the locations 0 to 4. *)

Definition mkHealth (id : p2p_ID) (tick state : Z) (addr : bytes) : Health :=
  {| ID := id; IP := "127.0.0.1"; Port := 30303; Tick := tick; State := state;
     Val := Some {| Address := addr; VotingPower := 1; PubKey := [] |} |}.

Definition ex_mgr : HealthMgr :=
  {| Sum := 0;
     Work := <["A" := Some 0%nat]> (<["B" := Some 1%nat]> (<["C" := Some 2%nat]> ∅));
     Back := [Some 3%nat; Some 4%nat];
     Remove' := [];
     healthTick := true |}.

Definition ex_store_at (tickAB tickC stateC stateD : Z) : store :=
  <[0%nat := mkHealth "A" tickAB StateUsed [x0a]]>
  (<[1%nat := mkHealth "B" tickAB StateUsed [x0b]]>
  (<[2%nat := mkHealth "C" tickC stateC [x0c]]>
  (<[3%nat := mkHealth "D" 0 stateD [x0d]]>
  (<[4%nat := mkHealth "E" 0 StateUnused [x0e]]> ∅)))).

Definition ex_store : Z → Z → Z → store := ex_store_at 0.

(** A single active validator and no standby. *)
Definition solo_mgr : HealthMgr :=
  {| Sum := 0; Work := <["A" := Some 0%nat]> ∅; Back := [];
     Remove' := []; healthTick := true |}.

Definition solo_store (tick state : Z) : store :=
  <[0%nat := mkHealth "A" tick state [x0a]]> ∅.

(** The request of the running example: C out, D in. *)
Definition ex_request (reason : string) (origin : Z) : SwitchValidator :=
  {| Remove := Some 2%nat; Add := Some 3%nat; Resion := reason; from := origin |}.

(** An outcome whose [Remove] is a record that is not in the active map:
    Z, at location 5. *)
Definition ex_store_stranger : store :=
  <[5%nat := mkHealth "Z" 0 StateRemoved [x1a]]> (ex_store 601 StateSwitching StateSwitching).

(** ** The statements of the specification that the code does not meet

    Each is stated here as the specification words it, and refuted below at
    a concrete input. *)

(** The claim C4 as the specification words it: a liveness signal for a
    record that is [Switching] or [Removed] leaves the record as it was. *)
Definition Update_ignored_in_switch (h : HealthMgr) (id : p2p_ID) (σ : store) : Prop :=
  ∀ (l : loc) r, Work h !! id = Some (Some l) → σ !! l = Some r →
    State r = StateSwitching ∨ State r = StateRemoved →
    ∃ σ', Update h id σ = Some σ' ∧ σ' !! l = Some r.

(** The claim C2 as the specification words it: a failure outcome puts the
    outgoing record back to [Used] and the candidate back to [Unused]. *)
Definition failure_rolls_back (h : HealthMgr) (res : SwitchValidator) (σ : store) : Prop :=
  ∀ (lr la : loc) rr ra,
    Remove res = Some lr → Add res = Some la →
    σ !! lr = Some rr → σ !! la = Some ra →
    State rr = StateSwitching → State ra = StateSwitching →
    ∃ σ', switchResult h res σ = Some σ'
          ∧ σ' !! lr = Some (with_State StateUsed rr)
          ∧ σ' !! la = Some (with_State StateUnused ra).

(** The claim C3 as the specification words it: on a success outcome, the
    active record with the [Remove] ID goes from [Used] to [Removed], the
    pool record with the [Add] ID goes from [Switching] to [Used], and no
    other record changes. *)
Definition success_swaps_one_Used (h : HealthMgr) (res : SwitchValidator) (σ : store) : Prop :=
  ∃ σ' rm ad (lr la : loc) rr ra rr' ra',
    switchResult h res σ = Some σ'
    ∧ deref σ (Remove res) = Some rm ∧ deref σ (Add res) = Some ad
    ∧ Work h !! ID rm = Some (Some lr) ∧ Some la ∈ Back h
    ∧ σ !! lr = Some rr ∧ σ !! la = Some ra ∧ ID ra = ID ad
    ∧ State rr = StateUsed ∧ σ' !! lr = Some rr' ∧ State rr' = StateRemoved
    ∧ State ra = StateSwitching ∧ σ' !! la = Some ra' ∧ State ra' = StateUsed
    ∧ ∀ l : loc, l ≠ lr → l ≠ la → σ' !! l = σ !! l.

(** The claim C9 as the specification words it: once the manager has been
    started, [SetBackValidators] does not replace the pool. *)
Definition set_backup_rejected_after_start (hh : list ptr) (h : HealthMgr) (σ : store) : Prop :=
  healthTick h = true →
  ∀ h', SetBackValidators hh h σ = Some h' → Back h' = Back h.

(** ** The picker, called again and again *)

(** [n] calls of [pickUnuseValidator] in a row: what they return, in order. *)
Fixpoint pick_times (n : nat) (h : HealthMgr) (σ : store) : option (list ptr * store) :=
  match n with
  | O => Some ([], σ)
  | S n' =>
      '(p, σ1) ← pickUnuseValidator h σ;
      '(ps, σ2) ← pick_times n' h σ1;
      Some (p :: ps, σ2)
  end.

Definition is_Unused (σ : store) (l : loc) : bool :=
  match σ !! l with
  | Some r => State r =? StateUnused
  | None => false
  end.

Definition mark_Switching (σ : store) (l : loc) : store :=
  match σ !! l with
  | Some r => <[l := with_State StateSwitching r]> σ
  | None => σ
  end.

(** The records of [back] that are [Unused] in [σ], each once, in the order
    of the slice. *)
Fixpoint unused_seq (σ : store) (back : list ptr) : list loc :=
  match back with
  | [] => []
  | Some l :: rest =>
      if is_Unused σ l then l :: unused_seq (mark_Switching σ l) rest
      else unused_seq σ rest
  | None :: rest => unused_seq σ rest
  end.

Definition valid_ptr (σ : store) (p : ptr) : Prop := is_Some (deref σ p).

Definition not_Unused (σ : store) (p : ptr) : Prop :=
  ∃ r, deref σ p = Some r ∧ State r ≠ StateUnused.

(** ** What the tick loop can do to a record *)

(** A record is left alone, or it was [Used] or [Unused] and is now in the
    same state or [Switching]. *)
Definition record_cools (o o' : option Health) : Prop :=
  o' = o
  ∨ ∃ r r', o = Some r ∧ o' = Some r'
            ∧ (State r = StateUsed ∨ State r = StateUnused)
            ∧ (State r' = State r ∨ State r' = StateSwitching).

Definition cools (σ σ' : store) : Prop := ∀ l : loc, record_cools (σ !! l) (σ' !! l).

Definition not_Used (σ : store) (l : loc) : Prop :=
  ∀ r, σ !! l = Some r → State r ≠ StateUsed.

(** The requests of a list that name the record at [l] as [Remove]. *)
Definition requests_for (l : loc) (out : list SwitchValidator) : nat :=
  length (List.filter (λ sv, bool_decide (Remove sv = Some l)) out).

(** ** Executions of the manager *)

Inductive event :=
  | Emitted (sv : SwitchValidator)
  | Answered (sv : SwitchValidator).

(** The steps of a running manager: a tick, an outcome taken from the
    channel, a liveness signal. *)
Inductive step (h : HealthMgr) : store → list event → store → Prop :=
  | step_tick vs σ out σ' :
      visit_order h vs → work_loop h vs σ = Some (out, σ') →
      step h σ (Emitted <$> out) σ'
  | step_result res σ σ' :
      switchResult h res σ = Some σ' → step h σ [Answered res] σ'
  | step_update id σ σ' :
      Update h id σ = Some σ' → step h σ [] σ'.

(** Executions, with their events oldest first. *)
Inductive run (h : HealthMgr) : store → list event → store → Prop :=
  | run_nil σ : run h σ [] σ
  | run_step σ1 tr σ2 evs σ3 :
      run h σ1 tr σ2 → step h σ2 evs σ3 → run h σ1 (tr ++ evs) σ3.

Definition is_request (l : loc) (e : event) : bool :=
  match e with
  | Emitted sv => bool_decide (Remove sv = Some l)
  | Answered _ => false
  end.

Definition is_answer (l : loc) (e : event) : bool :=
  match e with
  | Emitted _ => false
  | Answered sv => bool_decide (Remove sv = Some l) && (from sv =? 1)
  end.

(** The requests for [l] in a trace. *)
Definition emitted (l : loc) (tr : list event) : nat :=
  length (List.filter (is_request l) tr).

(** The requests for [l] that no outcome of the coordinator has answered
    yet, after the events of [tr], starting from [n] of them. *)
Fixpoint pending_from (l : loc) (n : nat) (tr : list event) : nat :=
  match tr with
  | [] => n
  | e :: tr' =>
      pending_from l (if is_request l e then S n
                      else if is_answer l e then Nat.pred n else n) tr'
  end.

Definition pending (l : loc) (tr : list event) : nat := pending_from l 0 tr.

(** No [Health] object is both a value of the active map and in the pool. *)
Definition disjoint_objects (h : HealthMgr) : Prop :=
  ∀ p : ptr, p ∈ (map_to_list (Work h)).*2 → p ∉ Back h.

(** An execution of the running example: C has been silent for 600 ticks;
    the next tick asks to replace C by D; the coordinator agrees; one more
    tick follows. *)
Definition ex_trace : list event :=
  [Emitted (ex_request "Switch" 0); Answered (ex_request EmptyString 1)].

(** ** Keccak-256

    [help.RlpHash] hashes with go-ethereum's Keccak-256, which is outside
    this repository.  It is written out here after the Keccak reference: a
    sponge of rate 136 bytes over the permutation Keccak-f[1600], the state
    being 25 lanes of 64 bits, lane (x, y) at index [x + 5 * y].  The known
    digests at the end of the file check it. *)

Definition byte_to_Z (b : byte) : Z := Z.of_N (Byte.to_N b).
Definition byte_of_Z (z : Z) : byte := default x00 (Byte.of_N (Z.to_N (z mod 256))).

Definition mask64 : Z := 2 ^ 64 - 1.

(** Rotation of a 64-bit lane to the left. *)
Definition rotl64 (z : Z) (n : Z) : Z :=
  Z.lor (Z.land (Z.shiftl z n) mask64) (Z.shiftr z (64 - n)).

Definition lane (s : list Z) (x y : Z) : Z := default 0 (s !! Z.to_nat (x mod 5 + 5 * (y mod 5))).

Definition coords : list (Z * Z) :=
  (λ i, (Z.of_nat i mod 5, Z.of_nat i / 5)) <$> seq 0 25.

Definition rho_offsets : list Z :=
  [ 0;  1; 62; 28; 27;
   36; 44;  6; 55; 20;
    3; 10; 43; 25; 39;
   41; 45; 15; 21;  8;
   18;  2; 61; 56; 14].

Definition round_constants : list Z :=
  [0x0000000000000001; 0x0000000000008082; 0x800000000000808A; 0x8000000080008000;
   0x000000000000808B; 0x0000000080000001; 0x8000000080008081; 0x8000000000008009;
   0x000000000000008A; 0x0000000000000088; 0x0000000080008009; 0x000000008000000A;
   0x000000008000808B; 0x800000000000008B; 0x8000000000008089; 0x8000000000008003;
   0x8000000000008002; 0x8000000000000080; 0x000000000000800A; 0x800000008000000A;
   0x8000000080008081; 0x8000000000008080; 0x0000000080000001; 0x8000000080008008].

Definition theta (s : list Z) : list Z :=
  let C x := Z.lxor (lane s x 0) (Z.lxor (lane s x 1) (Z.lxor (lane s x 2)
               (Z.lxor (lane s x 3) (lane s x 4)))) in
  let D x := Z.lxor (C (x + 4)) (rotl64 (C (x + 1)) 1) in
  (λ '(x, y), Z.lxor (lane s x y) (D x)) <$> coords.

Definition rho_pi (s : list Z) : list Z :=
  (λ '(X, Y),
     let x := (X + 3 * Y) mod 5 in
     let y := X in
     rotl64 (lane s x y) (default 0 (rho_offsets !! Z.to_nat (x + 5 * y)))) <$> coords.

Definition chi (s : list Z) : list Z :=
  (λ '(x, y),
     Z.lxor (lane s x y)
       (Z.land (Z.lxor (lane s (x + 1) y) mask64) (lane s (x + 2) y))) <$> coords.

Definition iota (rc : Z) (s : list Z) : list Z :=
  match s with
  | [] => []
  | a :: s' => Z.lxor a rc :: s'
  end.

Definition keccak_round (s : list Z) (rc : Z) : list Z :=
  iota rc (chi (rho_pi (theta s))).

(** The permutation: 24 rounds. *)
Definition keccak_f (s : list Z) : list Z := foldl keccak_round s round_constants.

(** Lanes are read and written little-endian. *)
Definition lane_of_bytes (bs : bytes) : Z :=
  foldr (λ b acc, byte_to_Z b + 256 * acc) 0 bs.

Definition bytes_of_lane (z : Z) : bytes :=
  (λ k, byte_of_Z (Z.shiftr z (8 * Z.of_nat k))) <$> seq 0 8.

Fixpoint lanes_of_bytes (n : nat) (bs : bytes) : list Z :=
  match n with
  | O => []
  | S n' => lane_of_bytes (take 8 bs) :: lanes_of_bytes n' (drop 8 bs)
  end.

Definition rate : nat := 136.

(** The block is xored into the first 17 lanes. *)
Definition xor_block (s : list Z) (block : bytes) : list Z :=
  zip_with Z.lxor s (lanes_of_bytes 17 block ++ replicate 8 0).

Fixpoint absorb (n : nat) (s : list Z) (m : bytes) : list Z :=
  match n with
  | O => s
  | S n' => absorb n' (keccak_f (xor_block s (take rate m))) (drop rate m)
  end.

(** Padding to a multiple of the rate: the domain byte [dsep], zeros, and a
    last byte with its top bit set. *)
Definition pad (dsep : byte) (m : bytes) : bytes :=
  let k := (rate - 1 - (length m) mod rate)%nat in
  match k with
  | O => m ++ [byte_of_Z (Z.lor (byte_to_Z dsep) 0x80)]
  | S k' => m ++ [dsep] ++ replicate k' x00 ++ [x80]
  end.

(** Absorb every block, then squeeze the first 32 bytes. *)
Definition sponge256 (dsep : byte) (m : bytes) : bytes :=
  let p := pad dsep m in
  let s := absorb (length p / rate) (replicate 25 0) p in
  mjoin (bytes_of_lane <$> take 4 s).

Definition Keccak256 (m : bytes) : bytes := sponge256 x01 m.

(** The same sponge with the domain byte of SHA3-256, kept for its test
    vectors. *)
Definition SHA3_256 (m : bytes) : bytes := sponge256 x06 m.

(** ** Heartbeats and their signing form *)

(** [uint] and [uint64] fields are never computed with: they are kept as
    [N]. *)
Record Heartbeat := {
  ValidatorAddress : bytes;
  ValidatorIndex : N;
  Height : N;
  Round : N;
  Sequence : N;
  Signature : bytes;
}.

(** Modelled from the spec: the struct [CanonicalJSONHeartbeat] is declared
    in another file of the package.  Its fields are those of the composite
    literal in [SignBytes]; the spec gives their order on the wire. *)
Module Canonical.
Record JSONHeartbeat := {
  ChainID : string;
  Type' : string;
  Height : N;
  Round : N;
  Sequence : N;
  ValidatorAddress : bytes;
  ValidatorIndex : N;
}.
End Canonical.

(** The composite literal of [SignBytes]: [Signature] is not copied. *)
Definition canonical (chainID : string) (hb : Heartbeat) : Canonical.JSONHeartbeat :=
  {| Canonical.ChainID := chainID;
     Canonical.Type' := "heartbeat";
     Canonical.Height := Height hb;
     Canonical.Round := Round hb;
     Canonical.Sequence := Sequence hb;
     Canonical.ValidatorAddress := ValidatorAddress hb;
     Canonical.ValidatorIndex := ValidatorIndex hb |}.

(** [SignBytes], for any codec and any hash.  A nil receiver panics, and so
    does an error of the codec. *)
Definition SignBytes_with (MarshalJSON : Canonical.JSONHeartbeat → option bytes)
    (RlpHash : list bytes → bytes)
    (heartbeat : option Heartbeat) (chainID : string) : option bytes :=
  hb ← heartbeat;
  bz ← MarshalJSON (canonical chainID hb);
  Some (RlpHash [bz]).

Definition bytes_of_string (s : string) : bytes :=
  Ascii.byte_of_ascii <$> String.list_ascii_of_string s.

(** Modelled from the spec: the wire form of the canonical heartbeat is the
    JSON object
    [{chain_id, type, height, round, sequence, validator_address,
    validator_index}], in this order, with the address in hexadecimal.  The
    codec itself ([cdc], go-amino) is not in the repository's sources at
    hand; where the spec is silent (upper-case hexadecimal, numbers in
    decimal, the escapes of a string) the usual JSON form is taken. *)
Definition hex_digit (z : Z) : byte :=
  default x30 (bytes_of_string "0123456789ABCDEF" !! Z.to_nat z).

Definition hex_upper (bs : bytes) : bytes :=
  bs ≫= λ b, [hex_digit (byte_to_Z b / 16); hex_digit (byte_to_Z b mod 16)].

Definition json_escape (b : byte) : bytes :=
  if decide (b = x22) then [x5c; x22]
  else if decide (b = x5c) then [x5c; x5c]
  else if byte_to_Z b <? 32
       then bytes_of_string "\u00" ++ [hex_digit (byte_to_Z b / 16); hex_digit (byte_to_Z b mod 16)]
       else [b].

Definition json_string (s : bytes) : bytes :=
  [x22] ++ (s ≫= json_escape) ++ [x22].

Definition json_number (n : N) : bytes := bytes_of_string (pretty n).

Definition json_field (name : string) (value : bytes) : bytes :=
  json_string (bytes_of_string name) ++ [x3a] ++ value.

Fixpoint join_with (sep : bytes) (parts : list bytes) : bytes :=
  match parts with
  | [] => []
  | [x] => x
  | x :: rest => x ++ sep ++ join_with sep rest
  end.

Definition json_object (fields : list bytes) : bytes :=
  [x7b] ++ join_with [x2c] fields ++ [x7d].

(** Modelled from the spec: [cdc.MarshalJSON] on a canonical heartbeat; the
    spec has it fail on no well-formed input. *)
Definition cdc_MarshalJSON (c : Canonical.JSONHeartbeat) : option bytes :=
  Some (json_object
    [ json_field "chain_id" (json_string (bytes_of_string (Canonical.ChainID c)));
      json_field "type" (json_string (bytes_of_string (Canonical.Type' c)));
      json_field "height" (json_number (Canonical.Height c));
      json_field "round" (json_number (Canonical.Round c));
      json_field "sequence" (json_number (Canonical.Sequence c));
      json_field "validator_address" (json_string (hex_upper (Canonical.ValidatorAddress c)));
      json_field "validator_index" (json_number (Canonical.ValidatorIndex c)) ]).

(** Modelled from the spec: the signature is computed over the Keccak-256
    of the RLP encoding of the list that holds the JSON bytes.  RLP as in
    go-ethereum: a length header, then the payload. *)
Definition big_endian (n : Z) : bytes :=
  let k := Z.to_nat (Z.log2 n / 8 + 1) in
  (λ i, byte_of_Z (Z.shiftr n (8 * (Z.of_nat k - 1 - Z.of_nat i)))) <$> seq 0 k.

Definition rlp_header (base : Z) (len : nat) : bytes :=
  if (Z.of_nat len <=? 55) then [byte_of_Z (base + Z.of_nat len)]
  else let be := big_endian (Z.of_nat len) in
       byte_of_Z (base + 55 + Z.of_nat (length be)) :: be.

Definition rlp_bytes (b : bytes) : bytes :=
  match b with
  | [x] => if byte_to_Z x <? 128 then [x] else rlp_header 128 1 ++ b
  | _ => rlp_header 128 (length b) ++ b
  end.

Definition rlp_list (items : list bytes) : bytes :=
  let payload := mjoin (rlp_bytes <$> items) in
  rlp_header 192 (length payload) ++ payload.

(** Modelled from the spec: [help.RlpHash], the Keccak-256 of the RLP
    encoding of its argument, a 32-byte [common.Hash]. *)
Definition help_RlpHash (x : list bytes) : bytes := Keccak256 (rlp_list x).

(** [SignBytes] of the source, with the codec and the hash above. *)
Definition SignBytes : option Heartbeat → string → option bytes :=
  SignBytes_with cdc_MarshalJSON help_RlpHash.

(** The bytes that [SignBytes] hashes: the RLP encoding of the list that
    holds the JSON bytes. *)
Definition signing_form (chainID : string) (hb : Heartbeat) : option bytes :=
  bz ← cdc_MarshalJSON (canonical chainID hb); Some (rlp_list [bz]).

(** The name of a JSON field with its colon, and the decimal digits: what
    delimits the values in the JSON text. *)
Definition json_key (name : string) : bytes :=
  json_string (bytes_of_string name) ++ [x3a].

Definition is_digit (b : byte) : bool :=
  (48 <=? byte_to_Z b) && (byte_to_Z b <=? 57).

(** The values of a 32-byte hash: finitely many. *)
Definition digest := { l : bytes | length l = 32%nat }.

#[global] Instance of_bits_surj : Surj (=) Byte.of_bits.
Proof. intros b. exists (Byte.to_bits b). apply Byte.of_bits_to_bits. Qed.

#[global] Instance byte_finite : Finite byte := surjective_finite Byte.of_bits.

Definition pack (o : option bytes) : option digest :=
  match o with
  | Some l =>
      match decide (length l = 32%nat) with
      | left H => Some (l ↾ H)
      | right _ => None
      end
  | None => None
  end.

(** The heartbeats that Go's types and the 20-byte addresses allow. *)
Definition well_formed (hb : Heartbeat) : Prop :=
  length (ValidatorAddress hb) = 20%nat
  ∧ (Height hb < 2 ^ 64)%N ∧ (Round hb < 2 ^ 64)%N
  ∧ (Sequence hb < 2 ^ 64)%N ∧ (ValidatorIndex hb < 2 ^ 64)%N.

Definition two64 : nat := 2 ^ 64.

(** Four 64-bit counters and one bit: more values than a 32-byte hash has. *)
Definition counters : Type := fin two64 * fin two64 * fin two64 * fin two64 * bool.

(** A well-formed heartbeat for every value of the counters: height, round,
    sequence and index are the counters, the address is twenty times the byte
    0 or the byte 1. *)
Definition heartbeat_of (k : counters) : Heartbeat :=
  let '(h, r, s, i, b) := k in
  {| ValidatorAddress := replicate 20 (if b : bool then x01 else x00);
     ValidatorIndex := N.of_nat (fin_to_nat i);
     Height := N.of_nat (fin_to_nat h);
     Round := N.of_nat (fin_to_nat r);
     Sequence := N.of_nat (fin_to_nat s);
     Signature := [] |}.

(** A sample heartbeat. *)
Definition ex_heartbeat (round : N) (sig : bytes) : Heartbeat :=
  {| ValidatorAddress := replicate 19 x0c ++ [xff]; ValidatorIndex := 2; Height := 10;
     Round := round; Sequence := 7; Signature := sig |}.

(** * The rest of the file

    Relations for what a tick and an outcome can change, the loop of the
    manager, the sorting interface [HealthsByAddress] and [Heartbeat.Copy]. *)

(** The fields of a record that no operation of the manager writes. *)
Definition same_identity (r r' : Health) : Prop :=
  ID r' = ID r ∧ IP r' = IP r ∧ Port r' = Port r ∧ Val r' = Val r.

(** What a tick can do to a record: nothing; or age it when it is [Used];
    or bring it from [Used] or [Unused] to [Switching]. *)
Definition record_ticked (o o' : option Health) : Prop :=
  match o, o' with
  | None, None => True
  | Some r, Some r' =>
      same_identity r r'
      ∧ (State r' = State r
         ∨ (State r' = StateSwitching ∧ (State r = StateUsed ∨ State r = StateUnused)))
      ∧ (State r ≠ StateUsed → Tick r' = Tick r)
  | _, _ => False
  end.

Definition ticked (σ σ' : store) : Prop := ∀ l : loc, record_ticked (σ !! l) (σ' !! l).

(** What an outcome can do to the record at [l]: nothing; or set it to
    [Removed], when it is a value of the active map; or set it to [Used],
    when it is in the pool. *)
Definition record_switched (h : HealthMgr) (l : loc) (o o' : option Health) : Prop :=
  o' = o
  ∨ ∃ r, o = Some r
         ∧ ((o' = Some (with_State StateRemoved r) ∧ Some l ∈ (map_to_list (Work h)).*2)
            ∨ (o' = Some (with_State StateUsed r) ∧ Some l ∈ Back h)).

(** The requests of a list that name the record at [l] as [Add]. *)
Definition adds_for (l : loc) (out : list SwitchValidator) : nat :=
  length (List.filter (λ sv, bool_decide (Add sv = Some l)) out).

Definition is_add (l : loc) (e : event) : bool :=
  match e with
  | Emitted sv => bool_decide (Add sv = Some l)
  | Answered _ => false
  end.

(** The requests of a trace that name the record at [l] as [Add]. *)
Definition added (l : loc) (tr : list event) : nat :=
  length (List.filter (is_add l) tr).

(** ** The loop of the manager *)

(** What the [select] of [healthGoroutine] takes: a tick, with the order in
    which this tick visits the map; a value received from [SwitchChan], nil
    included; the quit signal. *)
Inductive loop_event :=
  | TickC (vs : list ptr)
  | RecvSwitch (s : option SwitchValidator)
  | QuitC.

(** [healthGoroutine] on the events that its [select] takes, in order.  It
    returns at the quit signal; with no event left it waits.  What the ticks
    hand to [Switch] is collected. *)
Fixpoint healthGoroutine (h : HealthMgr) (evs : list loop_event) (σ : store)
  : option (list SwitchValidator * store) :=
  match evs with
  | [] => Some ([], σ)
  | TickC vs :: rest =>
      '(out1, σ1) ← work_loop h vs σ;
      '(out2, σ2) ← healthGoroutine h rest σ1;
      Some (out1 ++ out2, σ2)
  | RecvSwitch s :: rest =>
      res ← s;
      σ1 ← switchResult h res σ;
      healthGoroutine h rest σ1
  | QuitC :: _ => Some ([], σ)
  end.

Definition is_RecvSwitch (e : loop_event) : bool :=
  match e with
  | RecvSwitch _ => true
  | _ => false
  end.

(** ** [HealthsByAddress] *)

(** [hs[i]] on a Go slice: out of range, it panics. *)
Definition index {A} (hs : list A) (i : Z) : option A :=
  if 0 <=? i then hs !! Z.to_nat i else None.

Definition HealthsByAddress_Len (hs : list ptr) : Z := Z.of_nat (length hs).

Definition HealthsByAddress_Less (σ : store) (hs : list ptr) (i j : Z) : option bool :=
  p ← index hs i; q ← index hs j; Less σ p q.

Definition HealthsByAddress_Swap (hs : list ptr) (i j : Z) : option (list ptr) :=
  it ← index hs i;
  hj ← index hs j;
  Some (<[Z.to_nat j := it]> (<[Z.to_nat i := hj]> hs)).

(** ** [Heartbeat.Copy] *)

(** A Go slice of bytes: a window of [len] bytes, [off] bytes into a backing
    array; [arr] is [None] for the nil slice. *)
Record slice := { arr : option loc; off : nat; len : nat }.

(** A [Heartbeat] as it lies in memory: the byte slices [ValidatorAddress]
    and [Signature] are slice headers, not bytes. *)
Module Ref.
Record Heartbeat := {
  ValidatorAddress : slice;
  ValidatorIndex : N;
  Height : N;
  Round : N;
  Sequence : N;
  Signature : slice;
}.
End Ref.

Record memory := {
  objects : gmap loc Ref.Heartbeat;
  arrays : gmap loc bytes;
}.

(** The bytes that a slice shows. *)
Definition slice_bytes (m : memory) (s : slice) : option bytes :=
  match arr s with
  | None => if decide (len s = 0%nat) then Some [] else None
  | Some a =>
      bs ← arrays m !! a;
      if decide (off s + len s ≤ length bs)%nat
      then Some (take (len s) (drop (off s) bs))
      else None
  end.

(** [s[i] = b]: out of range, it panics. *)
Definition slice_store (s : slice) (i : Z) (b : byte) (m : memory) : option memory :=
  if (0 <=? i) && (i <? Z.of_nat (len s)) then
    a ← arr s;
    bs ← arrays m !! a;
    Some {| objects := objects m;
            arrays := <[a := <[(off s + Z.to_nat i)%nat := b]> bs]> (arrays m) |}
  else None.

(** [Copy]: nil for nil; otherwise [heartbeatCopy := *heartbeat] is a new
    object with the fields of the old one, and its address is returned. *)
Definition Copy (heartbeat : ptr) (m : memory) : option (ptr * memory) :=
  match heartbeat with
  | None => Some (None, m)
  | Some l =>
      hb ← objects m !! l;
      let l' := fresh (dom (objects m)) in
      Some (Some l', {| objects := <[l' := hb]> (objects m); arrays := arrays m |})
  end.

(** The heartbeat that a pointer shows, its byte slices read. *)
Definition snapshot (m : memory) (p : ptr) : option Heartbeat :=
  l ← p;
  hb ← objects m !! l;
  addr ← slice_bytes m (Ref.ValidatorAddress hb);
  sig ← slice_bytes m (Ref.Signature hb);
  Some {| ValidatorAddress := addr;
          ValidatorIndex := Ref.ValidatorIndex hb;
          Height := Ref.Height hb;
          Round := Ref.Round hb;
          Sequence := Ref.Sequence hb;
          Signature := sig |}.

(** A heartbeat in memory: a 2-byte address in array 0, and a signature of 2
    bytes at offset 1 of the 4-byte array 1. *)
Definition ex_ref : Ref.Heartbeat :=
  {| Ref.ValidatorAddress := {| arr := Some 0%nat; off := 0; len := 2 |};
     Ref.ValidatorIndex := 2; Ref.Height := 10; Ref.Round := 1; Ref.Sequence := 7;
     Ref.Signature := {| arr := Some 1%nat; off := 1; len := 2 |} |}.

Definition ex_memory : memory :=
  {| objects := <[0%nat := ex_ref]> ∅;
     arrays := <[0%nat := [x0c; xff]]> (<[1%nat := [x00; x51; x52; x53]]> ∅) |}.

(** The three active records in the order of their locations. *)
Definition ex_order : list ptr := [Some 0%nat; Some 1%nat; Some 2%nat].

(** A schedule of the loop: a tick, a request that a tick produced coming
    back on the channel, a tick, the quit signal, and a tick that is never
    taken. *)
Definition ex_schedule : list loop_event :=
  [TickC ex_order; RecvSwitch (Some (ex_request "Switch" 0)); TickC ex_order;
   QuitC; TickC ex_order].

(** * Properties *)

(** ** Basic facts about the store *)

Lemma wrap32_cancel (t : Z) : wrap32 (t + wrap32 (- t)) = 0.
Proof.
  unfold wrap32.
  replace (t + ((- t + 2 ^ 31) mod 2 ^ 32 - 2 ^ 31) + 2 ^ 31)
    with (t + (- t + 2 ^ 31) mod 2 ^ 32) by lia.
  rewrite Zplus_mod_idemp_r.
  replace (t + (- t + 2 ^ 31)) with (2 ^ 31) by lia.
  reflexivity.
Qed.

Lemma wrap32_small (t : Z) : - 2 ^ 31 <= t < 2 ^ 31 → wrap32 t = t.
Proof. intros H. unfold wrap32. rewrite Z.mod_small; lia. Qed.

Lemma deref_Some σ (l : loc) : deref σ (Some l) = σ !! l.
Proof. reflexivity. Qed.

Lemma set_State_Some σ (l : loc) r s :
  σ !! l = Some r → set_State (Some l) s σ = Some (<[l := with_State s r]> σ).
Proof. intros H. unfold set_State. simpl. rewrite H. reflexivity. Qed.

Lemma deref_set_State σ (l : loc) r s p :
  σ !! l = Some r →
  deref (<[l := with_State s r]> σ) p
  = (λ x, if decide (p = Some l) then with_State s x else x) <$> deref σ p.
Proof.
  intros H. destruct p as [l'|]; simpl; [|done].
  destruct (decide (l = l')) as [->|Hne].
  - rewrite lookup_insert_eq, H. simpl. by rewrite decide_True.
  - rewrite lookup_insert_ne by done.
    destruct (σ !! l') eqn:E; simpl; [|done].
    rewrite decide_False; [done | congruence].
Qed.

Lemma deref_set_State_ID σ (l : loc) r s p :
  σ !! l = Some r →
  ID <$> deref (<[l := with_State s r]> σ) p = ID <$> deref σ p.
Proof.
  intros H. rewrite (deref_set_State _ _ _ _ _ H).
  destruct (deref σ p); simpl; [|done]. by case_decide.
Qed.

Lemma deref_set_State_Val σ (l : loc) r s p :
  σ !! l = Some r →
  Val <$> deref (<[l := with_State s r]> σ) p = Val <$> deref σ p.
Proof.
  intros H. rewrite (deref_set_State _ _ _ _ _ H).
  destruct (deref σ p); simpl; [|done]. by case_decide.
Qed.

Lemma String_returns_Some σ p r v :
  deref σ p = Some r → Val r = Some v → String_returns σ p = Some ().
Proof. intros H1 H2. unfold String_returns. rewrite H1. simpl. by rewrite H2. Qed.

Lemma String_returns_set_State σ (l : loc) r s p :
  σ !! l = Some r →
  String_returns (<[l := with_State s r]> σ) p = String_returns σ p.
Proof.
  intros H. unfold String_returns.
  pose proof (deref_set_State_Val σ l r s p H) as HV.
  destruct (deref (<[l := with_State s r]> σ) p), (deref σ p); simpl in *;
    congruence.
Qed.

(** ** [Update]: the liveness signal *)

Lemma Update_known h id σ (l : loc) r :
  Work h !! id = Some (Some l) → σ !! l = Some r →
  Update h id σ = Some (<[l := with_Tick 0 r]> σ).
Proof.
  intros HW Hl. unfold Update, LoadInt32, AddInt32. rewrite HW. simpl.
  rewrite Hl. simpl. by rewrite wrap32_cancel.
Qed.

(** C7. [Update id] for an [id] of the active map sets the tick of that
    record to 0, which is what the next [LoadInt32] reads, and changes
    neither another field of it nor another record; for an [id] that is not
    in the active map it returns without changing anything. *)
Theorem Update_resets_tick_or_noop (h : HealthMgr) (id : p2p_ID) (σ : store) :
  (∀ (l : loc) r, Work h !! id = Some (Some l) → σ !! l = Some r →
     ∃ σ', Update h id σ = Some σ'
           ∧ LoadInt32 (Some l) σ' = Some 0
           ∧ σ' !! l = Some (with_Tick 0 r)
           ∧ ∀ l' : loc, l' ≠ l → σ' !! l' = σ !! l')
  ∧ (Work h !! id = None → Update h id σ = Some σ).
Proof.
  split.
  - intros l r HW Hl. eexists. split; [by apply Update_known|].
    unfold LoadInt32. simpl. rewrite lookup_insert_eq.
    split; [reflexivity|]. split; [reflexivity|].
    intros l' Hne. by rewrite lookup_insert_ne.
  - intros HW. unfold Update. by rewrite HW.
Qed.

Lemma Update_resets_tick_or_noop_witness :
  (∃ σ', Update ex_mgr "C" (ex_store 37 StateUsed StateUnused) = Some σ'
         ∧ LoadInt32 (Some 2%nat) σ' = Some 0
         ∧ σ' !! 2%nat = Some (with_Tick 0 (mkHealth "C" 37 StateUsed [x0c]))
         ∧ ∀ l' : loc, l' ≠ 2%nat → σ' !! l' = ex_store 37 StateUsed StateUnused !! l')
  ∧ Update ex_mgr "Z" (ex_store 37 StateUsed StateUnused)
    = Some (ex_store 37 StateUsed StateUnused).
Proof.
  split.
  - apply (proj1 (Update_resets_tick_or_noop ex_mgr "C" _) 2%nat); reflexivity.
  - apply (proj2 (Update_resets_tick_or_noop ex_mgr "Z" _)). reflexivity.
Defined.

(** C4, counterexample.  C is [Switching] with tick 601; [Update "C"] puts
    its tick back to 0. *)
Lemma Update_Switching_not_ignored :
  ¬ Update_ignored_in_switch ex_mgr "C" (ex_store 601 StateSwitching StateSwitching).
Proof.
  intros H.
  destruct (H 2%nat (mkHealth "C" 601 StateSwitching [x0c])) as (σ' & HU & Hl);
    [reflexivity | reflexivity | by left |].
  rewrite (Update_known _ _ _ 2%nat (mkHealth "C" 601 StateSwitching [x0c])) in HU
    by reflexivity.
  injection HU as <-. rewrite lookup_insert_eq in Hl. discriminate.
Qed.

(** C4, as the code has it.  [Update] does not look at the state: for a record
    that is [Switching] or [Removed] it still puts the tick back to 0; the
    state, and so the switch under way, is left as it was. *)
Theorem Update_in_switch_keeps_state (h : HealthMgr) (id : p2p_ID) (σ : store)
    (l : loc) (r : Health) :
  Work h !! id = Some (Some l) → σ !! l = Some r →
  State r = StateSwitching ∨ State r = StateRemoved →
  ∃ σ' r', Update h id σ = Some σ' ∧ σ' !! l = Some r'
           ∧ State r' = State r ∧ Tick r' = 0
           ∧ ∀ l' : loc, l' ≠ l → σ' !! l' = σ !! l'.
Proof.
  intros HW Hl _. exists (<[l := with_Tick 0 r]> σ), (with_Tick 0 r).
  split; [by apply Update_known|]. rewrite lookup_insert_eq.
  repeat split. intros l' Hne. by rewrite lookup_insert_ne.
Qed.

Lemma Update_in_switch_keeps_state_witness :
  ∃ σ' r', Update ex_mgr "C" (ex_store 601 StateSwitching StateSwitching) = Some σ'
           ∧ σ' !! 2%nat = Some r'
           ∧ State r' = State (mkHealth "C" 601 StateSwitching [x0c]) ∧ Tick r' = 0
           ∧ ∀ l' : loc, l' ≠ 2%nat →
               σ' !! l' = ex_store 601 StateSwitching StateSwitching !! l'.
Proof.
  apply (Update_in_switch_keeps_state ex_mgr "C" _ 2%nat);
    [reflexivity | reflexivity | left; reflexivity].
Defined.

(** ** [switchResult]: applying a switch outcome *)

Lemma promote_loop_first_match (pre post : list ptr) (la : loc) add σ a ra :
  deref σ add = Some a →
  Forall (λ p, ∃ r, deref σ p = Some r ∧ ID r ≠ ID a) pre →
  σ !! la = Some ra → ID ra = ID a →
  promote_loop (pre ++ Some la :: post) add σ
  = Some (<[la := with_State StateUsed ra]> σ).
Proof.
  intros Ha Hpre Hla Hid. induction Hpre as [|p pre (r & Hr & Hne) _ IH]; simpl.
  - rewrite Hla, Ha. simpl. rewrite Hid, String.eqb_refl.
    done.
  - rewrite Hr, Ha. simpl.
    destruct (String.eqb_spec (ID r) (ID a)); [done | apply IH].
Qed.

Lemma promote_loop_no_match (back : list ptr) add σ a :
  deref σ add = Some a →
  Forall (λ p, ∃ r, deref σ p = Some r ∧ ID r ≠ ID a) back →
  promote_loop back add σ = Some σ.
Proof.
  intros Ha Hb. induction Hb as [|p pre (r & Hr & Hne) _ IH]; simpl; [done|].
  rewrite Hr, Ha. simpl. by destruct (String.eqb_spec (ID r) (ID a)).
Qed.

(** An outcome that did not come from the coordinator ([from] is not 1) is
    dropped without a look at it. *)
Lemma switchResult_local h res σ : from res ≠ 1 → switchResult h res σ = Some σ.
Proof. intros H. unfold switchResult. by destruct (Z.eqb_spec (from res) 1). Qed.

(** C2, counterexample.  C and D are [Switching]; the coordinator answers
    "rejected"; both are still [Switching] afterwards. *)
Lemma switchResult_failure_no_rollback :
  ¬ failure_rolls_back ex_mgr (ex_request "rejected" 1)
      (ex_store 601 StateSwitching StateSwitching).
Proof.
  intros H.
  destruct (H 2%nat 3%nat (mkHealth "C" 601 StateSwitching [x0c])
              (mkHealth "D" 0 StateSwitching [x0d]))
    as (σ' & Hs & HC & _); try reflexivity.
  vm_compute in Hs. injection Hs as <-. vm_compute in HC. discriminate.
Qed.

(** C2, as the code has it.  A failure outcome of the coordinator (it names
    two records that [String] can print) changes nothing: no state, no tick.
    The outgoing record and the candidate stay as they are, [Switching] after
    a request of the tick loop. *)
Theorem switchResult_failure_changes_nothing (h : HealthMgr)
    (res : SwitchValidator) (σ : store) (rr ra : Health) (vr va : Validator) :
  from res = 1 → Resion res ≠ EmptyString →
  deref σ (Remove res) = Some rr → Val rr = Some vr →
  deref σ (Add res) = Some ra → Val ra = Some va →
  switchResult h res σ = Some σ.
Proof.
  intros Hf Hr Hrm Hvr Had Hva. unfold switchResult. rewrite Hf. simpl.
  destruct (String.eqb_spec (Resion res) EmptyString); [done|]. simpl.
  rewrite (String_returns_Some _ _ _ _ Hrm Hvr). simpl.
  by rewrite (String_returns_Some _ _ _ _ Had Hva).
Qed.

Lemma switchResult_failure_changes_nothing_witness :
  switchResult ex_mgr (ex_request "rejected" 1)
    (ex_store 601 StateSwitching StateSwitching)
  = Some (ex_store 601 StateSwitching StateSwitching).
Proof.
  apply (switchResult_failure_changes_nothing ex_mgr (ex_request "rejected" 1) _
           (mkHealth "C" 601 StateSwitching [x0c]) (mkHealth "D" 0 StateSwitching [x0d])
           {| Address := [x0c]; VotingPower := 1; PubKey := [] |}
           {| Address := [x0d]; VotingPower := 1; PubKey := [] |});
    first [reflexivity | discriminate].
Defined.

Lemma deref_set_State_fwd σ (l : loc) r s p x :
  σ !! l = Some r → deref σ p = Some x →
  ∃ x', deref (<[l := with_State s r]> σ) p = Some x'
        ∧ ID x' = ID x ∧ Val x' = Val x ∧ Tick x' = Tick x.
Proof.
  intros Hl Hp. rewrite (deref_set_State _ _ _ _ _ Hl), Hp. simpl.
  eexists. split; [done|]. by case_decide.
Qed.

Lemma Forall_other_ID_set_State σ (l : loc) r s (pre : list ptr) a a' :
  σ !! l = Some r → ID a' = ID a →
  Forall (λ p, ∃ x, deref σ p = Some x ∧ ID x ≠ ID a) pre →
  Forall (λ p, ∃ x, deref (<[l := with_State s r]> σ) p = Some x ∧ ID x ≠ ID a') pre.
Proof.
  intros Hl Ha HF. eapply Forall_impl; [exact HF|]. intros p (x & Hx & Hne).
  destruct (deref_set_State_fwd σ l r s p x Hl Hx) as (x' & Hx' & Hid & _).
  exists x'. split; [done | congruence].
Qed.

Lemma switchResult_success_known h res σ rm ad (lr la : loc) rr ra vr va pre post :
  from res = 1 → Resion res = EmptyString →
  deref σ (Remove res) = Some rm → Val rm = Some vr →
  deref σ (Add res) = Some ad → Val ad = Some va →
  Work h !! ID rm = Some (Some lr) → σ !! lr = Some rr →
  Back h = pre ++ Some la :: post →
  Forall (λ p, ∃ r, deref σ p = Some r ∧ ID r ≠ ID ad) pre →
  <[lr := with_State StateRemoved rr]> σ !! la = Some ra → ID ra = ID ad →
  switchResult h res σ
  = Some (<[la := with_State StateUsed ra]> (<[lr := with_State StateRemoved rr]> σ)).
Proof.
  intros Hf Hr Hrm Hvr Had Hva HW Hlr HB Hpre Hla Hid.
  unfold switchResult. rewrite Hf, Hr, Hrm. simpl. rewrite HW.
  rewrite (set_State_Some _ _ _ _ Hlr). simpl.
  destruct (deref_set_State_fwd σ lr rr StateRemoved _ _ Hlr Had)
    as (ad' & Had' & Hid' & Hval' & _).
  destruct (deref_set_State_fwd σ lr rr StateRemoved _ _ Hlr Hrm)
    as (rm' & Hrm' & _ & Hvrm' & _).
  rewrite HB.
  rewrite (promote_loop_first_match pre post la (Add res) _ ad' ra Had');
    [| by apply (Forall_other_ID_set_State σ lr rr _ pre ad ad') | done | congruence].
  simpl. rewrite !(String_returns_set_State _ la ra) by done.
  rewrite (String_returns_Some _ _ rm' vr Hrm') by congruence. simpl.
  by rewrite (String_returns_Some _ _ ad' va Had') by congruence.
Qed.

Lemma switchResult_success_unknown h res σ rm ad (la : loc) ra vr va pre post :
  from res = 1 → Resion res = EmptyString →
  deref σ (Remove res) = Some rm → Val rm = Some vr →
  deref σ (Add res) = Some ad → Val ad = Some va →
  Work h !! ID rm = None →
  Back h = pre ++ Some la :: post →
  Forall (λ p, ∃ r, deref σ p = Some r ∧ ID r ≠ ID ad) pre →
  σ !! la = Some ra → ID ra = ID ad →
  switchResult h res σ = Some (<[la := with_State StateUsed ra]> σ).
Proof.
  intros Hf Hr Hrm Hvr Had Hva HW HB Hpre Hla Hid.
  unfold switchResult. rewrite Hf, Hr, Hrm. simpl. rewrite HW. simpl.
  rewrite HB, (promote_loop_first_match pre post la (Add res) _ ad ra Had) by done.
  simpl. rewrite !(String_returns_set_State _ la ra) by done.
  rewrite (String_returns_Some _ _ rm vr Hrm) by done. simpl.
  by rewrite (String_returns_Some _ _ ad va Had).
Qed.

(** C3, counterexample.  After the tick loop has asked to replace C by D,
    both are [Switching]; on success C goes from [Switching] to [Removed]:
    no [Used] record is lost, and the records that are [Used] are one more
    than before. *)
Lemma switchResult_success_loses_no_Used :
  ¬ success_swaps_one_Used ex_mgr (ex_request EmptyString 1)
      (ex_store 601 StateSwitching StateSwitching).
Proof.
  intros (σ' & rm & ad & lr & la & rr & ra & rr' & ra'
          & _ & Hrm & _ & HW & _ & Hlr & _ & _ & HU & _).
  vm_compute in Hrm. injection Hrm as <-.
  vm_compute in HW. injection HW as <-.
  vm_compute in Hlr. injection Hlr as <-.
  discriminate HU.
Qed.

(** C3, as the code has it.  A success outcome of the coordinator whose
    [Remove] ID is in the active map and whose [Add] ID is the ID of a pool
    record sets the active record to [Removed] and the first such pool record
    to [Used], whatever their states were; every other record, and every
    tick, is as before. *)
Theorem switchResult_success_sets_states (h : HealthMgr) (res : SwitchValidator)
    (σ : store) (rm ad rr ra : Health) (lr la : loc) (vr va : Validator)
    (pre post : list ptr) :
  from res = 1 → Resion res = EmptyString →
  deref σ (Remove res) = Some rm → Val rm = Some vr →
  deref σ (Add res) = Some ad → Val ad = Some va →
  Work h !! ID rm = Some (Some lr) → σ !! lr = Some rr →
  Back h = pre ++ Some la :: post →
  Forall (λ p, ∃ r, deref σ p = Some r ∧ ID r ≠ ID ad) pre →
  σ !! la = Some ra → ID ra = ID ad → la ≠ lr →
  ∃ σ' rr' ra',
    switchResult h res σ = Some σ'
    ∧ σ' !! lr = Some rr' ∧ State rr' = StateRemoved
    ∧ same_identity rr rr' ∧ Tick rr' = Tick rr
    ∧ σ' !! la = Some ra' ∧ State ra' = StateUsed
    ∧ same_identity ra ra' ∧ Tick ra' = Tick ra
    ∧ ∀ l : loc, l ≠ lr → l ≠ la → σ' !! l = σ !! l.
Proof.
  intros Hf Hr Hrm Hvr Had Hva HW Hlr HB Hpre Hla Hid Hne.
  exists (<[la := with_State StateUsed ra]> (<[lr := with_State StateRemoved rr]> σ)),
    (with_State StateRemoved rr), (with_State StateUsed ra).
  split_and!.
  - apply (switchResult_success_known h res σ rm ad lr la rr ra vr va pre post);
      try done. by rewrite lookup_insert_ne.
  - rewrite lookup_insert_ne by done. apply lookup_insert_eq.
  - reflexivity.
  - by repeat split.
  - reflexivity.
  - apply lookup_insert_eq.
  - reflexivity.
  - by repeat split.
  - reflexivity.
  - intros l H1 H2. by rewrite !lookup_insert_ne.
Qed.

Lemma switchResult_success_sets_states_witness :
  ∃ σ' rr' ra',
    switchResult ex_mgr (ex_request EmptyString 1)
      (ex_store 601 StateSwitching StateSwitching) = Some σ'
    ∧ σ' !! 2%nat = Some rr' ∧ State rr' = StateRemoved
    ∧ same_identity (mkHealth "C" 601 StateSwitching [x0c]) rr' ∧ Tick rr' = 601
    ∧ σ' !! 3%nat = Some ra' ∧ State ra' = StateUsed
    ∧ same_identity (mkHealth "D" 0 StateSwitching [x0d]) ra' ∧ Tick ra' = 0
    ∧ ∀ l : loc, l ≠ 2%nat → l ≠ 3%nat →
        σ' !! l = ex_store 601 StateSwitching StateSwitching !! l.
Proof.
  apply (switchResult_success_sets_states ex_mgr (ex_request EmptyString 1) _
           (mkHealth "C" 601 StateSwitching [x0c]) (mkHealth "D" 0 StateSwitching [x0d])
           (mkHealth "C" 601 StateSwitching [x0c]) (mkHealth "D" 0 StateSwitching [x0d])
           2%nat 3%nat
           {| Address := [x0c]; VotingPower := 1; PubKey := [] |}
           {| Address := [x0d]; VotingPower := 1; PubKey := [] |}
           [] [Some 4%nat]);
    first [reflexivity | by constructor | lia].
Defined.

(** C10. A success outcome of the coordinator whose [Remove] ID is not in the
    active map still sets the first pool record with the [Add] ID to [Used]:
    the lookup in the active map and the loop over the pool do not depend on
    each other.  Nothing else changes. *)
Theorem switchResult_unknown_remove_still_promotes (h : HealthMgr)
    (res : SwitchValidator) (σ : store) (rm ad ra : Health) (la : loc)
    (vr va : Validator) (pre post : list ptr) :
  from res = 1 → Resion res = EmptyString →
  deref σ (Remove res) = Some rm → Val rm = Some vr →
  deref σ (Add res) = Some ad → Val ad = Some va →
  Work h !! ID rm = None →
  Back h = pre ++ Some la :: post →
  Forall (λ p, ∃ r, deref σ p = Some r ∧ ID r ≠ ID ad) pre →
  σ !! la = Some ra → ID ra = ID ad →
  ∃ σ' ra',
    switchResult h res σ = Some σ'
    ∧ σ' !! la = Some ra' ∧ State ra' = StateUsed
    ∧ same_identity ra ra' ∧ Tick ra' = Tick ra
    ∧ ∀ l : loc, l ≠ la → σ' !! l = σ !! l.
Proof.
  intros Hf Hr Hrm Hvr Had Hva HW HB Hpre Hla Hid.
  exists (<[la := with_State StateUsed ra]> σ), (with_State StateUsed ra).
  split_and!.
  - by apply (switchResult_success_unknown h res σ rm ad la ra vr va pre post).
  - apply lookup_insert_eq.
  - reflexivity.
  - by repeat split.
  - reflexivity.
  - intros l Hne. by rewrite lookup_insert_ne.
Qed.

Lemma switchResult_unknown_remove_still_promotes_witness :
  ∃ σ' ra',
    switchResult ex_mgr
      {| Remove := Some 5%nat; Add := Some 4%nat; Resion := EmptyString; from := 1 |}
      ex_store_stranger = Some σ'
    ∧ σ' !! 4%nat = Some ra' ∧ State ra' = StateUsed
    ∧ same_identity (mkHealth "E" 0 StateUnused [x0e]) ra' ∧ Tick ra' = 0
    ∧ ∀ l : loc, l ≠ 4%nat → σ' !! l = ex_store_stranger !! l.
Proof.
  apply (switchResult_unknown_remove_still_promotes ex_mgr
           {| Remove := Some 5%nat; Add := Some 4%nat; Resion := EmptyString; from := 1 |}
           ex_store_stranger
           (mkHealth "Z" 0 StateRemoved [x1a]) (mkHealth "E" 0 StateUnused [x0e])
           (mkHealth "E" 0 StateUnused [x0e]) 4%nat
           {| Address := [x1a]; VotingPower := 1; PubKey := [] |}
           {| Address := [x0e]; VotingPower := 1; PubKey := [] |}
           [Some 3%nat] []);
    try reflexivity.
  constructor; [|constructor].
  exists (mkHealth "D" 0 StateSwitching [x0d]). split; [reflexivity | discriminate].
Defined.

(** ** The tick loop with no candidate in the pool *)

Lemma pick_loop_none (back : list ptr) σ :
  Forall (λ p, ∃ r, deref σ p = Some r ∧ State r ≠ StateUnused) back →
  pick_loop back σ = Some (None, σ).
Proof.
  induction 1 as [|p back (r & Hr & Hs) _ IH]; simpl; [done|].
  rewrite Hr. simpl. by destruct (Z.eqb_spec (State r) StateUnused).
Qed.

(** Whenever the threshold is crossed and the picker finds nothing, the
    request is handed to [Switch] all the same, with a nil [Add], and the
    record becomes [Switching]. *)
Lemma checkSwitchValidator_no_candidate h σ (l : loc) r :
  σ !! l = Some r → Tick r > HealthOut → State r = StateUsed →
  Forall (λ p, ∃ r, deref σ p = Some r ∧ State r ≠ StateUnused) (Back h) →
  checkSwitchValidator h (Some l) σ
  = Some ([{| Remove := Some l; Add := None; Resion := "Switch"; from := 0 |}],
          <[l := with_State StateSwitching r]> σ).
Proof.
  intros Hl Ht Hs Hb. unfold checkSwitchValidator, LoadInt32, pickUnuseValidator.
  simpl. rewrite Hl. simpl. rewrite Hs.
  destruct (Z.gtb_spec (Tick r) HealthOut); [|lia]. simpl.
  rewrite (pick_loop_none _ _ Hb). simpl. by rewrite Hl.
Qed.

(** C1, the code at the failing input.  A is the only active validator, it
    is [Used] with tick 600, and the pool is empty.  The tick brings A to
    601: a request with a nil [Add] is handed to [Switch] and A becomes
    [Switching]; from then on the tick of A stays at 601; and when that
    request comes back as an outcome of the coordinator, [switchResult]
    dereferences the nil [Add]. *)
Theorem work_empty_pool_emits_nil_Add :
  work solo_mgr (solo_store 600 StateUsed)
  = Some ([{| Remove := Some 0%nat; Add := None; Resion := "Switch"; from := 0 |}],
          solo_store 601 StateSwitching)
  ∧ work solo_mgr (solo_store 601 StateSwitching)
    = Some ([], solo_store 601 StateSwitching)
  ∧ switchResult solo_mgr
      {| Remove := Some 0%nat; Add := None; Resion := EmptyString; from := 1 |}
      (solo_store 601 StateSwitching) = None
  ∧ switchResult solo_mgr
      {| Remove := Some 0%nat; Add := None; Resion := "rejected"; from := 1 |}
      (solo_store 601 StateSwitching) = None.
Proof. split_and!; vm_compute; reflexivity. Qed.

(** The third scenario of the specification: A alone, no standby, silent
    for 700 ticks from tick 0.  Nothing is handed to [Switch] in the first
    600 ticks; the tick 601 hands over the request with the nil [Add]; the
    tick of A is 601 after 700 ticks. *)
Example solo_silent_700_ticks :
  work_times 600 solo_mgr (solo_store 0 StateUsed)
  = Some ([], solo_store 600 StateUsed)
  ∧ work_times 700 solo_mgr (solo_store 0 StateUsed)
    = Some ([{| Remove := Some 0%nat; Add := None; Resion := "Switch"; from := 0 |}],
            solo_store 601 StateSwitching).
Proof. split_and!; vm_compute; reflexivity. Qed.

(** ** [bytes.Compare] is a total order *)

Lemma bytes_Compare_range a b :
  bytes_Compare a b = -1 ∨ bytes_Compare a b = 0 ∨ bytes_Compare a b = 1.
Proof.
  revert b. induction a as [|x a IH]; intros [|y b]; simpl; auto.
  destruct (N.compare (to_N x) (to_N y)); auto.
Qed.

Lemma bytes_Compare_antisym a b :
  bytes_Compare a b = -1 → bytes_Compare b a = 1.
Proof.
  revert b. induction a as [|x a IH]; intros [|y b]; simpl; try done.
  rewrite (N.compare_antisym (to_N x) (to_N y)).
  destruct (N.compare (to_N x) (to_N y)); simpl; try done. apply IH.
Qed.

Lemma bytes_Compare_trans a b c :
  bytes_Compare b a ≠ -1 → bytes_Compare c b ≠ -1 → bytes_Compare c a ≠ -1.
Proof.
  revert b c. induction a as [|x a IH]; intros [|y b] [|z c]; simpl; try done.
  destruct (N.compare_spec (to_N y) (to_N x)),
           (N.compare_spec (to_N z) (to_N y)),
           (N.compare_spec (to_N z) (to_N x));
    try done; try lia.
  apply IH.
Qed.

Lemma addr_le_total σ : Total (addr_le σ).
Proof.
  intros p q. unfold addr_le.
  destruct (bytes_Compare_range (default [] (address_of σ q)) (default [] (address_of σ p)))
    as [H|[H|H]].
  - right. rewrite (bytes_Compare_antisym _ _ H). done.
  - left. rewrite H. done.
  - left. rewrite H. done.
Qed.

Lemma addr_le_trans σ : Transitive (addr_le σ).
Proof. intros p q r H1 H2. unfold addr_le in *. by eapply bytes_Compare_trans. Qed.

Lemma address_of_set_State σ (l : loc) r s p :
  σ !! l = Some r →
  address_of (<[l := with_State s r]> σ) p = address_of σ p.
Proof.
  intros H. unfold address_of.
  pose proof (deref_set_State_Val σ l r s p H) as HV.
  destruct (deref (<[l := with_State s r]> σ) p), (deref σ p); simpl in *;
    congruence.
Qed.

(** ** [SetBackValidators] and [OnStart] *)

Lemma sort_Sort_readable σ (hs : list ptr) :
  (length hs < 2)%nat ∨ Forall (λ p, is_Some (address_of σ p)) hs →
  sort_Sort σ hs = Some (merge_sort (addr_le σ) hs).
Proof.
  intros H. unfold sort_Sort.
  destruct (Z.leb_spec 2 (Z.of_nat (length hs))); simpl; [|done].
  destruct H as [H|H]; [lia|].
  assert (Is_true (forallb (λ p, bool_decide (is_Some (address_of σ p))) hs)) as HT.
  { apply forallb_True. eapply Forall_impl; [exact H|].
    intros p Hp. by apply bool_decide_pack. }
  by destruct (forallb _ hs).
Qed.

(** C9, counterexample.  A started manager with an empty pool is given the
    standbys E and D: the call returns and the pool is [D; E]. *)
Lemma SetBackValidators_after_start_replaces :
  ¬ set_backup_rejected_after_start [Some 4%nat; Some 3%nat] (OnStart NewHealthMgr)
      (ex_store 0 StateUsed StateUnused).
Proof.
  intros H. specialize (H eq_refl _ eq_refl). discriminate H.
Qed.

(** C9, as the code has it.  [SetBackValidators] does not look at the
    lifecycle and has no error to return: started or not, for records whose
    addresses can be read (or fewer than two records), it replaces the pool
    by the given records sorted by validator address and leaves every other
    field of the manager as it was. *)
Theorem SetBackValidators_replaces_and_sorts (hh : list ptr) (h : HealthMgr) (σ : store) :
  (length hh < 2)%nat ∨ Forall (λ p, is_Some (address_of σ p)) hh →
  ∃ h', SetBackValidators hh h σ = Some h'
        ∧ Back h' ≡ₚ hh
        ∧ StronglySorted (addr_le σ) (Back h')
        ∧ (∀ p q, (p, q) ∈ zip (Back h') (drop 1 (Back h')) → Less σ q p ≠ Some true)
        ∧ Work h' = Work h ∧ healthTick h' = healthTick h
        ∧ Sum h' = Sum h ∧ Remove' h' = Remove' h.
Proof.
  intros H. unfold SetBackValidators. rewrite (sort_Sort_readable _ _ H). simpl.
  eexists. split; [done|]. simpl.
  split; [apply merge_sort_Permutation|].
  split; [apply StronglySorted_merge_sort; [apply addr_le_trans | apply addr_le_total]|].
  split; [|done].
  pose proof (@Sorted_merge_sort _ (addr_le σ) _ (addr_le_total σ) hh) as HS.
  induction HS as [|p l HS IH Hhd]; [by intros ?? ?%elem_of_nil|].
  intros a b Hab. destruct l as [|q l]; [by apply elem_of_nil in Hab|].
  simpl in Hab. apply elem_of_cons in Hab as [[= -> ->]|Hab].
  - inversion Hhd as [|?? Hle]; subst. unfold addr_le in Hle. unfold Less.
    destruct (address_of σ q), (address_of σ p); simpl in *; try done.
    intros [= Hc]. apply Z.eqb_eq in Hc. done.
  - by apply IH.
Qed.

Lemma SetBackValidators_replaces_and_sorts_witness :
  ∃ h', SetBackValidators [Some 4%nat; Some 3%nat] (OnStart NewHealthMgr)
          (ex_store 0 StateUsed StateUnused) = Some h'
        ∧ Back h' ≡ₚ [Some 4%nat; Some 3%nat]
        ∧ StronglySorted (addr_le (ex_store 0 StateUsed StateUnused)) (Back h')
        ∧ (∀ p q, (p, q) ∈ zip (Back h') (drop 1 (Back h')) →
             Less (ex_store 0 StateUsed StateUnused) q p ≠ Some true)
        ∧ Work h' = Work (OnStart NewHealthMgr)
        ∧ healthTick h' = healthTick (OnStart NewHealthMgr)
        ∧ Sum h' = Sum (OnStart NewHealthMgr)
        ∧ Remove' h' = Remove' (OnStart NewHealthMgr).
Proof.
  apply (SetBackValidators_replaces_and_sorts [Some 4%nat; Some 3%nat]
           (OnStart NewHealthMgr) (ex_store 0 StateUsed StateUnused)).
  right. repeat constructor; eexists; reflexivity.
Defined.

(** ** The picker, called again and again *)

Lemma is_Unused_mark σ (l l' : loc) :
  is_Unused (mark_Switching σ l) l' = is_Unused σ l' && negb (bool_decide (l' = l)).
Proof.
  unfold is_Unused, mark_Switching. destruct (σ !! l) as [r|] eqn:E.
  - destruct (decide (l' = l)) as [->|Hne].
    + rewrite lookup_insert_eq, E, bool_decide_true by done. simpl.
      by rewrite andb_false_r.
    + rewrite lookup_insert_ne, bool_decide_false by done.
      by rewrite andb_true_r.
  - destruct (decide (l' = l)) as [->|Hne].
    + by rewrite E.
    + rewrite bool_decide_false by done. by rewrite andb_true_r.
Qed.

Lemma valid_ptr_mark σ (l : loc) p : valid_ptr σ p → valid_ptr (mark_Switching σ l) p.
Proof.
  unfold valid_ptr, mark_Switching. intros [x Hx].
  destruct (σ !! l) as [r|] eqn:E; [|by eexists].
  destruct (deref_set_State_fwd σ l r StateSwitching p x E Hx) as (x' & Hx' & _).
  by eexists.
Qed.

Lemma not_Unused_mark σ (l : loc) p : not_Unused σ p → not_Unused (mark_Switching σ l) p.
Proof.
  unfold not_Unused, mark_Switching. intros (x & Hx & Hs).
  destruct (σ !! l) as [r|] eqn:E; [|by eexists].
  rewrite (deref_set_State _ _ _ _ _ E), Hx. simpl. eexists. split; [done|].
  case_decide; simpl; [done | done].
Qed.

Lemma not_Unused_marked σ (l : loc) :
  is_Unused σ l = true → not_Unused (mark_Switching σ l) (Some l).
Proof.
  unfold is_Unused, not_Unused, mark_Switching. destruct (σ !! l) as [r|] eqn:E; [|done].
  intros _. simpl. rewrite lookup_insert_eq. eexists. split; [done|]. done.
Qed.

Lemma pick_loop_skip (pre rest : list ptr) σ :
  Forall (not_Unused σ) pre → pick_loop (pre ++ rest) σ = pick_loop rest σ.
Proof.
  induction 1 as [|p pre (r & Hr & Hs) _ IH]; simpl; [done|].
  rewrite Hr. simpl. by destruct (Z.eqb_spec (State r) StateUnused).
Qed.

Lemma pick_loop_head_Unused (l : loc) rest σ :
  is_Unused σ l = true →
  pick_loop (Some l :: rest) σ = Some (Some l, mark_Switching σ l).
Proof.
  unfold is_Unused, mark_Switching. simpl. destruct (σ !! l) as [r|] eqn:E; [|done].
  simpl. intros ->. done.
Qed.

Lemma pick_times_exhausted n h σ :
  Forall (not_Unused σ) (Back h) →
  pick_times n h σ = Some (replicate n None, σ).
Proof.
  intros H. induction n as [|n IH]; simpl; [done|].
  unfold pickUnuseValidator. rewrite (pick_loop_none _ _ H). simpl.
  by rewrite IH.
Qed.

(** What [n] calls return: the first [n] records of [unused_seq], then nil. *)
Lemma pick_times_split (rest : list ptr) : ∀ (pre : list ptr) n h σ,
  Back h = pre ++ rest →
  Forall (valid_ptr σ) rest → Forall (not_Unused σ) pre →
  ∃ σ', pick_times n h σ
        = Some ((Some <$> take n (unused_seq σ rest))
                ++ replicate (n - length (unused_seq σ rest)) None, σ').
Proof.
  induction rest as [|p rest IH]; intros pre n h σ HB Hv Hpre.
  - rewrite app_nil_r in HB. exists σ. simpl. rewrite take_nil. simpl.
    rewrite Nat.sub_0_r. apply pick_times_exhausted. by rewrite HB.
  - apply Forall_cons in Hv as [[x Hx] Hv].
    destruct p as [l|]; [|done]. simpl in Hx. simpl.
    destruct (is_Unused σ l) eqn:EU.
    + destruct n as [|n]; [by exists σ|]. simpl.
      unfold pickUnuseValidator. rewrite HB, (pick_loop_skip _ _ _ Hpre).
      rewrite (pick_loop_head_Unused _ _ _ EU). simpl.
      destruct (IH (pre ++ [Some l]) n h (mark_Switching σ l)) as [σ' Hσ'].
      * by rewrite <- app_assoc.
      * eapply Forall_impl; [exact Hv|]. intros; by apply valid_ptr_mark.
      * apply Forall_app. split.
        -- eapply Forall_impl; [exact Hpre|]. intros; by apply not_Unused_mark.
        -- constructor; [|constructor]. by apply not_Unused_marked.
      * exists σ'. by rewrite Hσ'.
    + apply (IH (pre ++ [Some l]) n h σ); [by rewrite <- app_assoc | done |].
      apply Forall_app. split; [done|]. constructor; [|constructor].
      exists x. split; [done|]. unfold is_Unused in EU. rewrite Hx in EU.
      by apply Z.eqb_neq.
Qed.

Lemma elem_of_unused_seq (back : list ptr) : ∀ σ (l : loc),
  l ∈ unused_seq σ back ↔ Some l ∈ back ∧ is_Unused σ l = true.
Proof.
  induction back as [|[l0|] back IH]; intros σ l; simpl.
  - split; [by intros ?%elem_of_nil | by intros [?%elem_of_nil _]].
  - destruct (is_Unused σ l0) eqn:E0.
    + rewrite elem_of_cons, IH, is_Unused_mark, elem_of_cons.
      destruct (decide (l = l0)) as [->|Hne].
      * rewrite bool_decide_true by done. simpl. rewrite andb_false_r.
        intuition congruence.
      * rewrite bool_decide_false, andb_true_r by done. intuition congruence.
    + rewrite IH, elem_of_cons. split; [tauto|].
      intros [[[= ->]|?] ?]; [congruence | done].
  - rewrite IH, elem_of_cons. intuition congruence.
Qed.

Lemma NoDup_unused_seq (back : list ptr) : ∀ σ, NoDup (unused_seq σ back).
Proof.
  induction back as [|[l0|] back IH]; intros σ; simpl; [constructor | | done].
  destruct (is_Unused σ l0) eqn:E0; [|done].
  constructor; [|done]. rewrite elem_of_unused_seq, is_Unused_mark.
  rewrite bool_decide_true by done. rewrite andb_false_r. intuition congruence.
Qed.

Lemma sublist_unused_seq (back : list ptr) : ∀ σ,
  (Some <$> unused_seq σ back) `sublist_of` back.
Proof.
  induction back as [|[l0|] back IH]; intros σ; simpl; [done | |].
  - destruct (is_Unused σ l0); simpl.
    + by apply sublist_skip.
    + by apply sublist_cons.
  - by apply sublist_cons.
Qed.

Lemma StronglySorted_sublist {A} (R : relation A) (l k : list A) :
  l `sublist_of` k → StronglySorted R k → StronglySorted R l.
Proof.
  induction 1 as [|x l k Hs IH|x l k Hs IH]; intros HS; [done | |].
  - apply StronglySorted_inv in HS as [HS Hall]. constructor; [by apply IH|].
    apply Forall_forall. intros y Hy.
    apply (proj1 (Forall_forall _ _) Hall). by eapply elem_of_sublist.
  - apply StronglySorted_inv in HS as [HS _]. by apply IH.
Qed.

(** C6. On a pool sorted by validator address whose pointers are all valid:
    one call of [pickUnuseValidator] returns the first record that is
    [Unused], set to [Switching] in the store it leaves, and nil with the
    store untouched when no record is [Unused]; [n] calls in a row return the
    first [n] records of [unused_seq], then nil, where [unused_seq] holds
    exactly the [Unused] records of the pool, each once, in the order of the
    pool, which is ascending in the address. *)
Theorem pickUnuseValidator_ascending_each_once (h : HealthMgr) (σ : store) :
  Forall (valid_ptr σ) (Back h) →
  Sorted (addr_le σ) (Back h) →
  (∀ (pre post : list ptr) (la : loc) ra,
     Back h = pre ++ Some la :: post → Forall (not_Unused σ) pre →
     σ !! la = Some ra → State ra = StateUnused →
     pickUnuseValidator h σ = Some (Some la, <[la := with_State StateSwitching ra]> σ))
  ∧ (Forall (not_Unused σ) (Back h) → pickUnuseValidator h σ = Some (None, σ))
  ∧ (∀ n, ∃ σ', pick_times n h σ
        = Some ((Some <$> take n (unused_seq σ (Back h)))
                ++ replicate (n - length (unused_seq σ (Back h))) None, σ'))
  ∧ NoDup (unused_seq σ (Back h))
  ∧ (∀ l : loc, l ∈ unused_seq σ (Back h) ↔ Some l ∈ Back h ∧ is_Unused σ l = true)
  ∧ (Some <$> unused_seq σ (Back h)) `sublist_of` Back h
  ∧ StronglySorted (addr_le σ) (Some <$> unused_seq σ (Back h)).
Proof.
  intros Hv Hs. split_and!.
  - intros pre post la ra HB Hpre Hla Hst. unfold pickUnuseValidator.
    rewrite HB, (pick_loop_skip _ _ _ Hpre), pick_loop_head_Unused.
    + unfold mark_Switching. by rewrite Hla.
    + unfold is_Unused. rewrite Hla. by apply Z.eqb_eq.
  - intros H. by apply pick_loop_none.
  - intros n. by apply (pick_times_split (Back h) [] n h σ).
  - apply NoDup_unused_seq.
  - intros l. apply elem_of_unused_seq.
  - apply sublist_unused_seq.
  - eapply StronglySorted_sublist; [apply sublist_unused_seq|].
    apply Sorted_StronglySorted; [apply addr_le_trans | done].
Qed.

Lemma pickUnuseValidator_ascending_each_once_witness :
  let h := ex_mgr in
  let σ := ex_store 0 StateUsed StateUnused in
  (∀ (pre post : list ptr) (la : loc) ra,
     Back h = pre ++ Some la :: post → Forall (not_Unused σ) pre →
     σ !! la = Some ra → State ra = StateUnused →
     pickUnuseValidator h σ = Some (Some la, <[la := with_State StateSwitching ra]> σ))
  ∧ (Forall (not_Unused σ) (Back h) → pickUnuseValidator h σ = Some (None, σ))
  ∧ (∀ n, ∃ σ', pick_times n h σ
        = Some ((Some <$> take n (unused_seq σ (Back h)))
                ++ replicate (n - length (unused_seq σ (Back h))) None, σ'))
  ∧ NoDup (unused_seq σ (Back h))
  ∧ (∀ l : loc, l ∈ unused_seq σ (Back h) ↔ Some l ∈ Back h ∧ is_Unused σ l = true)
  ∧ (Some <$> unused_seq σ (Back h)) `sublist_of` Back h
  ∧ StronglySorted (addr_le σ) (Some <$> unused_seq σ (Back h)).
Proof.
  apply (pickUnuseValidator_ascending_each_once ex_mgr (ex_store 0 StateUsed StateUnused)).
  - repeat constructor; eexists; reflexivity.
  - repeat constructor. unfold addr_le. vm_compute. discriminate.
Defined.

(** On the running example: three calls return D, then E, then nil. *)
Example pick_times_example :
  fst <$> pick_times 3 ex_mgr (ex_store 0 StateUsed StateUnused)
  = Some [Some 3%nat; Some 4%nat; None].
Proof. vm_compute. reflexivity. Qed.

(** ** What the tick loop can do to a record *)

Lemma set_State_inv v s σ σ' :
  set_State v s σ = Some σ' →
  ∃ (l : loc) r, v = Some l ∧ σ !! l = Some r ∧ σ' = <[l := with_State s r]> σ.
Proof.
  unfold set_State. destruct v as [l|]; simpl; [|done].
  destruct (σ !! l) as [r|] eqn:E; simpl; [|done].
  intros [= <-]. by exists l, r.
Qed.

Lemma AddInt32_inv v d σ σ' :
  AddInt32 v d σ = Some σ' →
  ∃ (l : loc) r, v = Some l ∧ σ !! l = Some r
                 ∧ σ' = <[l := with_Tick (wrap32 (Tick r + d)) r]> σ.
Proof.
  unfold AddInt32. destruct v as [l|]; simpl; [|done].
  destruct (σ !! l) as [r|] eqn:E; simpl; [|done].
  intros [= <-]. by exists l, r.
Qed.

Lemma pick_loop_inv (back : list ptr) σ p σ' :
  pick_loop back σ = Some (p, σ') →
  (p = None ∧ σ' = σ)
  ∨ ∃ (l : loc) r, p = Some l ∧ p ∈ back ∧ σ !! l = Some r ∧ State r = StateUnused
                   ∧ σ' = <[l := with_State StateSwitching r]> σ.
Proof.
  induction back as [|v back IH]; simpl.
  - intros [= <- <-]. by left.
  - destruct (deref σ v) as [r|] eqn:E; simpl; [|done].
    destruct (Z.eqb_spec (State r) StateUnused) as [Hs|Hs].
    + destruct (set_State v StateSwitching σ) as [σ1|] eqn:E1; simpl; [|done].
      intros [= <- <-]. right.
      apply set_State_inv in E1 as (l & r' & -> & Hl & ->).
      simpl in E. rewrite Hl in E. injection E as ->.
      exists l, r. split_and!; try done. apply elem_of_cons; by left.
    + intros H. destruct (IH H) as [?|(l & r' & ? & ? & ? & ? & ?)]; [by left|].
      right. exists l, r'. split_and!; try done. apply elem_of_cons; by right.
Qed.

Lemma cools_refl σ : cools σ σ.
Proof. intros l. by left. Qed.

Lemma cools_trans σ1 σ2 σ3 : cools σ1 σ2 → cools σ2 σ3 → cools σ1 σ3.
Proof.
  intros H12 H23 l. destruct (H12 l) as [E12|(r & r' & E1 & E2 & Hs & Hs')].
  - rewrite <- E12. apply H23.
  - destruct (H23 l) as [E23|(q & q' & F2 & F3 & Hq & Hq')].
    + rewrite E23. right. by exists r, r'.
    + right. exists r, q'. rewrite E2 in F2. injection F2 as <-.
      split_and!; try done.
      destruct Hs' as [Hs'|Hs'], Hq' as [Hq'|Hq'], Hq as [Hq|Hq];
        unfold StateUsed, StateUnused, StateSwitching in *; first [left; lia | right; lia].
Qed.

Lemma cools_insert σ (l : loc) r r' :
  σ !! l = Some r →
  State r = StateUsed ∨ State r = StateUnused →
  State r' = State r ∨ State r' = StateSwitching →
  cools σ (<[l := r']> σ).
Proof.
  intros Hl Hs Hs' l'. destruct (decide (l' = l)) as [->|Hne].
  - right. exists r, r'. by rewrite lookup_insert_eq.
  - left. by rewrite lookup_insert_ne.
Qed.

Lemma cools_Switching_kept σ σ' (l : loc) r :
  cools σ σ' → σ !! l = Some r → State r = StateSwitching → σ' !! l = Some r.
Proof.
  intros Hc Hl Hs. destruct (Hc l) as [E|(q & q' & E1 & _ & Hq & _)]; [congruence|].
  rewrite Hl in E1. injection E1 as <-.
  unfold StateUsed, StateUnused, StateSwitching in *. lia.
Qed.

Lemma cools_back σ σ' (l : loc) r' :
  cools σ σ' → σ' !! l = Some r' →
  ∃ r, σ !! l = Some r ∧ (State r' = State r ∨ State r' = StateSwitching).
Proof.
  intros Hc Hl. destruct (Hc l) as [E|(q & q' & E1 & E2 & _ & Hq')].
  - exists r'. split; [congruence | by left].
  - exists q. rewrite Hl in E2. injection E2 as <-. done.
Qed.

Lemma cools_not_Used σ σ' l : cools σ σ' → not_Used σ l → not_Used σ' l.
Proof.
  intros Hc Hn r' Hr'. destruct (cools_back _ _ _ _ Hc Hr') as (r & Hr & [E|E]).
  - rewrite E. by apply Hn.
  - rewrite E. done.
Qed.

Lemma pick_loop_cools (back : list ptr) σ p σ' :
  pick_loop back σ = Some (p, σ') → cools σ σ'.
Proof.
  intros H. destruct (pick_loop_inv _ _ _ _ H) as [[_ ->]|(l & r & _ & _ & Hl & Hs & ->)].
  - apply cools_refl.
  - apply (cools_insert σ l r); [done | by right | by right].
Qed.

(** [checkSwitchValidator] either does nothing, or it has read a tick above
    [HealthOut] on a [Used] record, which it leaves [Switching], and has
    handed one request for it to [Switch]. *)
Lemma checkSwitchValidator_inv h v σ out σ' :
  checkSwitchValidator h v σ = Some (out, σ') →
  (out = [] ∧ σ' = σ)
  ∨ ∃ (l : loc) r back σ1,
      v = Some l ∧ σ !! l = Some r ∧ Tick r > HealthOut ∧ State r = StateUsed
      ∧ pickUnuseValidator h σ = Some (back, σ1)
      ∧ out = [{| Remove := Some l; Add := back; Resion := "Switch"; from := 0 |}]
      ∧ σ' = <[l := with_State StateSwitching r]> σ1
      ∧ cools σ σ'.
Proof.
  unfold checkSwitchValidator, LoadInt32. destruct v as [l|]; simpl; [|done].
  destruct (σ !! l) as [r|] eqn:E; simpl; [|done].
  destruct (Z.gtb_spec (Tick r) HealthOut) as [Ht|Ht]; simpl;
    [|intros [= <- <-]; by left].
  destruct (Z.eqb_spec (State r) StateUsed) as [Hs|Hs]; simpl;
    [|intros [= <- <-]; by left].
  destruct (pickUnuseValidator h σ) as [[back σ1]|] eqn:EP; simpl; [|done].
  destruct (σ1 !! l) as [r'|] eqn:Hl'; simpl; [|done].
  intros [= <- <-]. right.
  pose proof (pick_loop_cools _ _ _ _ EP) as Hc.
  assert (r' = r) as ->.
  { destruct (pick_loop_inv _ _ _ _ EP) as [[_ ->]|(l0 & r0 & _ & _ & Hl0 & Hs0 & ->)].
    - congruence.
    - destruct (decide (l = l0)) as [->|Hne].
      + rewrite E in Hl0. injection Hl0 as <-.
        unfold StateUsed, StateUnused in *. lia.
      + rewrite lookup_insert_ne in Hl' by done. congruence. }
  exists l, r, back, σ1. split_and!; try done; [lia|].
  eapply cools_trans; [exact Hc|].
  apply (cools_insert σ1 l r); [done | by left | by right].
Qed.

Lemma work_body_inv h v σ out σ' :
  work_body h v σ = Some (out, σ') →
  cools σ σ'
  ∧ (out = []
     ∨ ∃ (l : loc) r r' back,
         v = Some l ∧ σ !! l = Some r ∧ State r = StateUsed
         ∧ σ' !! l = Some r' ∧ Tick r' > HealthOut ∧ State r' = StateSwitching
         ∧ out = [{| Remove := Some l; Add := back; Resion := "Switch"; from := 0 |}]).
Proof.
  unfold work_body. destruct (deref σ v) as [r|] eqn:E; simpl; [|done].
  destruct (Z.eqb_spec (State r) StateUsed) as [Hs|Hs].
  - destruct (AddInt32 v 1 σ) as [σ1|] eqn:EA; simpl; [|done].
    apply AddInt32_inv in EA as (l & r0 & -> & Hl & ->).
    simpl in E. rewrite Hl in E. injection E as ->.
    assert (cools σ (<[l := with_Tick (wrap32 (Tick r + 1)) r]> σ)) as Hc1.
    { apply (cools_insert σ l r); [done | by left | by left]. }
    intros H. apply checkSwitchValidator_inv in H
      as [[-> ->]|(l' & r1 & back & σ1 & [= <-] & Hl1 & Ht & Hs1 & _ & -> & -> & Hc2)].
    + split; [done | by left].
    + split; [by eapply cools_trans|]. right.
      exists l, r, (with_State StateSwitching r1), back.
      rewrite lookup_insert_eq. split_and!; done.
  - intros H. apply checkSwitchValidator_inv in H
      as [[-> ->]|(l' & r1 & back & σ1 & -> & Hl1 & Ht & Hs1 & _ & -> & -> & Hc2)].
    + split; [apply cools_refl | by left].
    + simpl in E. congruence.
Qed.

Lemma requests_for_app l out1 out2 :
  requests_for l (out1 ++ out2) = (requests_for l out1 + requests_for l out2)%nat.
Proof. unfold requests_for. by rewrite List.filter_app, length_app. Qed.

Lemma work_loop_inv h (vs : list ptr) : ∀ σ out σ',
  work_loop h vs σ = Some (out, σ') →
  cools σ σ'
  ∧ ∀ sv, sv ∈ out →
      ∃ (l : loc) r r',
        Some l ∈ vs ∧ Remove sv = Some l ∧ Resion sv = "Switch" ∧ from sv = 0
        ∧ σ !! l = Some r ∧ State r = StateUsed
        ∧ σ' !! l = Some r' ∧ Tick r' > HealthOut ∧ State r' = StateSwitching.
Proof.
  induction vs as [|v vs IH]; intros σ out σ'; simpl.
  - intros [= <- <-]. split; [apply cools_refl|]. by intros sv ?%elem_of_nil.
  - destruct (work_body h v σ) as [[out1 σ1]|] eqn:E1; simpl; [|done].
    destruct (work_loop h vs σ1) as [[out2 σ2]|] eqn:E2; simpl; [|done].
    intros [= <- <-].
    destruct (work_body_inv _ _ _ _ _ E1) as [Hc1 Hout1].
    destruct (IH _ _ _ E2) as [Hc2 Hout2].
    split; [by eapply cools_trans|].
    intros sv [Hsv|Hsv]%elem_of_app.
    + destruct Hout1 as [->|(l & r & r' & back & -> & Hl & Hs & Hl' & Ht & Hs' & ->)];
        [by apply elem_of_nil in Hsv|].
      apply list_elem_of_singleton in Hsv as ->.
      exists l, r, r'. split_and!; try done; [apply elem_of_cons; by left|].
      by apply (cools_Switching_kept σ1 σ2).
    + destruct (Hout2 sv Hsv) as (l & r1 & r' & Hin & ? & ? & ? & Hl1 & Hs1 & ? & ? & ?).
      destruct (cools_back _ _ _ _ Hc1 Hl1) as (r & Hr & Hst).
      exists l, r, r'. split_and!; try done; [apply elem_of_cons; by right|].
      destruct Hst as [Hst|Hst]; [congruence|].
      unfold StateUsed, StateSwitching in *. lia.
Qed.

(** In one pass of the tick loop a record is named by at most one request;
    by none when it is not [Used] at the start; and it is not [Used] at the
    end when it was named. *)
Lemma work_loop_requests h (l : loc) (vs : list ptr) : ∀ σ out σ',
  work_loop h vs σ = Some (out, σ') →
  (requests_for l out ≤ 1)%nat
  ∧ (not_Used σ l → requests_for l out = 0%nat)
  ∧ (requests_for l out = 1%nat → not_Used σ' l).
Proof.
  induction vs as [|v vs IH]; intros σ out σ'; simpl.
  - intros [= <- <-]. unfold requests_for. simpl. split_and!; [lia | done | lia].
  - destruct (work_body h v σ) as [[out1 σ1]|] eqn:E1; simpl; [|done].
    destruct (work_loop h vs σ1) as [[out2 σ2]|] eqn:E2; simpl; [|done].
    intros [= <- <-].
    destruct (work_body_inv _ _ _ _ _ E1) as [Hc1 Hout1].
    destruct (work_loop_inv _ _ _ _ _ E2) as [Hc2 _].
    destruct (IH _ _ _ E2) as (Hle & Hzero & Hone).
    rewrite requests_for_app.
    destruct Hout1 as [->|(l0 & r & r' & back & -> & Hl & Hs & Hl' & Ht & Hs' & ->)].
    + change (requests_for l []) with 0%nat. simpl.
      split_and!; [done | | done].
      intros Hn. apply Hzero. by eapply cools_not_Used.
    + destruct (decide (l0 = l)) as [->|Hne].
      * assert (not_Used σ1 l) as Hn1.
        { intros q Hq. rewrite Hl' in Hq. injection Hq as <-. by rewrite Hs'. }
        rewrite (Hzero Hn1).
        unfold requests_for at 1 2 3. simpl. rewrite bool_decide_true by done. simpl.
        split_and!; [lia | | intros _; by eapply cools_not_Used].
        intros Hn. by destruct (Hn r Hl).
      * unfold requests_for at 1 3 5. simpl.
        rewrite bool_decide_false by congruence. simpl.
        split_and!; [done | | done].
        intros Hn. apply Hzero. by eapply cools_not_Used.
Qed.

(** ** Executions of the manager *)

Lemma emitted_app l tr1 tr2 : emitted l (tr1 ++ tr2) = (emitted l tr1 + emitted l tr2)%nat.
Proof. unfold emitted. by rewrite List.filter_app, length_app. Qed.

Lemma emitted_Emitted l out : emitted l (Emitted <$> out) = requests_for l out.
Proof.
  unfold emitted, requests_for. induction out as [|sv out IH]; simpl; [done|].
  destruct (bool_decide (Remove sv = Some l)); simpl; [f_equal|]; exact IH.
Qed.

Lemma pending_from_le l tr : ∀ n, (pending_from l n tr ≤ n + emitted l tr)%nat.
Proof.
  induction tr as [|e tr IH]; intros n; simpl; [unfold emitted; simpl; lia|].
  change (e :: tr) with ([e] ++ tr). rewrite emitted_app.
  unfold emitted at 1. simpl.
  destruct (is_request l e); simpl.
  - specialize (IH (S n)). lia.
  - destruct (is_answer l e); [specialize (IH (Nat.pred n)) | specialize (IH n)]; lia.
Qed.

Lemma promote_loop_inv (back : list ptr) add σ σ' :
  promote_loop back add σ = Some σ' →
  σ' = σ ∨ ∃ (l : loc) r, Some l ∈ back ∧ σ !! l = Some r
                          ∧ σ' = <[l := with_State StateUsed r]> σ.
Proof.
  induction back as [|v back IH]; simpl; [intros [= <-]; by left|].
  destruct (deref σ v) as [r|] eqn:E; simpl; [|done].
  destruct (deref σ add) as [a|] eqn:Ea; simpl; [|done].
  destruct (String.eqb (ID r) (ID a)).
  - intros (l & r' & -> & Hl & ->)%set_State_inv. right.
    exists l, r'. split_and!; try done. apply elem_of_cons; by left.
  - intros H. destruct (IH H) as [?|(l & r' & ? & ? & ?)]; [by left|].
    right. exists l, r'. split_and!; try done. apply elem_of_cons; by right.
Qed.

Lemma not_Used_insert_other σ (l l0 : loc) r :
  l ≠ l0 → not_Used σ l → not_Used (<[l0 := r]> σ) l.
Proof. intros Hne Hn q. rewrite lookup_insert_ne by done. apply Hn. Qed.

Lemma not_Used_insert_state σ (l l0 : loc) r :
  State r ≠ StateUsed → not_Used σ l → not_Used (<[l0 := r]> σ) l.
Proof.
  intros Hs Hn q. destruct (decide (l = l0)) as [->|Hne].
  - rewrite lookup_insert_eq. by intros [= <-].
  - rewrite lookup_insert_ne by done. apply Hn.
Qed.

(** An outcome can bring a record to [Used] only through the pool. *)
Lemma switchResult_not_Used h res σ σ' (l : loc) :
  switchResult h res σ = Some σ' → Some l ∉ Back h →
  not_Used σ l → not_Used σ' l.
Proof.
  unfold switchResult. intros H Hb Hn.
  destruct (from res =? 1); [|by injection H as <-].
  destruct (String.eqb (Resion res) EmptyString); simpl in H.
  - destruct (deref σ (Remove res)) as [rm|]; simpl in H; [|done].
    assert (∀ σa, not_Used σa l →
      (promote_loop (Back h) (Add res) σa ≫= λ σ1,
         _ ← String_returns σ1 (Remove res);
         _ ← String_returns σ1 (Add res); Some σ1) = Some σ' →
      not_Used σ' l) as Hrest.
    { intros σa Hna Hp.
      destruct (promote_loop (Back h) (Add res) σa) as [σ1|] eqn:EP; simpl in Hp; [|done].
      destruct (String_returns σ1 (Remove res)); simpl in Hp; [|done].
      destruct (String_returns σ1 (Add res)); simpl in Hp; [|done].
      injection Hp as <-.
      destruct (promote_loop_inv _ _ _ _ EP) as [->|(la & ra & Hin & _ & ->)]; [done|].
      apply not_Used_insert_other; [|done]. intros ->. done. }
    destruct (Work h !! ID rm) as [v|]; simpl in H; [|by apply (Hrest σ)].
    destruct (set_State v StateRemoved σ) as [σa|] eqn:ES; simpl in H; [|done].
    apply set_State_inv in ES as (l0 & r0 & -> & Hl0 & ->).
    apply (Hrest (<[l0 := with_State StateRemoved r0]> σ)); [|done].
    by apply not_Used_insert_state.
  - destruct (String_returns σ (Remove res)); simpl in H; [|done].
    destruct (String_returns σ (Add res)); simpl in H; [|done].
    by injection H as <-.
Qed.

Lemma Update_not_Used h id σ σ' (l : loc) :
  Update h id σ = Some σ' → not_Used σ l → not_Used σ' l.
Proof.
  unfold Update. destruct (Work h !! id) as [v|]; [|by intros [= <-]].
  destruct (LoadInt32 v σ) as [val|]; simpl; [|done].
  intros (l0 & r0 & -> & Hl0 & ->)%AddInt32_inv Hn q.
  destruct (decide (l = l0)) as [->|Hne].
  - rewrite lookup_insert_eq. intros [= <-]. simpl. by apply Hn.
  - rewrite lookup_insert_ne by done. apply Hn.
Qed.

Lemma requests_for_pos l out :
  requests_for l out ≠ 0%nat → ∃ sv, sv ∈ out ∧ Remove sv = Some l.
Proof.
  unfold requests_for. induction out as [|sv out IH]; simpl; [done|].
  destruct (bool_decide (Remove sv = Some l)) eqn:E.
  - intros _. exists sv. split; [apply elem_of_cons; by left|].
    by apply bool_decide_eq_true in E.
  - intros H. destruct (IH H) as (sv' & Hin & Hr). exists sv'.
    split; [apply elem_of_cons; by right | done].
Qed.

(** Along an execution, a record has never been named by a request, or by
    exactly one, and then it is not [Used] and it is not in the pool. *)
Lemma run_single_request h σ0 tr σ :
  disjoint_objects h → run h σ0 tr σ →
  ∀ l : loc, emitted l tr = 0%nat
             ∨ (emitted l tr = 1%nat ∧ not_Used σ l ∧ Some l ∉ Back h).
Proof.
  intros Hd Hrun. induction Hrun as [σ|σ1 tr σ2 evs σ3 Hrun IH Hstep]; intros l.
  - by left.
  - rewrite emitted_app.
    destruct Hstep as [vs σ out σ' Hvs Hw|res σ σ' Hres|id σ σ' Hup].
    + rewrite emitted_Emitted.
      destruct (work_loop_requests h l _ _ _ _ Hw) as (Hle & Hzero & Hone).
      destruct (work_loop_inv _ _ _ _ _ Hw) as [Hc Hout].
      destruct (IH l) as [E0|(E1 & Hn & Hb)].
      * rewrite E0. simpl.
        destruct (decide (requests_for l out = 0%nat)) as [?|Hpos]; [by left|].
        right. split_and!; [lia | apply Hone; lia |].
        destruct (requests_for_pos _ _ Hpos) as (sv & Hin & Hr).
        destruct (Hout sv Hin) as (l' & ? & ? & Hl' & Hr' & _).
        rewrite Hr in Hr'. injection Hr' as <-.
        apply Hd. by rewrite <- Hvs.
      * right. rewrite E1, (Hzero Hn). split_and!; [done | | done].
        by eapply cools_not_Used.
    + change (emitted l [Answered res]) with 0%nat. rewrite Nat.add_0_r.
      destruct (IH l) as [E0|(E1 & Hn & Hb)]; [by left|].
      right. split_and!; try done. by eapply switchResult_not_Used.
    + change (emitted l []) with 0%nat. rewrite Nat.add_0_r.
      destruct (IH l) as [E0|(E1 & Hn & Hb)]; [by left|].
      right. split_and!; try done. by eapply Update_not_Used.
Qed.

(** C5. In every execution of ticks, outcomes and liveness signals, from a
    manager in which no [Health] object is both active and in the pool: a
    step hands a request to [Switch] only for a record that was [Used] before
    the step and whose tick, when the step is over, is above 600, the record
    being [Switching] then; and at any time a record has been named as
    [Remove] by at most one request, so that at most one is pending. *)
Theorem threshold_and_single_pending_request (h : HealthMgr) (σ0 σ : store)
    (tr : list event) :
  disjoint_objects h →
  run h σ0 tr σ →
  (∀ evs σ' sv, step h σ evs σ' → Emitted sv ∈ evs →
     ∃ (l : loc) r r',
       Remove sv = Some l ∧ Some l ∈ (map_to_list (Work h)).*2
       ∧ σ !! l = Some r ∧ State r = StateUsed
       ∧ σ' !! l = Some r' ∧ 600 < Tick r' ∧ State r' = StateSwitching)
  ∧ (∀ l : loc, (emitted l tr ≤ 1)%nat ∧ (pending l tr ≤ 1)%nat).
Proof.
  intros Hd Hrun. split.
  - intros evs σ' sv Hstep Hin.
    destruct Hstep as [vs σ1 out σ1' Hvs Hw|res σ1 σ1' Hres|id σ1 σ1' Hup].
    + apply list_elem_of_fmap in Hin as (sv' & [= <-] & Hin).
      destruct (work_loop_inv _ _ _ _ _ Hw) as [_ Hout].
      destruct (Hout sv Hin) as (l & r & r' & Hl & Hr & _ & _ & ? & ? & ? & Ht & ?).
      exists l, r, r'. split_and!; try done; [by rewrite <- Hvs|].
      unfold HealthOut in Ht. lia.
    + apply list_elem_of_singleton in Hin. discriminate.
    + by apply elem_of_nil in Hin.
  - intros l. pose proof (pending_from_le l tr 0) as Hp. fold (pending l tr) in Hp.
    destruct (run_single_request h σ0 tr σ Hd Hrun l) as [E|(E & _)]; lia.
Qed.

Lemma ex_disjoint : disjoint_objects ex_mgr.
Proof.
  intros p Hp. vm_compute in Hp. intros Hb. vm_compute in Hb.
  repeat (apply elem_of_cons in Hp as [->|Hp]);
    try (by apply elem_of_nil in Hp);
    repeat (apply elem_of_cons in Hb as [Hb|Hb]; [discriminate|]);
    by apply elem_of_nil in Hb.
Qed.

Lemma ex_run :
  run ex_mgr (ex_store_at 0 600 StateUsed StateUnused) ex_trace
    (ex_store_at 2 601 StateRemoved StateUsed).
Proof.
  change ex_trace with
    ((([] ++ (Emitted <$> [ex_request "Switch" 0]))
      ++ [Answered (ex_request EmptyString 1)]) ++ (Emitted <$> [])).
  apply (run_step _ _ _ (ex_store_at 1 601 StateRemoved StateUsed));
    [apply (run_step _ _ _ (ex_store_at 1 601 StateSwitching StateSwitching));
       [apply (run_step _ _ _ (ex_store_at 0 600 StateUsed StateUnused)); [apply run_nil|] |] |].
  - apply (step_tick ex_mgr (map_to_list (Work ex_mgr)).*2);
      [unfold visit_order; reflexivity|].
    vm_compute. reflexivity.
  - apply step_result. vm_compute. reflexivity.
  - apply (step_tick ex_mgr (map_to_list (Work ex_mgr)).*2);
      [unfold visit_order; reflexivity|].
    vm_compute. reflexivity.
Qed.

Lemma threshold_and_single_pending_request_witness :
  (∀ evs σ' sv, step ex_mgr (ex_store_at 2 601 StateRemoved StateUsed) evs σ' →
     Emitted sv ∈ evs →
     ∃ (l : loc) r r',
       Remove sv = Some l ∧ Some l ∈ (map_to_list (Work ex_mgr)).*2
       ∧ ex_store_at 2 601 StateRemoved StateUsed !! l = Some r ∧ State r = StateUsed
       ∧ σ' !! l = Some r' ∧ 600 < Tick r' ∧ State r' = StateSwitching)
  ∧ (∀ l : loc, (emitted l ex_trace ≤ 1)%nat ∧ (pending l ex_trace ≤ 1)%nat).
Proof.
  apply (threshold_and_single_pending_request ex_mgr
           (ex_store_at 0 600 StateUsed StateUnused)
           (ex_store_at 2 601 StateRemoved StateUsed)
           ex_trace ex_disjoint ex_run).
Defined.

Example ex_trace_pending :
  pending 2%nat [Emitted (ex_request "Switch" 0)] = 1%nat
  ∧ pending 2%nat ex_trace = 0%nat ∧ emitted 2%nat ex_trace = 1%nat.
Proof. repeat split. Qed.

(** ** [SignBytes] *)

Lemma pack_inj o1 o2 :
  (∀ l, o1 = Some l → length l = 32%nat) →
  (∀ l, o2 = Some l → length l = 32%nat) →
  pack o1 = pack o2 → o1 = o2.
Proof.
  intros H1 H2. destruct o1 as [l1|], o2 as [l2|]; simpl; try done.
  - destruct (decide (length l1 = 32%nat)) as [E1|N1]; [|by destruct N1; apply H1].
    destruct (decide (length l2 = 32%nat)) as [E2|N2]; [|by destruct N2; apply H2].
    intros [= ->]. done.
  - destruct (decide (length l1 = 32%nat)) as [E1|N1]; [done|by destruct N1; apply H1].
  - destruct (decide (length l2 = 32%nat)) as [E2|N2]; [done|by destruct N2; apply H2].
Qed.

Lemma two64_N : N.of_nat two64 = (2 ^ 64)%N.
Proof.
  unfold two64. rewrite Nat2N.inj_pow. reflexivity.
Qed.

Lemma counter_lt (i : fin two64) : (N.of_nat (fin_to_nat i) < 2 ^ 64)%N.
Proof.
  rewrite <- two64_N. unfold N.lt. rewrite <- Nat2N.inj_compare.
  apply Nat.compare_lt_iff, fin_to_nat_lt.
Qed.

Lemma heartbeat_of_well_formed k : well_formed (heartbeat_of k).
Proof.
  destruct k as [[[[h r] s] i] b]. unfold well_formed, heartbeat_of.
  cbn [ValidatorAddress Height Round Sequence ValidatorIndex].
  split_and!; [by destruct b | apply counter_lt..].
Qed.

Lemma heartbeat_of_canonical_inj c k1 k2 :
  canonical c (heartbeat_of k1) = canonical c (heartbeat_of k2) → k1 = k2.
Proof.
  destruct k1 as [[[[h1 r1] s1] i1] b1], k2 as [[[[h2 r2] s2] i2] b2].
  unfold canonical, heartbeat_of.
  cbn [ValidatorAddress Height Round Sequence ValidatorIndex].
  intros H.
  pose proof (f_equal Canonical.Height H) as Hh.
  pose proof (f_equal Canonical.Round H) as Hr.
  pose proof (f_equal Canonical.Sequence H) as Hs.
  pose proof (f_equal Canonical.ValidatorIndex H) as Hi.
  pose proof (f_equal Canonical.ValidatorAddress H) as Hb.
  cbn [Canonical.Height Canonical.Round Canonical.Sequence
       Canonical.ValidatorIndex Canonical.ValidatorAddress] in *.
  apply Nat2N.inj, (inj fin_to_nat) in Hh, Hr, Hs, Hi. subst.
  by destruct b1, b2.
Qed.

Lemma byte_card : card byte = (2 ^ 8)%nat.
Proof. vm_compute. reflexivity. Qed.

Lemma two_pow_256 : (two64 * two64 * two64 * two64 = (2 ^ 8) ^ 32)%nat.
Proof.
  unfold two64. rewrite <- !Nat.pow_add_r, <- Nat.pow_mul_r.
  f_equal.
Qed.

Lemma counters_card : (card (option digest) < card counters)%nat.
Proof.
  unfold counters, digest.
  rewrite option_cardinality, list_card, byte_card, !prod_card, !fin_card, bool_card.
  rewrite two_pow_256.
  assert (1 < (2 ^ 8) ^ 32)%nat as H.
  { apply Nat.pow_gt_1; [|discriminate].
    apply Nat.pow_gt_1; [|discriminate]. apply Nat.lt_succ_diag_r. }
  revert H. generalize ((2 ^ 8) ^ 32)%nat. intros X HX. lia.
Qed.

(** Whatever the codec and whatever the 32-byte hash. *)
Section SignBytes_any_codec.
Variable MarshalJSON : Canonical.JSONHeartbeat → option bytes.
Variable RlpHash : list bytes → bytes.
Hypothesis RlpHash_length : ∀ x, length (RlpHash x) = 32%nat.

Lemma SignBytes_with_canonical hb1 hb2 c1 c2 :
  canonical c1 hb1 = canonical c2 hb2 →
  SignBytes_with MarshalJSON RlpHash (Some hb1) c1
  = SignBytes_with MarshalJSON RlpHash (Some hb2) c2.
Proof. intros H. unfold SignBytes_with. simpl. by rewrite H. Qed.

Lemma SignBytes_with_length hb c out :
  SignBytes_with MarshalJSON RlpHash hb c = Some out → length out = 32%nat.
Proof.
  unfold SignBytes_with. destruct hb as [hb|]; simpl; [|done].
  destruct (MarshalJSON _); simpl; [|done]. intros [= <-]. apply RlpHash_length.
Qed.

(** The limit of what a digest can tell.  The digests are 32 bytes and
    the well-formed heartbeats of one chain are more than 2 ^ 256: some two
    of them with different canonical fields have the same digest, whatever
    the codec and the hash are.  The proof counts; it exhibits no such
    pair. *)
Lemma SignBytes_with_collision (c : string) :
  ∃ hb1 hb2, well_formed hb1 ∧ well_formed hb2
    ∧ canonical c hb1 ≠ canonical c hb2
    ∧ SignBytes_with MarshalJSON RlpHash (Some hb1) c
      = SignBytes_with MarshalJSON RlpHash (Some hb2) c.
Proof.
  destruct (finite_pigeonhole
    (λ k : counters,
       pack (SignBytes_with MarshalJSON RlpHash (Some (heartbeat_of k)) c))
    counters_card) as (k1 & k2 & Hne & Heq).
  exists (heartbeat_of k1), (heartbeat_of k2).
  split_and!; [apply heartbeat_of_well_formed.. | |].
  - intros H. by apply Hne, (heartbeat_of_canonical_inj c).
  - apply pack_inj in Heq; [done | |]; intros l Hl; by eapply SignBytes_with_length.
Qed.
End SignBytes_any_codec.

(** A digest has 32 bytes. *)
Lemma iota_length rc s : length (iota rc s) = length s.
Proof. by destruct s. Qed.

Lemma keccak_round_length s rc : length (keccak_round s rc) = 25%nat.
Proof. unfold keccak_round, chi. by rewrite iota_length, length_fmap. Qed.

Lemma keccak_f_length s : length s = 25%nat → length (keccak_f s) = 25%nat.
Proof.
  unfold keccak_f. generalize round_constants. intros rcs. revert s.
  induction rcs as [|rc rcs IH]; intros s Hs; simpl; [done|].
  apply IH, keccak_round_length.
Qed.

Lemma lanes_of_bytes_length n : ∀ bs, length (lanes_of_bytes n bs) = n.
Proof. induction n as [|n IH]; intros bs; simpl; [done | by rewrite IH]. Qed.

Lemma xor_block_length s block : length s = 25%nat → length (xor_block s block) = 25%nat.
Proof.
  intros Hs. unfold xor_block.
  rewrite length_zip_with, length_app, lanes_of_bytes_length, length_replicate, Hs.
  reflexivity.
Qed.

Lemma absorb_length n : ∀ s m, length s = 25%nat → length (absorb n s m) = 25%nat.
Proof.
  induction n as [|n IH]; intros s m Hs; simpl; [done|].
  by apply IH, keccak_f_length, xor_block_length.
Qed.

Lemma squeeze_length (lanes : list Z) :
  length (mjoin (bytes_of_lane <$> lanes)) = (8 * length lanes)%nat.
Proof.
  induction lanes as [|z lanes IH]; [done|].
  change (length (bytes_of_lane z ++ mjoin (bytes_of_lane <$> lanes))
          = (8 * S (length lanes))%nat).
  rewrite length_app, IH. unfold bytes_of_lane. rewrite length_fmap, length_seq. lia.
Qed.

Lemma Keccak256_length m : length (Keccak256 m) = 32%nat.
Proof.
  unfold Keccak256, sponge256. rewrite squeeze_length, length_take, absorb_length.
  - reflexivity.
  - apply length_replicate.
Qed.

Lemma help_RlpHash_length x : length (help_RlpHash x) = 32%nat.
Proof. apply Keccak256_length. Qed.

(** *** The signing form is injective

    Strings end at the first quote that is not escaped and numbers at the
    first byte that is not a digit, so the JSON text determines every
    field; the RLP header determines the length of its payload. *)

Lemma byte_to_Z_inj b1 b2 : byte_to_Z b1 = byte_to_Z b2 → b1 = b2.
Proof.
  unfold byte_to_Z. intros H. apply N2Z.inj in H.
  pose proof (Byte.of_to_N b1) as H1. rewrite H, Byte.of_to_N in H1. by injection H1.
Qed.

Lemma byte_to_Z_range b : 0 <= byte_to_Z b < 256.
Proof.
  unfold byte_to_Z. pose proof (Byte.to_N_bounded b). lia.
Qed.

Lemma bytes_of_string_inj s1 s2 : bytes_of_string s1 = bytes_of_string s2 → s1 = s2.
Proof.
  unfold bytes_of_string. intros H.
  assert (String.list_ascii_of_string s1 = String.list_ascii_of_string s2) as Hl.
  { revert H. generalize (String.list_ascii_of_string s1) (String.list_ascii_of_string s2).
    intros l1. induction l1 as [|a l1 IH]; intros [|b l2]; simpl; try done.
    intros [= Hab Hl]. f_equal; [|by apply IH].
    rewrite <- (Ascii.ascii_of_byte_of_ascii a), <- (Ascii.ascii_of_byte_of_ascii b).
    by rewrite Hab. }
  rewrite <- (String.string_of_list_ascii_of_string s1),
    <- (String.string_of_list_ascii_of_string s2). by rewrite Hl.
Qed.

Lemma hex_digit_inj z1 z2 :
  0 <= z1 < 16 → 0 <= z2 < 16 → hex_digit z1 = hex_digit z2 → z1 = z2.
Proof.
  intros H1 H2. unfold hex_digit.
  assert (∀ z, 0 <= z < 16 →
            ∃ x, bytes_of_string "0123456789ABCDEF" !! Z.to_nat z = Some x) as Hl.
  { intros z Hz. apply lookup_lt_is_Some_2. simpl. lia. }
  destruct (Hl z1 H1) as [x1 E1], (Hl z2 H2) as [x2 E2]. rewrite E1, E2. simpl.
  intros <-.
  assert (NoDup (bytes_of_string "0123456789ABCDEF")) as Hnd.
  { apply NoDup_ListNoDup. vm_compute.
    repeat (constructor; [intros H; repeat (destruct H as [H|H]; [discriminate H|]); exact H|]).
    constructor. }
  pose proof (NoDup_lookup _ _ _ _ Hnd E1 E2). lia.
Qed.

Lemma hex_pair_inj a b :
  hex_digit (byte_to_Z a / 16) = hex_digit (byte_to_Z b / 16) →
  hex_digit (byte_to_Z a mod 16) = hex_digit (byte_to_Z b mod 16) →
  a = b.
Proof.
  intros Hh Hl. apply byte_to_Z_inj.
  pose proof (byte_to_Z_range a). pose proof (byte_to_Z_range b).
  apply hex_digit_inj in Hh; [|Z.div_mod_to_equations; lia..].
  apply hex_digit_inj in Hl; [|Z.div_mod_to_equations; lia..].
  Z.div_mod_to_equations; lia.
Qed.

Lemma hex_upper_inj a b : hex_upper a = hex_upper b → a = b.
Proof.
  unfold hex_upper. revert b. induction a as [|x a IH]; intros [|y b]; simpl; try done.
  intros [= Hh Hl Hr]. f_equal; [by apply hex_pair_inj | by apply IH].
Qed.

(** The four forms of an escaped byte. *)
Lemma json_escape_cases b :
  (b = x22 ∧ json_escape b = [x5c; x22])
  ∨ (b = x5c ∧ json_escape b = [x5c; x5c])
  ∨ (json_escape b = [x5c; x75; x30; x30; hex_digit (byte_to_Z b / 16);
                      hex_digit (byte_to_Z b mod 16)])
  ∨ (b ≠ x22 ∧ b ≠ x5c ∧ json_escape b = [b]).
Proof.
  unfold json_escape.
  destruct (decide (b = x22)) as [->|H1]; [by left|].
  destruct (decide (b = x5c)) as [->|H2]; [by right; left|].
  destruct (byte_to_Z b <? 32); [by right; right; left | by right; right; right].
Qed.

(** An escaped string ends at the first quote that is not escaped. *)
Lemma json_escape_delim s1 : ∀ s2 r1 r2,
  (s1 ≫= json_escape) ++ x22 :: r1 = (s2 ≫= json_escape) ++ x22 :: r2 →
  s1 = s2 ∧ r1 = r2.
Proof.
  induction s1 as [|a s1 IH]; intros [|b s2] r1 r2; simpl.
  - by intros [= ->].
  - rewrite <- app_assoc.
    destruct (json_escape_cases b) as [[-> ->]|[[-> ->]|[->|(? & ? & ->)]]];
      simpl; intros [= ?]; done.
  - rewrite <- app_assoc.
    destruct (json_escape_cases a) as [[-> ->]|[[-> ->]|[->|(? & ? & ->)]]];
      simpl; intros [= ?]; done.
  - rewrite <- !app_assoc.
    destruct (json_escape_cases a) as [[-> Ea]|[[-> Ea]|[Ea|(Ha1 & Ha2 & Ea)]]];
      destruct (json_escape_cases b) as [[-> Eb]|[[-> Eb]|[Eb|(Hb1 & Hb2 & Eb)]]];
      rewrite ?Ea, ?Eb; simpl; intros Heq; injection Heq; clear Heq; intros; subst;
      try done;
      try (match goal with Hr : _ ++ _ = _ ++ _ |- _ =>
             apply IH in Hr; destruct Hr as [-> ->]; done end).
    match goal with Hr : _ ++ _ = _ ++ _ |- _ =>
      apply IH in Hr; destruct Hr as [-> ->] end.
    split; [|done]. f_equal. by apply hex_pair_inj.
Qed.

Lemma json_string_delim s1 s2 r1 r2 :
  json_string s1 ++ r1 = json_string s2 ++ r2 → s1 = s2 ∧ r1 = r2.
Proof.
  unfold json_string. rewrite <- !app_assoc. simpl. intros [= H].
  by apply json_escape_delim in H.
Qed.

Lemma pretty_N_char_digit x :
  is_digit (Ascii.byte_of_ascii (pretty_N_char x)) = true.
Proof. unfold pretty_N_char. by repeat case_match. Qed.

Lemma pretty_N_go_digits x : ∀ s,
  Forall (λ b, is_digit b = true) (bytes_of_string s) →
  Forall (λ b, is_digit b = true) (bytes_of_string (pretty_N_go x s)).
Proof.
  induction (N.lt_wf_0 x) as [x _ IH]. intros s Hs.
  destruct (decide (x = 0%N)) as [->|Hx]; [by rewrite pretty_N_go_0|].
  rewrite pretty_N_go_step by lia. apply IH.
  - apply N.div_lt; lia.
  - unfold bytes_of_string. simpl. constructor; [apply pretty_N_char_digit | exact Hs].
Qed.

Lemma json_number_digits n : Forall (λ b, is_digit b = true) (json_number n).
Proof.
  unfold json_number, pretty, pretty_N.
  destruct (decide (n = 0%N)); [by repeat constructor|].
  apply pretty_N_go_digits. constructor.
Qed.

Lemma json_number_inj n1 n2 : json_number n1 = json_number n2 → n1 = n2.
Proof. unfold json_number. intros H%bytes_of_string_inj. by apply pretty_N_inj in H. Qed.

(** A run of bytes with a property ends at the first byte without it. *)
Lemma span_unique {A} (P : A → bool) (l1 : list A) : ∀ l2 x1 x2 r1 r2,
  Forall (λ a, P a = true) l1 → Forall (λ a, P a = true) l2 →
  P x1 = false → P x2 = false →
  l1 ++ x1 :: r1 = l2 ++ x2 :: r2 → l1 = l2 ∧ x1 :: r1 = x2 :: r2.
Proof.
  induction l1 as [|a l1 IH]; intros [|b l2] x1 x2 r1 r2 H1 H2 Hx1 Hx2; simpl.
  - done.
  - intros [= -> _]. apply Forall_cons in H2 as [H2 _]. congruence.
  - intros [= <- _]. apply Forall_cons in H1 as [H1 _]. congruence.
  - intros [= -> H]. apply Forall_cons in H1 as [_ H1]. apply Forall_cons in H2 as [_ H2].
    destruct (IH _ _ _ _ _ H1 H2 Hx1 Hx2 H) as [-> ?]. done.
Qed.

(** A number ends at the first byte that is not a digit. *)
Lemma json_number_delim n1 n2 x1 x2 r1 r2 :
  is_digit x1 = false → is_digit x2 = false →
  json_number n1 ++ x1 :: r1 = json_number n2 ++ x2 :: r2 →
  n1 = n2 ∧ x1 :: r1 = x2 :: r2.
Proof.
  intros Hx1 Hx2 H.
  destruct (span_unique is_digit _ _ _ _ _ _
              (json_number_digits n1) (json_number_digits n2) Hx1 Hx2 H) as [Hn Hr].
  split; [by apply json_number_inj | done].
Qed.

(** The JSON text, one field after the other. *)
Lemma cdc_MarshalJSON_text c :
  cdc_MarshalJSON c
  = Some ([x7b] ++ json_key "chain_id"
          ++ json_string (bytes_of_string (Canonical.ChainID c))
          ++ x2c :: json_key "type"
          ++ json_string (bytes_of_string (Canonical.Type' c))
          ++ x2c :: json_key "height" ++ json_number (Canonical.Height c)
          ++ x2c :: json_key "round" ++ json_number (Canonical.Round c)
          ++ x2c :: json_key "sequence" ++ json_number (Canonical.Sequence c)
          ++ x2c :: json_key "validator_address"
          ++ json_string (hex_upper (Canonical.ValidatorAddress c))
          ++ x2c :: json_key "validator_index"
          ++ json_number (Canonical.ValidatorIndex c) ++ [x7d]).
Proof.
  unfold cdc_MarshalJSON, json_object, json_field, json_key. f_equal.
  cbn [join_with]. rewrite <- !app_assoc. reflexivity.
Qed.

Lemma cdc_MarshalJSON_inj c1 c2 :
  cdc_MarshalJSON c1 = cdc_MarshalJSON c2 → c1 = c2.
Proof.
  rewrite !cdc_MarshalJSON_text. intros H. apply (inj Some) in H.
  apply (app_inv_head [x7b]) in H. apply (app_inv_head (json_key "chain_id")) in H.
  apply json_string_delim in H as [Hchain%bytes_of_string_inj H].
  apply (app_inv_head (x2c :: json_key "type")) in H.
  apply json_string_delim in H as [Htype%bytes_of_string_inj H].
  apply (app_inv_head (x2c :: json_key "height")) in H.
  apply json_number_delim in H as [Hheight H]; [|done..].
  apply (app_inv_head (x2c :: json_key "round")) in H.
  apply json_number_delim in H as [Hround H]; [|done..].
  apply (app_inv_head (x2c :: json_key "sequence")) in H.
  apply json_number_delim in H as [Hseq H]; [|done..].
  apply (app_inv_head (x2c :: json_key "validator_address")) in H.
  apply json_string_delim in H as [Haddr%hex_upper_inj H].
  apply (app_inv_head (x2c :: json_key "validator_index")) in H.
  apply json_number_delim in H as [Hidx _]; [|done..].
  destruct c1, c2. simpl in *. congruence.
Qed.

(** RLP: the header grows with the payload, so header and payload
    together determine the payload. *)
Lemma big_endian_length n :
  length (big_endian n) = Z.to_nat (Z.log2 n / 8 + 1).
Proof. unfold big_endian. by rewrite length_fmap, length_seq. Qed.

Lemma rlp_header_length_mono base (n1 n2 : nat) :
  (n1 ≤ n2)%nat → (length (rlp_header base n1) ≤ length (rlp_header base n2))%nat.
Proof.
  intros Hle. unfold rlp_header.
  destruct (Z.leb_spec (Z.of_nat n1) 55), (Z.leb_spec (Z.of_nat n2) 55); simpl;
    try lia.
  rewrite !big_endian_length.
  assert (Z.log2 (Z.of_nat n1) <= Z.log2 (Z.of_nat n2)) by (apply Z.log2_le_mono; lia).
  pose proof (Z.log2_nonneg (Z.of_nat n1)).
  assert (Z.log2 (Z.of_nat n1) / 8 <= Z.log2 (Z.of_nat n2) / 8)
    by (apply Z.div_le_mono; lia).
  assert (0 <= Z.log2 (Z.of_nat n1) / 8) by (apply Z.div_pos; lia).
  lia.
Qed.

Lemma rlp_header_app_inj base (p1 p2 : bytes) :
  rlp_header base (length p1) ++ p1 = rlp_header base (length p2) ++ p2 → p1 = p2.
Proof.
  intros H. pose proof (f_equal length H) as Hlen. rewrite !length_app in Hlen.
  assert (length p1 = length p2) as Hp.
  { destruct (Nat.lt_trichotomy (length p1) (length p2)) as [Hlt|[?|Hlt]]; [|done|].
    - pose proof (rlp_header_length_mono base (length p1) (length p2)). lia.
    - pose proof (rlp_header_length_mono base (length p2) (length p1)). lia. }
  rewrite Hp in H. by apply app_inv_head in H.
Qed.

Lemma rlp_bytes_cases b :
  (∃ x, b = [x] ∧ byte_to_Z x < 128 ∧ rlp_bytes b = [x])
  ∨ rlp_bytes b = rlp_header 128 (length b) ++ b.
Proof.
  destruct b as [|x [|y b]]; simpl; [by right | | by right].
  destruct (Z.ltb_spec (byte_to_Z x) 128); [left; by exists x | by right].
Qed.

Lemma rlp_header_not_small base (p : bytes) x :
  base = 128 → byte_to_Z x < 128 → rlp_header base (length p) ++ p ≠ [x].
Proof.
  intros -> Hx H. pose proof (f_equal length H) as Hlen.
  rewrite length_app in Hlen. simpl in Hlen.
  destruct p as [|y p]; simpl in *.
  - vm_compute in H. injection H as <-. vm_compute in Hx. done.
  - unfold rlp_header in Hlen.
    destruct (Z.of_nat (S (length p)) <=? 55); simpl in Hlen; lia.
Qed.

Lemma rlp_bytes_inj b1 b2 : rlp_bytes b1 = rlp_bytes b2 → b1 = b2.
Proof.
  destruct (rlp_bytes_cases b1) as [(x1 & -> & H1 & E1)|E1],
           (rlp_bytes_cases b2) as [(x2 & -> & H2 & E2)|E2]; rewrite E1, E2.
  - done.
  - intros H. symmetry in H. by apply rlp_header_not_small in H.
  - intros H. by apply rlp_header_not_small in H.
  - apply rlp_header_app_inj.
Qed.

Lemma rlp_list_single_inj b1 b2 : rlp_list [b1] = rlp_list [b2] → b1 = b2.
Proof.
  unfold rlp_list. simpl. rewrite !app_nil_r.
  intros H%rlp_header_app_inj. by apply rlp_bytes_inj.
Qed.

Lemma signing_form_inj c1 c2 hb1 hb2 :
  signing_form c1 hb1 = signing_form c2 hb2 → canonical c1 hb1 = canonical c2 hb2.
Proof.
  unfold signing_form.
  destruct (cdc_MarshalJSON (canonical c1 hb1)) as [bz1|] eqn:E1;
    destruct (cdc_MarshalJSON (canonical c2 hb2)) as [bz2|] eqn:E2; simpl; try done.
  intros [= H%rlp_list_single_inj]. subst bz2.
  apply cdc_MarshalJSON_inj. by rewrite E1, E2.
Qed.

Lemma SignBytes_signing_form hb c :
  SignBytes (Some hb) c = Keccak256 <$> signing_form c hb.
Proof.
  unfold SignBytes, SignBytes_with, signing_form, help_RlpHash. simpl.
  by destruct (cdc_MarshalJSON (canonical c hb)).
Qed.

Lemma signing_form_Some c hb : is_Some (signing_form c hb).
Proof. unfold signing_form. rewrite cdc_MarshalJSON_text. simpl. by eexists. Qed.



(** On a sample heartbeat, round 0 and round 1 give different bytes. *)
Example SignBytes_round_0_1 :
  SignBytes (Some (ex_heartbeat 0 [x01])) "test-chain"
  ≠ SignBytes (Some (ex_heartbeat 1 [x01])) "test-chain".
Proof. vm_compute. discriminate. Qed.

(** Known digests: Keccak-256 of the empty string and of "abc", the hash of
    the empty RLP list and of the empty RLP string of go-ethereum, and
    SHA3-256 of "abc". *)
Example Keccak256_known_digests :
  hex_upper (Keccak256 [])
  = bytes_of_string "C5D2460186F7233C927E7DB2DCC703C0E500B653CA82273B7BFAD8045D85A470"
  ∧ hex_upper (Keccak256 (bytes_of_string "abc"))
    = bytes_of_string "4E03657AEA45A94FC7D47BA826C8D667C0D1E6E33A64A036EC44F58FA12D6C45"
  ∧ hex_upper (help_RlpHash [])
    = bytes_of_string "1DCC4DE8DEC75D7AAB85B567B6CCD41AD312451B948A7413F0A142FD40D49347"
  ∧ hex_upper (Keccak256 (rlp_bytes []))
    = bytes_of_string "56E81F171BCC55A6FF8345E692C0F86E5B48E01B996CADC001622FB5E363B421"
  ∧ hex_upper (SHA3_256 (bytes_of_string "abc"))
    = bytes_of_string "3A985DA74FE225B2045C172D6BD390BD855F086E3E9D525B46BFE24511431532".
Proof. split_and!; vm_compute; reflexivity. Qed.

(** The canonical JSON of the sample heartbeat. *)
Example cdc_MarshalJSON_sample :
  cdc_MarshalJSON (canonical "test-chain" (ex_heartbeat 0 [x01]))
  = Some ([x7b] ++ json_field "chain_id" ([x22] ++ bytes_of_string "test-chain" ++ [x22])
          ++ bytes_of_string ","
          ++ json_field "type" ([x22] ++ bytes_of_string "heartbeat" ++ [x22])
          ++ bytes_of_string ","
          ++ [x22] ++ bytes_of_string "height" ++ [x22] ++ bytes_of_string ":10,"
          ++ [x22] ++ bytes_of_string "round" ++ [x22] ++ bytes_of_string ":0,"
          ++ [x22] ++ bytes_of_string "sequence" ++ [x22] ++ bytes_of_string ":7,"
          ++ [x22] ++ bytes_of_string "validator_address" ++ [x22] ++ bytes_of_string ":"
          ++ [x22] ++ bytes_of_string "0C0C0C0C0C0C0C0C0C0C0C0C0C0C0C0C0C0C0CFF" ++ [x22]
          ++ bytes_of_string ","
          ++ [x22] ++ bytes_of_string "validator_index" ++ [x22] ++ bytes_of_string ":2}").
Proof. vm_compute. reflexivity. Qed.

(** * Further properties of the code

    Properties of [work], [switchResult], [Update], the loop, the sorting
    interface and [Copy] that the statements above do not cover. *)

(** Side conditions at the running example. *)
Ltac by_decide := apply bool_decide_unpack; vm_compute; exact I.
Ltac by_elem :=
  unfold ex_order; rewrite ?elem_of_cons, ?elem_of_nil; solve [intuition discriminate].
Ltac by_nodup :=
  unfold ex_order; repeat (apply NoDup_cons_2; [by_elem|]); apply NoDup_nil_2.

Lemma ex_run_answer :
  run ex_mgr (ex_store_at 1 601 StateSwitching StateSwitching)
    [Answered (ex_request EmptyString 1)] (ex_store_at 1 601 StateRemoved StateUsed).
Proof.
  change [Answered (ex_request EmptyString 1)]
    with ([] ++ [Answered (ex_request EmptyString 1)]).
  eapply run_step; [apply run_nil|]. apply step_result. vm_compute. reflexivity.
Qed.

Lemma ex_run_tick :
  run ex_mgr (ex_store_at 1 601 StateRemoved StateUsed) []
    (ex_store_at 2 601 StateRemoved StateUsed).
Proof.
  change (@nil event) with ([] ++ (Emitted <$> @nil SwitchValidator)).
  eapply run_step; [apply run_nil|].
  apply (step_tick ex_mgr (map_to_list (Work ex_mgr)).*2);
    [unfold visit_order; reflexivity|].
  vm_compute. reflexivity.
Qed.

Lemma same_identity_refl r : same_identity r r.
Proof. by repeat split. Qed.

Lemma ticked_refl σ : ticked σ σ.
Proof.
  intros l. unfold record_ticked. destruct (σ !! l); [|done].
  split_and!; [apply same_identity_refl | by left | done].
Qed.

Lemma ticked_trans σ1 σ2 σ3 : ticked σ1 σ2 → ticked σ2 σ3 → ticked σ1 σ3.
Proof.
  intros H12 H23 l. specialize (H12 l). specialize (H23 l).
  unfold record_ticked in *.
  destruct (σ1 !! l) as [r1|], (σ2 !! l) as [r2|], (σ3 !! l) as [r3|]; try done.
  destruct H12 as ((?&?&?&?) & Hs12 & Ht12), H23 as ((?&?&?&?) & Hs23 & Ht23).
  split_and!.
  - repeat split; congruence.
  - unfold StateUsed, StateUnused, StateSwitching in *.
    destruct Hs12 as [?|[? ?]], Hs23 as [?|[? ?]];
      first [left; lia | right; split; lia].
  - intros Hn. rewrite Ht23, Ht12; [done | done |].
    unfold StateUsed, StateUnused, StateSwitching in *.
    destruct Hs12 as [?|[? ?]]; lia.
Qed.

Lemma ticked_insert_state σ (l : loc) r :
  σ !! l = Some r → State r = StateUsed ∨ State r = StateUnused →
  ticked σ (<[l := with_State StateSwitching r]> σ).
Proof.
  intros Hl Hs l'. unfold record_ticked. destruct (decide (l' = l)) as [->|Hne].
  - rewrite lookup_insert_eq, Hl. split_and!; [by repeat split | by right | done].
  - rewrite lookup_insert_ne by done. apply ticked_refl.
Qed.

Lemma ticked_insert_tick σ (l : loc) r t :
  σ !! l = Some r → State r = StateUsed →
  ticked σ (<[l := with_Tick t r]> σ).
Proof.
  intros Hl Hs l'. unfold record_ticked. destruct (decide (l' = l)) as [->|Hne].
  - rewrite lookup_insert_eq, Hl. split_and!; [by repeat split | by left | done].
  - rewrite lookup_insert_ne by done. apply ticked_refl.
Qed.

Lemma ticked_valid σ σ' p : ticked σ σ' → (valid_ptr σ p ↔ valid_ptr σ' p).
Proof.
  intros Ht. unfold valid_ptr. destruct p as [l|]; simpl; [|done].
  specialize (Ht l). unfold record_ticked in Ht.
  destruct (σ !! l), (σ' !! l); try done; split; intros [? ?]; by eauto.
Qed.

Lemma pick_loop_ticked (back : list ptr) σ p σ' :
  pick_loop back σ = Some (p, σ') → ticked σ σ'.
Proof.
  intros H. destruct (pick_loop_inv _ _ _ _ H) as [[_ ->]|(l & r & _ & _ & Hl & Hs & ->)].
  - apply ticked_refl.
  - apply ticked_insert_state; [done | by right].
Qed.

Lemma pick_loop_total (back : list ptr) σ :
  Forall (valid_ptr σ) back → is_Some (pick_loop back σ).
Proof.
  induction 1 as [|p back [r Hr] _ IH]; simpl; [by eexists|].
  rewrite Hr. simpl. destruct (State r =? StateUnused); [|done].
  destruct p as [l|]; [|done]. simpl in Hr. unfold set_State. simpl.
  rewrite Hr. simpl. by eexists.
Qed.

Lemma checkSwitchValidator_ticked h v σ out σ' :
  checkSwitchValidator h v σ = Some (out, σ') → ticked σ σ'.
Proof.
  intros H. apply checkSwitchValidator_inv in H
    as [[-> ->]|(l & r & back & σ1 & -> & Hl & Ht & Hs & HP & -> & -> & _)].
  - apply ticked_refl.
  - pose proof (pick_loop_ticked _ _ _ _ HP) as H1.
    eapply ticked_trans; [exact H1|].
    assert (σ1 !! l = Some r) as Hl1.
    { destruct (pick_loop_inv _ _ _ _ HP) as [[_ ->]|(l0 & r0 & _ & _ & Hl0 & Hs0 & ->)];
        [done|].
      rewrite lookup_insert_ne; [done|]. intros ->. rewrite Hl in Hl0.
      injection Hl0 as <-. unfold StateUsed, StateUnused in *. lia. }
    apply ticked_insert_state; [done | by left].
Qed.

Lemma work_body_ticked h v σ out σ' :
  work_body h v σ = Some (out, σ') → ticked σ σ'.
Proof.
  unfold work_body. destruct (deref σ v) as [r|] eqn:E; simpl; [|done].
  destruct (Z.eqb_spec (State r) StateUsed) as [Hs|Hs].
  - destruct (AddInt32 v 1 σ) as [σ1|] eqn:EA; simpl; [|done].
    apply AddInt32_inv in EA as (l & r0 & -> & Hl & ->).
    simpl in E. rewrite Hl in E. injection E as ->.
    intros H%checkSwitchValidator_ticked.
    eapply ticked_trans; [|exact H]. by apply ticked_insert_tick.
  - apply checkSwitchValidator_ticked.
Qed.

Lemma work_loop_ticked h (vs : list ptr) : ∀ σ out σ',
  work_loop h vs σ = Some (out, σ') → ticked σ σ'.
Proof.
  induction vs as [|v vs IH]; intros σ out σ'; simpl.
  - intros [= <- <-]. apply ticked_refl.
  - destruct (work_body h v σ) as [[out1 σ1]|] eqn:E1; simpl; [|done].
    destruct (work_loop h vs σ1) as [[out2 σ2]|] eqn:E2; simpl; [|done].
    intros [= <- <-]. eapply ticked_trans; [by eapply work_body_ticked | by eapply IH].
Qed.

Lemma work_body_total h v σ :
  valid_ptr σ v → Forall (valid_ptr σ) (Back h) → is_Some (work_body h v σ).
Proof.
  intros [r Hr] Hb. destruct v as [l|]; [|done]. simpl in Hr.
  unfold work_body. simpl. rewrite Hr. simpl.
  assert (∀ σ1 r1, σ1 !! l = Some r1 → Forall (valid_ptr σ1) (Back h) →
            is_Some (checkSwitchValidator h (Some l) σ1)) as Hchk.
  { intros σ1 r1 Hl1 Hb1. unfold checkSwitchValidator, LoadInt32. simpl.
    rewrite Hl1. simpl.
    destruct ((Tick r1 >? HealthOut) && (State r1 =? StateUsed)); [|by eexists].
    destruct (pick_loop_total _ _ Hb1) as [[back σ2] HP].
    unfold pickUnuseValidator. rewrite HP. simpl.
    pose proof (pick_loop_ticked _ _ _ _ HP) as Ht.
    assert (valid_ptr σ2 (Some l)) as [r2 Hr2].
    { apply (ticked_valid _ _ _ Ht). by exists r1. }
    simpl in Hr2. unfold set_State. simpl. rewrite Hr2. simpl. by eexists. }
  destruct (State r =? StateUsed) eqn:Es.
  - simpl.
    apply (Hchk _ (with_Tick (wrap32 (Tick r + 1)) r)); [apply lookup_insert_eq|].
    eapply Forall_impl; [exact Hb|]. intros p Hp.
    apply (ticked_valid σ); [|done]. apply ticked_insert_tick; [done|].
    by apply Z.eqb_eq.
  - simpl. by apply (Hchk σ r).
Qed.

Lemma work_loop_total h (vs : list ptr) : ∀ σ,
  Forall (valid_ptr σ) vs → Forall (valid_ptr σ) (Back h) →
  is_Some (work_loop h vs σ).
Proof.
  induction vs as [|v vs IH]; intros σ Hvs Hb; simpl; [by eexists|].
  apply Forall_cons in Hvs as [Hv Hvs].
  destruct (work_body_total h v σ Hv Hb) as [[out1 σ1] E1]. rewrite E1. simpl.
  pose proof (work_body_ticked _ _ _ _ _ E1) as Ht.
  destruct (IH σ1) as [[out2 σ2] E2].
  - eapply Forall_impl; [exact Hvs|]. intros p Hp. by apply (ticked_valid σ σ1 p Ht).
  - eapply Forall_impl; [exact Hb|]. intros p Hp. by apply (ticked_valid σ σ1 p Ht).
  - rewrite E2. simpl. by eexists.
Qed.

Lemma work_loop_invalid h (vs : list ptr) : ∀ σ,
  ¬ Forall (valid_ptr σ) vs → work_loop h vs σ = None.
Proof.
  induction vs as [|v vs IH]; intros σ Hn; simpl; [by destruct Hn|].
  destruct (work_body h v σ) as [[out1 σ1]|] eqn:E1; simpl; [|done].
  rewrite IH; [done|]. intros Hvs. apply Hn. constructor.
  - unfold work_body in E1. unfold valid_ptr.
    destruct (deref σ v); [by eexists | done].
  - eapply Forall_impl; [exact Hvs|]. intros p Hp.
    by apply (ticked_valid σ σ1 p (work_body_ticked _ _ _ _ _ E1)).
Qed.

(** X1.  When every entry of the pool is a live record, a tick returns
    exactly when every value of the active map that it visits is a live
    record: [work] reads [v.State] of each value with no nil test, so a nil
    value makes it panic, and nothing else does. *)
Theorem work_loop_returns_iff_valid (h : HealthMgr) (vs : list ptr) (σ : store) :
  Forall (valid_ptr σ) (Back h) →
  (is_Some (work_loop h vs σ) ↔ Forall (valid_ptr σ) vs).
Proof.
  intros Hb. split.
  - intros [x Hx]. destruct (decide (Forall (valid_ptr σ) vs)) as [?|Hn]; [done|].
    rewrite (work_loop_invalid h vs σ Hn) in Hx. done.
  - intros Hvs. by apply work_loop_total.
Qed.

Lemma work_loop_returns_iff_valid_witness :
  is_Some (work_loop ex_mgr ex_order (ex_store 0 StateUsed StateUnused))
  ↔ Forall (valid_ptr (ex_store 0 StateUsed StateUnused)) ex_order.
Proof.
  apply (work_loop_returns_iff_valid ex_mgr ex_order (ex_store 0 StateUsed StateUnused)).
  repeat constructor; eexists; reflexivity.
Defined.

Lemma work_body_other h v σ out σ1 (l : loc) r :
  v ≠ Some l → σ !! l = Some r → State r ≠ StateUnused →
  work_body h v σ = Some (out, σ1) →
  σ1 !! l = Some r ∧ requests_for l out = 0%nat.
Proof.
  intros Hv Hl Hs. unfold work_body.
  destruct (deref σ v) as [rv|] eqn:E; simpl; [|done].
  assert (∀ σa, σa !! l = Some r → checkSwitchValidator h v σa = Some (out, σ1) →
            σ1 !! l = Some r ∧ requests_for l out = 0%nat) as Hchk.
  { intros σa Hla H. apply checkSwitchValidator_inv in H
      as [[-> ->]|(l0 & r0 & back & σb & -> & Hl0 & Ht & Hs0 & HP & -> & -> & _)];
      [done|].
    assert (l0 ≠ l) as Hne by congruence.
    unfold requests_for. simpl. rewrite bool_decide_false by congruence.
    split; [|done]. rewrite lookup_insert_ne by done.
    destruct (pick_loop_inv _ _ _ _ HP) as [[_ ->]|(lb & rb & _ & _ & Hlb & Hsb & ->)];
      [done|].
    rewrite lookup_insert_ne; [done|]. intros ->. congruence. }
  destruct (State rv =? StateUsed).
  - destruct (AddInt32 v 1 σ) as [σa|] eqn:EA; simpl; [|done].
    apply AddInt32_inv in EA as (l0 & r0 & -> & Hl0 & ->).
    apply Hchk. rewrite lookup_insert_ne; [done | congruence].
  - simpl. by apply Hchk.
Qed.

Lemma work_body_quiet h σ (l : loc) r :
  σ !! l = Some r → State r = StateUsed → wrap32 (Tick r + 1) <= HealthOut →
  work_body h (Some l) σ
  = Some ([], <[l := with_Tick (wrap32 (Tick r + 1)) r]> σ).
Proof.
  intros Hl Hs Ht. unfold work_body. simpl. rewrite Hl. simpl. rewrite Hs. simpl.
  unfold checkSwitchValidator, LoadInt32. simpl. rewrite lookup_insert_eq. simpl.
  destruct (Z.gtb_spec (wrap32 (Tick r + 1)) HealthOut); [lia | done].
Qed.

Lemma work_loop_other h (l : loc) (vs : list ptr) : ∀ σ out σ' r,
  Some l ∉ vs → σ !! l = Some r → State r ≠ StateUnused →
  work_loop h vs σ = Some (out, σ') →
  σ' !! l = Some r ∧ requests_for l out = 0%nat.
Proof.
  induction vs as [|v vs IH]; intros σ out σ' r Hin Hl Hs; simpl.
  - by intros [= <- <-].
  - destruct (work_body h v σ) as [[out1 σ1]|] eqn:E1; simpl; [|done].
    destruct (work_loop h vs σ1) as [[out2 σ2]|] eqn:E2; simpl; [|done].
    intros [= <- <-]. apply not_elem_of_cons in Hin as [Hv Hin].
    destruct (work_body_other h v σ out1 σ1 l r) as [Hl1 Hz1]; [congruence | done..|].
    destruct (IH σ1 out2 σ2 r Hin Hl1 Hs E2) as [Hl2 Hz2].
    by rewrite requests_for_app, Hz1, Hz2.
Qed.

Lemma work_loop_quiet h (l : loc) (vs : list ptr) : ∀ σ out σ' r,
  NoDup vs → Some l ∈ vs → σ !! l = Some r → State r = StateUsed →
  wrap32 (Tick r + 1) <= HealthOut →
  work_loop h vs σ = Some (out, σ') →
  σ' !! l = Some (with_Tick (wrap32 (Tick r + 1)) r) ∧ requests_for l out = 0%nat.
Proof.
  induction vs as [|v vs IH]; intros σ out σ' r Hnd Hin Hl Hs Ht; simpl.
  - by apply elem_of_nil in Hin.
  - apply NoDup_cons in Hnd as [Hv Hnd].
    destruct (work_body h v σ) as [[out1 σ1]|] eqn:E1; simpl; [|done].
    destruct (work_loop h vs σ1) as [[out2 σ2]|] eqn:E2; simpl; [|done].
    intros [= <- <-]. rewrite requests_for_app.
    destruct (decide (v = Some l)) as [->|Hne].
    + rewrite (work_body_quiet h σ l r Hl Hs Ht) in E1. injection E1 as <- <-.
      apply (work_loop_other h l vs _ out2 σ2 (with_Tick (wrap32 (Tick r + 1)) r)) in E2;
        [done | done | apply lookup_insert_eq |].
      simpl. rewrite Hs. done.
    + apply elem_of_cons in Hin as [?|Hin]; [congruence|].
      destruct (work_body_other h v σ out1 σ1 l r) as [Hl1 Hz1];
        [done | done | by rewrite Hs | done |].
      destruct (IH σ1 out2 σ2 r Hnd Hin Hl1 Hs Ht E2) as [Hl2 Hz2].
      by rewrite Hz1, Hz2.
Qed.



(** X3.  What a tick can change.  On live records it returns, and every
    record keeps its ID, IP, port and validator; a state either stays or
    goes from [Used] or [Unused] to [Switching]; only a [Used] record can
    have its tick changed.  A record that is not visited and is not
    [Unused] is not changed at all. *)
Theorem work_loop_frame (h : HealthMgr) (vs : list ptr) (σ : store) :
  Forall (valid_ptr σ) vs → Forall (valid_ptr σ) (Back h) →
  ∃ out σ', work_loop h vs σ = Some (out, σ')
            ∧ ticked σ σ'
            ∧ ∀ (l : loc) r, Some l ∉ vs → σ !! l = Some r →
                State r ≠ StateUnused → σ' !! l = Some r.
Proof.
  intros Hvs Hb. destruct (work_loop_total h vs σ Hvs Hb) as [[out σ'] E].
  exists out, σ'. split_and!; [done | by eapply work_loop_ticked |].
  intros l r Hin Hl Hs. by apply (work_loop_other h l vs σ out σ' r).
Qed.

Lemma work_loop_frame_witness :
  let σ := ex_store_at 0 600 StateUsed StateUnused in
  ∃ out σ', work_loop ex_mgr [Some 0%nat; Some 2%nat] σ = Some (out, σ')
            ∧ ticked σ σ'
            ∧ ∀ (l : loc) r, Some l ∉ [Some 0%nat; Some 2%nat] → σ !! l = Some r →
                State r ≠ StateUnused → σ' !! l = Some r.
Proof.
  apply (work_loop_frame ex_mgr [Some 0%nat; Some 2%nat]
           (ex_store_at 0 600 StateUsed StateUnused));
    repeat constructor; eexists; reflexivity.
Defined.

(** X4.  A liveness signal followed by a tick: after [Update id], the next
    tick emits no request for the record of [id], whatever its tick was
    before; if the record is [Used] and visited, its tick is 1 after it. *)
Theorem Update_then_tick_no_request (h : HealthMgr) (id : p2p_ID) (vs : list ptr)
    (σ : store) (l : loc) (r : Health) :
  Work h !! id = Some (Some l) → σ !! l = Some r →
  NoDup vs → Forall (valid_ptr σ) vs → Forall (valid_ptr σ) (Back h) →
  ∃ σ1 out σ2, Update h id σ = Some σ1 ∧ work_loop h vs σ1 = Some (out, σ2)
               ∧ requests_for l out = 0%nat
               ∧ (Some l ∈ vs → State r = StateUsed →
                  σ2 !! l = Some (with_Tick 1 r)).
Proof.
  intros HW Hl Hnd Hvs Hb.
  pose proof (Update_known h id σ l r HW Hl) as HU.
  set (σ1 := <[l := with_Tick 0 r]> σ) in *.
  assert (∀ p, valid_ptr σ p → valid_ptr σ1 p) as Hval.
  { intros [l'|] [x Hx]; [|done]. simpl in Hx. unfold valid_ptr, σ1. simpl.
    destruct (decide (l' = l)) as [->|Hne].
    - rewrite lookup_insert_eq. by eexists.
    - rewrite lookup_insert_ne by done. by eexists. }
  destruct (work_loop_total h vs σ1) as [[out σ2] E].
  { eapply Forall_impl; [exact Hvs | exact Hval]. }
  { eapply Forall_impl; [exact Hb | exact Hval]. }
  exists σ1, out, σ2. split_and!; [done | done | |].
  - destruct (decide (State r = StateUsed)) as [Hs|Hs].
    + destruct (decide (Some l ∈ vs)) as [Hin|Hin].
      * apply (work_loop_quiet h l vs σ1 out σ2 (with_Tick 0 r)); try done.
        apply lookup_insert_eq.
      * apply (work_loop_other h l vs σ1 out σ2 (with_Tick 0 r)); try done.
        -- apply lookup_insert_eq.
        -- simpl. rewrite Hs. done.
    + destruct (work_loop_requests h l vs σ1 out σ2 E) as (_ & Hz & _).
      apply Hz. intros q. unfold σ1. rewrite lookup_insert_eq. by intros [= <-].
  - intros Hin Hs.
    destruct (work_loop_quiet h l vs σ1 out σ2 (with_Tick 0 r)) as [H2 _]; try done.
    apply lookup_insert_eq.
Qed.

Lemma Update_then_tick_no_request_witness :
  ∃ σ1 out σ2, Update ex_mgr "C" (ex_store 600 StateUsed StateUnused) = Some σ1
               ∧ work_loop ex_mgr ex_order σ1 = Some (out, σ2)
               ∧ requests_for 2%nat out = 0%nat
               ∧ (Some 2%nat ∈ ex_order →
                  State (mkHealth "C" 600 StateUsed [x0c]) = StateUsed →
                  σ2 !! 2%nat = Some (with_Tick 1 (mkHealth "C" 600 StateUsed [x0c]))).
Proof.
  apply (Update_then_tick_no_request ex_mgr "C" ex_order
           (ex_store 600 StateUsed StateUnused) 2%nat (mkHealth "C" 600 StateUsed [x0c]));
    first [ reflexivity | by_nodup | (repeat constructor; eexists; reflexivity) ].
Defined.

Lemma Work_value_elem h (id : p2p_ID) (v : ptr) :
  Work h !! id = Some v → v ∈ (map_to_list (Work h)).*2.
Proof.
  intros H. apply list_elem_of_fmap. exists (id, v). split; [done|].
  by apply elem_of_map_to_list.
Qed.

Lemma switchResult_switched h res σ σ' :
  switchResult h res σ = Some σ' →
  ∀ l : loc, record_switched h l (σ !! l) (σ' !! l).
Proof.
  unfold switchResult. intros H.
  destruct (from res =? 1); [|injection H as <-; intros l; by left].
  destruct (String.eqb (Resion res) EmptyString); simpl in H.
  - destruct (deref σ (Remove res)) as [rm|]; simpl in H; [|done].
    assert (∀ σa, (∀ l : loc, record_switched h l (σ !! l) (σa !! l)) →
      (promote_loop (Back h) (Add res) σa ≫= λ σ1,
         _ ← String_returns σ1 (Remove res);
         _ ← String_returns σ1 (Add res); Some σ1) = Some σ' →
      ∀ l : loc, record_switched h l (σ !! l) (σ' !! l)) as Hrest.
    { intros σa Ha Hp.
      destruct (promote_loop (Back h) (Add res) σa) as [σ1|] eqn:EP; simpl in Hp; [|done].
      destruct (String_returns σ1 (Remove res)); simpl in Hp; [|done].
      destruct (String_returns σ1 (Add res)); simpl in Hp; [|done].
      injection Hp as <-.
      destruct (promote_loop_inv _ _ _ _ EP) as [->|(la & ra & Hin & Hla & ->)]; [done|].
      intros l. destruct (decide (l = la)) as [->|Hne].
      - rewrite lookup_insert_eq. specialize (Ha la). rewrite Hla in Ha.
        destruct Ha as [Ha|(r & Hr & [[Ha ?]|[Ha ?]])].
        + right. exists ra. split; [done|]. right. done.
        + right. exists r. split; [done|]. right. injection Ha as ->. done.
        + right. exists r. split; [done|]. right. injection Ha as ->. done.
      - rewrite lookup_insert_ne by done. apply Ha. }
    destruct (Work h !! ID rm) as [v|] eqn:EW; simpl in H;
      [|apply (Hrest σ); [intros l; by left | done]].
    destruct (set_State v StateRemoved σ) as [σa|] eqn:ES; simpl in H; [|done].
    apply set_State_inv in ES as (l0 & r0 & -> & Hl0 & ->).
    apply (Hrest (<[l0 := with_State StateRemoved r0]> σ)); [|done].
    intros l. destruct (decide (l = l0)) as [->|Hne].
    + rewrite lookup_insert_eq. right. exists r0. split; [done|]. left.
      split; [done|]. by eapply Work_value_elem.
    + rewrite lookup_insert_ne by done. by left.
  - destruct (String_returns σ (Remove res)); simpl in H; [|done].
    destruct (String_returns σ (Add res)); simpl in H; [|done].
    injection H as <-. intros l. by left.
Qed.

Lemma Update_frame h id σ σ' :
  Update h id σ = Some σ' →
  ∀ l : loc, σ' !! l = σ !! l ∨ ∃ r, σ !! l = Some r ∧ σ' !! l = Some (with_Tick 0 r).
Proof.
  unfold Update. destruct (Work h !! id) as [v|]; [|intros [= <-] l; by left].
  unfold LoadInt32. destruct (deref σ v) as [rv|] eqn:E; simpl; [|done].
  intros (l0 & r0 & -> & Hl0 & ->)%AddInt32_inv l.
  simpl in E. rewrite Hl0 in E. injection E as <-.
  destruct (decide (l = l0)) as [->|Hne].
  - right. exists r0. rewrite lookup_insert_eq, wrap32_cancel. done.
  - left. by rewrite lookup_insert_ne.
Qed.

Lemma ticked_not_Unused σ σ' (l : loc) :
  ticked σ σ' → is_Unused σ l = false → is_Unused σ' l = false.
Proof.
  intros Ht. specialize (Ht l). unfold record_ticked, is_Unused in *.
  destruct (σ !! l) as [r|], (σ' !! l) as [r'|]; try done.
  destruct Ht as (_ & Hs & _). intros Hu%Z.eqb_neq. apply Z.eqb_neq.
  unfold StateUsed, StateUnused, StateSwitching in *.
  destruct Hs as [?|[? ?]]; lia.
Qed.

Lemma checkSwitchValidator_adds h v σ out σ' (l : loc) :
  checkSwitchValidator h v σ = Some (out, σ') →
  (adds_for l out ≤ 1)%nat
  ∧ (adds_for l out = 1%nat →
     is_Unused σ l = true ∧ is_Unused σ' l = false ∧ Some l ∈ Back h).
Proof.
  intros H. apply checkSwitchValidator_inv in H
    as [[-> ->]|(l0 & r0 & back & σ1 & -> & Hl0 & Ht & Hs0 & HP & -> & -> & _)].
  - unfold adds_for. simpl. split; [lia | done].
  - unfold adds_for. simpl. destruct (decide (back = Some l)) as [->|Hne].
    + rewrite bool_decide_true by done. simpl. split; [lia|]. intros _.
      destruct (pick_loop_inv _ _ _ _ HP) as [[? _]|(lb & rb & [= <-] & Hin & Hlb & Hsb & ->)];
        [done|].
      assert (l0 ≠ l) as Hl.
      { intros ->. rewrite Hl0 in Hlb. injection Hlb as <-.
        unfold StateUsed, StateUnused in *. lia. }
      unfold is_Unused. rewrite Hlb, Hsb.
      rewrite lookup_insert_ne, lookup_insert_eq by done. done.
    + rewrite bool_decide_false by done. simpl. split; [lia | done].
Qed.

Lemma work_body_adds h v σ out σ' (l : loc) :
  work_body h v σ = Some (out, σ') →
  (adds_for l out ≤ 1)%nat
  ∧ (adds_for l out = 1%nat →
     is_Unused σ l = true ∧ is_Unused σ' l = false ∧ Some l ∈ Back h).
Proof.
  unfold work_body. destruct (deref σ v) as [r|] eqn:E; simpl; [|done].
  destruct (Z.eqb_spec (State r) StateUsed) as [Hs|Hs].
  - destruct (AddInt32 v 1 σ) as [σ1|] eqn:EA; simpl; [|done].
    apply AddInt32_inv in EA as (l0 & r0 & -> & Hl0 & ->).
    simpl in E. rewrite Hl0 in E. injection E as <-.
    intros H. destruct (checkSwitchValidator_adds _ _ _ _ _ l H) as [Hle Hone].
    split; [done|]. intros H1. destruct (Hone H1) as (Hu & Hu' & Hin).
    split_and!; try done.
    destruct (decide (l = l0)) as [->|Hne].
    + unfold is_Unused in Hu. rewrite lookup_insert_eq in Hu. simpl in Hu.
      unfold is_Unused. by rewrite Hl0.
    + unfold is_Unused in *. by rewrite lookup_insert_ne in Hu.
  - apply checkSwitchValidator_adds.
Qed.

Lemma adds_for_app l out1 out2 :
  adds_for l (out1 ++ out2) = (adds_for l out1 + adds_for l out2)%nat.
Proof. unfold adds_for. by rewrite List.filter_app, length_app. Qed.

Lemma work_loop_adds h (l : loc) (vs : list ptr) : ∀ σ out σ',
  work_loop h vs σ = Some (out, σ') →
  (adds_for l out ≤ 1)%nat
  ∧ (is_Unused σ l = false → adds_for l out = 0%nat)
  ∧ (adds_for l out = 1%nat → is_Unused σ' l = false ∧ Some l ∈ Back h).
Proof.
  induction vs as [|v vs IH]; intros σ out σ'; simpl.
  - intros [= <- <-]. unfold adds_for. simpl. split_and!; [lia | done | lia].
  - destruct (work_body h v σ) as [[out1 σ1]|] eqn:E1; simpl; [|done].
    destruct (work_loop h vs σ1) as [[out2 σ2]|] eqn:E2; simpl; [|done].
    intros [= <- <-]. rewrite adds_for_app.
    destruct (work_body_adds _ _ _ _ _ l E1) as [Hle1 Hone1].
    destruct (IH _ _ _ E2) as (Hle2 & Hzero2 & Hone2).
    pose proof (work_body_ticked _ _ _ _ _ E1) as Ht1.
    pose proof (work_loop_ticked _ _ _ _ _ E2) as Ht2.
    destruct (decide (adds_for l out1 = 1%nat)) as [H1|H1].
    + destruct (Hone1 H1) as (Hu & Hu1 & Hin). rewrite (Hzero2 Hu1), H1.
      split_and!; [lia | congruence |]. intros _. split; [|done].
      by eapply ticked_not_Unused.
    + assert (adds_for l out1 = 0%nat) as -> by lia. simpl.
      split_and!; [done | | done].
      intros Hu. apply Hzero2. by eapply ticked_not_Unused.
Qed.

Lemma added_app l tr1 tr2 : added l (tr1 ++ tr2) = (added l tr1 + added l tr2)%nat.
Proof. unfold added. by rewrite List.filter_app, length_app. Qed.

Lemma added_Emitted l out : added l (Emitted <$> out) = adds_for l out.
Proof.
  unfold added, adds_for. induction out as [|sv out IH]; simpl; [done|].
  destruct (bool_decide (Add sv = Some l)); simpl; [f_equal|]; exact IH.
Qed.

Lemma switched_not_Unused h σ σ' (l : loc) :
  (∀ l : loc, record_switched h l (σ !! l) (σ' !! l)) →
  is_Unused σ l = false → is_Unused σ' l = false.
Proof.
  intros H. specialize (H l). unfold is_Unused.
  destruct H as [->|(r & -> & [[-> _]|[-> _]])]; done.
Qed.

Lemma Update_not_Unused h id σ σ' (l : loc) :
  Update h id σ = Some σ' → is_Unused σ l = false → is_Unused σ' l = false.
Proof.
  intros H. unfold is_Unused.
  destruct (Update_frame _ _ _ _ H l) as [->|(r & Hr & ->)]; [done|].
  by rewrite Hr.
Qed.

(** X5.  In any execution, a record is named as the [Add] of a request at
    most once; when it has been, it is an entry of the pool and it is not
    [Unused] any more. *)
Theorem run_candidate_named_once (h : HealthMgr) (σ0 σ : store) (tr : list event)
    (l : loc) :
  run h σ0 tr σ →
  (added l tr ≤ 1)%nat
  ∧ (added l tr = 1%nat → Some l ∈ Back h ∧ is_Unused σ l = false).
Proof.
  intros Hrun.
  assert (added l tr = 0%nat
          ∨ (added l tr = 1%nat ∧ Some l ∈ Back h ∧ is_Unused σ l = false)) as Hinv.
  { induction Hrun as [σ|σ1 tr σ2 evs σ3 Hrun IH Hstep]; [by left|].
    rewrite added_app.
    destruct Hstep as [vs σ out σ' Hvs Hw|res σ σ' Hres|id σ σ' Hup].
    - rewrite added_Emitted.
      destruct (work_loop_adds h l _ _ _ _ Hw) as (Hle & Hzero & Hone).
      destruct IH as [E0|(E1 & Hin & Hu)].
      + rewrite E0. simpl.
        destruct (decide (adds_for l out = 0%nat)) as [?|Hpos]; [by left|].
        right. assert (adds_for l out = 1%nat) as H1 by lia.
        destruct (Hone H1). done.
      + right. rewrite E1, (Hzero Hu). split_and!; [done | done |].
        eapply ticked_not_Unused; [by eapply work_loop_ticked | done].
    - change (added l [Answered res]) with 0%nat. rewrite Nat.add_0_r.
      destruct IH as [E0|(E1 & Hin & Hu)]; [by left|].
      right. split_and!; try done.
      eapply switched_not_Unused; [by eapply switchResult_switched | done].
    - change (added l []) with 0%nat. rewrite Nat.add_0_r.
      destruct IH as [E0|(E1 & Hin & Hu)]; [by left|].
      right. split_and!; try done. by eapply Update_not_Unused. }
  destruct Hinv as [->|(-> & ? & ?)]; split; [lia | done | lia | done].
Qed.

Lemma run_candidate_named_once_witness :
  (added 3%nat ex_trace ≤ 1)%nat
  ∧ Some 3%nat ∈ Back ex_mgr
  ∧ is_Unused (ex_store_at 2 601 StateRemoved StateUsed) 3%nat = false.
Proof.
  pose proof (run_candidate_named_once ex_mgr _ _ ex_trace 3%nat ex_run) as [H1 H2].
  split; [exact H1 | apply H2; reflexivity].
Defined.

(** X6.  No operation sets a record to [Unused]: a record that is not
    [Unused] is not [Unused] at any later point of an execution. *)
Theorem run_never_back_to_Unused (h : HealthMgr) (σ0 σ : store) (tr : list event)
    (l : loc) :
  run h σ0 tr σ → is_Unused σ0 l = false → is_Unused σ l = false.
Proof.
  intros Hrun Hu. induction Hrun as [σ|σ1 tr σ2 evs σ3 Hrun IH Hstep]; [done|].
  specialize (IH Hu).
  destruct Hstep as [vs σ out σ' Hvs Hw|res σ σ' Hres|id σ σ' Hup].
  - eapply ticked_not_Unused; [by eapply work_loop_ticked | done].
  - eapply switched_not_Unused; [by eapply switchResult_switched | done].
  - by eapply Update_not_Unused.
Qed.

Lemma run_never_back_to_Unused_witness :
  is_Unused (ex_store_at 1 601 StateRemoved StateUsed) 3%nat = false.
Proof.
  apply (run_never_back_to_Unused ex_mgr (ex_store_at 1 601 StateSwitching StateSwitching)
           _ [Answered (ex_request EmptyString 1)] 3%nat);
    [apply ex_run_answer | reflexivity].
Defined.

(** X7.  [Removed] is final for a record outside the pool: in any
    execution from a store where it is [Removed], it stays [Removed], keeps
    its ID, IP, port and validator, and no request is emitted for it. *)
Theorem run_Removed_is_final (h : HealthMgr) (σ0 σ : store) (tr : list event)
    (l : loc) (r0 : Health) :
  Some l ∉ Back h → run h σ0 tr σ →
  σ0 !! l = Some r0 → State r0 = StateRemoved →
  emitted l tr = 0%nat
  ∧ ∃ r, σ !! l = Some r ∧ State r = StateRemoved ∧ same_identity r0 r.
Proof.
  intros Hb Hrun Hl0 Hs0.
  induction Hrun as [σ|σ1 tr σ2 evs σ3 Hrun IH Hstep].
  - split; [done|]. exists r0. split_and!; [done | done | apply same_identity_refl].
  - destruct (IH Hl0) as (He & r & Hl & Hs & Hid). rewrite emitted_app, He. simpl.
    destruct Hstep as [vs σ out σ' Hvs Hw|res σ σ' Hres|id σ σ' Hup].
    + rewrite emitted_Emitted.
      destruct (work_loop_requests h l _ _ _ _ Hw) as (_ & Hz & _). split.
      * apply Hz. intros q Hq. rewrite Hl in Hq. injection Hq as <-. by rewrite Hs.
      * pose proof (work_loop_ticked _ _ _ _ _ Hw l) as Ht.
        unfold record_ticked in Ht. rewrite Hl in Ht.
        destruct (σ' !! l) as [r'|]; [|done].
        destruct Ht as ((?&?&?&?) & Hst & _). exists r'.
        destruct Hid as (?&?&?&?).
        split_and!; [done | | repeat split; congruence].
        unfold StateUsed, StateUnused, StateSwitching, StateRemoved in *.
        destruct Hst as [?|[? ?]]; lia.
    + split; [done|].
      destruct (switchResult_switched _ _ _ _ Hres l) as [E|(q & Hq & [[E _]|[_ ?]])];
        [| |done].
      * exists r. by rewrite E.
      * rewrite Hl in Hq. injection Hq as <-. exists (with_State StateRemoved r).
        split_and!; [done | done |]. destruct Hid as (?&?&?&?). by repeat split.
    + split; [done|].
      destruct (Update_frame _ _ _ _ Hup l) as [E|(q & Hq & E)].
      * exists r. by rewrite E.
      * rewrite Hl in Hq. injection Hq as <-. exists (with_Tick 0 r).
        split_and!; [done | done |]. destruct Hid as (?&?&?&?). by repeat split.
Qed.

Lemma run_Removed_is_final_witness :
  emitted 2%nat [] = 0%nat
  ∧ ∃ r, ex_store_at 2 601 StateRemoved StateUsed !! 2%nat = Some r
         ∧ State r = StateRemoved
         ∧ same_identity (mkHealth "C" 601 StateRemoved [x0c]) r.
Proof.
  apply (run_Removed_is_final ex_mgr (ex_store_at 1 601 StateRemoved StateUsed)
           _ [] 2%nat);
    [unfold ex_mgr; simpl; by_elem | apply ex_run_tick | reflexivity | reflexivity].
Defined.

(** X8.  What an outcome can change.  [switchResult] leaves a record as
    it was, or sets the state of a record held by the active map to
    [Removed], or sets the state of a pool record to [Used]; it writes no
    tick and no other field. *)
Theorem switchResult_frame (h : HealthMgr) (res : SwitchValidator) (σ σ' : store) :
  switchResult h res σ = Some σ' →
  ∀ l : loc, record_switched h l (σ !! l) (σ' !! l).
Proof. apply switchResult_switched. Qed.

Lemma switched_String_returns h σ σ' p :
  (∀ l : loc, record_switched h l (σ !! l) (σ' !! l)) →
  String_returns σ' p = String_returns σ p.
Proof.
  intros H. unfold String_returns. destruct p as [l|]; simpl; [|done].
  destruct (H l) as [->|(r & -> & [[-> _]|[-> _]])]; done.
Qed.

Lemma switchResult_frame_witness :
  record_switched ex_mgr 2%nat
    (ex_store 601 StateSwitching StateSwitching !! 2%nat)
    (ex_store 601 StateRemoved StateUsed !! 2%nat)
  ∧ record_switched ex_mgr 4%nat
      (ex_store 601 StateSwitching StateSwitching !! 4%nat)
      (ex_store 601 StateRemoved StateUsed !! 4%nat).
Proof.
  split; apply (switchResult_frame ex_mgr (ex_request EmptyString 1));
    vm_compute; reflexivity.
Defined.

Lemma switchResult_Remote_prints h res σ σ' :
  from res = 1 → switchResult h res σ = Some σ' →
  String_returns σ' (Remove res) = Some () ∧ String_returns σ' (Add res) = Some ().
Proof.
  intros Hf. unfold switchResult. rewrite Hf. simpl.
  match goal with |- (?m ≫= _) = _ → _ => destruct m as [σ1|]; simpl; [|done] end.
  destruct (String_returns σ1 (Remove res)) as [[]|] eqn:E1; simpl; [|done].
  destruct (String_returns σ1 (Add res)) as [[]|] eqn:E2; simpl; [|done].
  by intros [= <-].
Qed.

(** X9.  A [Remote] outcome whose [Remove] or [Add] cannot be printed (a
    nil pointer, or a record with a nil validator) makes [switchResult]
    panic, be it a success or a failure: the log line calls [String] on
    both.  The request that the tick emits for an exhausted pool has a nil
    [Add], so its answer is such an outcome. *)
Theorem switchResult_Remote_unprintable_panics (h : HealthMgr)
    (res : SwitchValidator) (σ : store) :
  from res = 1 →
  String_returns σ (Remove res) = None ∨ String_returns σ (Add res) = None →
  switchResult h res σ = None.
Proof.
  intros Hf Hn. destruct (switchResult h res σ) as [σ'|] eqn:E; [|done].
  destruct (switchResult_Remote_prints _ _ _ _ Hf E) as [H1 H2].
  pose proof (switchResult_switched _ _ _ _ E) as Hs.
  rewrite (switched_String_returns h σ σ' _ Hs) in H1.
  rewrite (switched_String_returns h σ σ' _ Hs) in H2.
  destruct Hn; congruence.
Qed.

Lemma switchResult_Remote_unprintable_panics_witness :
  switchResult solo_mgr
    {| Remove := Some 0%nat; Add := None; Resion := "rejected"; from := 1 |}
    (solo_store 601 StateSwitching) = None.
Proof.
  apply switchResult_Remote_unprintable_panics; [reflexivity | right; reflexivity].
Defined.

Lemma switchResult_success_no_match h res σ rm ad vr va :
  from res = 1 → Resion res = EmptyString →
  deref σ (Remove res) = Some rm → Val rm = Some vr →
  deref σ (Add res) = Some ad → Val ad = Some va →
  Forall (λ p, ∃ r, deref σ p = Some r ∧ ID r ≠ ID ad) (Back h) →
  (∀ (lr : loc) rr, Work h !! ID rm = Some (Some lr) → σ !! lr = Some rr →
     switchResult h res σ = Some (<[lr := with_State StateRemoved rr]> σ))
  ∧ (Work h !! ID rm = None → switchResult h res σ = Some σ).
Proof.
  intros Hf Hr Hrm Hvr Had Hva Hback. split.
  - intros lr rr HW Hlr. unfold switchResult. rewrite Hf, Hr, Hrm. simpl.
    rewrite HW, (set_State_Some _ _ _ _ Hlr). simpl.
    destruct (deref_set_State_fwd σ lr rr StateRemoved _ _ Hlr Had)
      as (ad' & Had' & Hid' & Hval' & _).
    destruct (deref_set_State_fwd σ lr rr StateRemoved _ _ Hlr Hrm)
      as (rm' & Hrm' & _ & Hvrm' & _).
    rewrite (promote_loop_no_match (Back h) (Add res) _ ad' Had');
      [| by apply (Forall_other_ID_set_State σ lr rr _ (Back h) ad ad')].
    simpl. rewrite (String_returns_Some _ _ rm' vr Hrm') by congruence. simpl.
    by rewrite (String_returns_Some _ _ ad' va Had') by congruence.
  - intros HW. unfold switchResult. rewrite Hf, Hr, Hrm. simpl. rewrite HW. simpl.
    rewrite (promote_loop_no_match (Back h) (Add res) _ ad Had) by done.
    simpl. rewrite (String_returns_Some _ _ rm vr Hrm) by done. simpl.
    by rewrite (String_returns_Some _ _ ad va Had).
Qed.

(** X10.  A success outcome whose [Add] ID matches no pool record promotes
    nothing: the record that the active map holds for the [Remove] ID gets
    the state [Removed], keeps its other fields, and nothing else changes;
    when the active map has no such ID either, the store is left as it
    was. *)
Theorem switchResult_success_no_candidate (h : HealthMgr) (res : SwitchValidator)
    (σ : store) (rm ad : Health) (vr va : Validator) :
  from res = 1 → Resion res = EmptyString →
  deref σ (Remove res) = Some rm → Val rm = Some vr →
  deref σ (Add res) = Some ad → Val ad = Some va →
  Forall (λ p, ∃ r, deref σ p = Some r ∧ ID r ≠ ID ad) (Back h) →
  (∀ (lr : loc) rr, Work h !! ID rm = Some (Some lr) → σ !! lr = Some rr →
     ∃ σ' rr',
       switchResult h res σ = Some σ'
       ∧ σ' !! lr = Some rr' ∧ State rr' = StateRemoved
       ∧ same_identity rr rr' ∧ Tick rr' = Tick rr
       ∧ ∀ l : loc, l ≠ lr → σ' !! l = σ !! l)
  ∧ (Work h !! ID rm = None → switchResult h res σ = Some σ).
Proof.
  intros Hf Hr Hrm Hvr Had Hva Hback.
  destruct (switchResult_success_no_match h res σ rm ad vr va
              Hf Hr Hrm Hvr Had Hva Hback) as [Hknown Hunknown].
  split; [|exact Hunknown].
  intros lr rr HW Hlr.
  exists (<[lr := with_State StateRemoved rr]> σ), (with_State StateRemoved rr).
  split_and!.
  - by apply Hknown.
  - apply lookup_insert_eq.
  - reflexivity.
  - by repeat split.
  - reflexivity.
  - intros l Hne. by rewrite lookup_insert_ne.
Qed.

Lemma switchResult_success_no_candidate_witness :
  ∃ σ' rr',
    switchResult ex_mgr
      {| Remove := Some 2%nat; Add := Some 5%nat; Resion := EmptyString; from := 1 |}
      ex_store_stranger = Some σ'
    ∧ σ' !! 2%nat = Some rr' ∧ State rr' = StateRemoved
    ∧ same_identity (mkHealth "C" 601 StateSwitching [x0c]) rr' ∧ Tick rr' = 601
    ∧ ∀ l : loc, l ≠ 2%nat → σ' !! l = ex_store_stranger !! l.
Proof.
  apply (proj1 (switchResult_success_no_candidate ex_mgr
           {| Remove := Some 2%nat; Add := Some 5%nat; Resion := EmptyString; from := 1 |}
           ex_store_stranger
           (mkHealth "C" 601 StateSwitching [x0c]) (mkHealth "Z" 0 StateRemoved [x1a])
           {| Address := [x0c]; VotingPower := 1; PubKey := [] |}
           {| Address := [x1a]; VotingPower := 1; PubKey := [] |}
           eq_refl eq_refl eq_refl eq_refl eq_refl eq_refl
           ltac:(repeat constructor; eexists; (split; [reflexivity | discriminate]))));
    reflexivity.
Defined.

Lemma deref_retick σ (l : loc) t p :
  deref (alter (with_Tick t) l σ) p
  = (λ x, if decide (p = Some l) then with_Tick t x else x) <$> deref σ p.
Proof.
  destruct p as [l'|]; simpl; [|done]. rewrite lookup_alter.
  destruct (decide (l = l')) as [->|Hne].
  - destruct (σ !! l'); simpl; [|done]. by rewrite decide_True.
  - destruct (σ !! l'); simpl; [|done]. rewrite decide_False; [done | congruence].
Qed.

Lemma set_State_retick σ (l : loc) t v s :
  set_State v s (alter (with_Tick t) l σ)
  = alter (with_Tick t) l <$> set_State v s σ.
Proof.
  unfold set_State. destruct v as [l0|]; simpl; [|done].
  rewrite lookup_alter. destruct (decide (l = l0)) as [->|Hne].
  - destruct (σ !! l0) as [r|]; simpl; [|done].
    by rewrite insert_alter_eq, alter_insert_eq.
  - destruct (σ !! l0) as [r|]; simpl; [|done].
    by rewrite alter_insert_ne, insert_alter_ne.
Qed.

Lemma String_returns_retick σ (l : loc) t p :
  String_returns (alter (with_Tick t) l σ) p = String_returns σ p.
Proof.
  unfold String_returns. rewrite deref_retick.
  destruct (deref σ p); simpl; [|done]. by case_decide.
Qed.

Lemma promote_loop_retick (back : list ptr) add σ (l : loc) t :
  promote_loop back add (alter (with_Tick t) l σ)
  = alter (with_Tick t) l <$> promote_loop back add σ.
Proof.
  induction back as [|v back IH]; simpl; [done|].
  rewrite !deref_retick.
  destruct (deref σ v) as [r|]; simpl; [|done].
  destruct (deref σ add) as [a|]; simpl; [|done].
  assert (∀ (p : ptr) x, ID (if decide (p = Some l) then with_Tick t x else x) = ID x)
    as Hid by (intros; by case_decide).
  rewrite !Hid. destruct (String.eqb (ID r) (ID a)); [apply set_State_retick | apply IH].
Qed.

Lemma switchResult_retick h res σ (l : loc) t :
  switchResult h res (alter (with_Tick t) l σ)
  = alter (with_Tick t) l <$> switchResult h res σ.
Proof.
  unfold switchResult. destruct (from res =? 1); [|done].
  assert ((if String.eqb (Resion res) EmptyString
           then rm ← deref (alter (with_Tick t) l σ) (Remove res);
                σa ← match Work h !! ID rm with
                     | Some v => set_State v StateRemoved (alter (with_Tick t) l σ)
                     | None => Some (alter (with_Tick t) l σ)
                     end;
                promote_loop (Back h) (Add res) σa
           else Some (alter (with_Tick t) l σ))
          = alter (with_Tick t) l <$>
            (if String.eqb (Resion res) EmptyString
             then rm ← deref σ (Remove res);
                  σa ← match Work h !! ID rm with
                       | Some v => set_State v StateRemoved σ
                       | None => Some σ
                       end;
                  promote_loop (Back h) (Add res) σa
             else Some σ)) as ->.
  { destruct (String.eqb (Resion res) EmptyString); [|done].
    rewrite deref_retick. destruct (deref σ (Remove res)) as [rm|]; simpl; [|done].
    assert (ID (if decide (Remove res = Some l) then with_Tick t rm else rm) = ID rm)
      as -> by (by case_decide).
    destruct (Work h !! ID rm) as [v|].
    - rewrite set_State_retick.
      destruct (set_State v StateRemoved σ) as [σa|]; simpl; [|done].
      apply promote_loop_retick.
    - simpl. apply promote_loop_retick. }
  match goal with |- (_ <$> ?m) ≫= _ = _ => destruct m as [σ1|]; simpl; [|done] end.
  rewrite !String_returns_retick.
  destruct (String_returns σ1 (Remove res)); simpl; [|done].
  by destruct (String_returns σ1 (Add res)).
Qed.

Lemma Update_alter h id σ (l : loc) :
  Work h !! id = Some (Some l) → is_Some (σ !! l) →
  Update h id σ = Some (alter (with_Tick 0) l σ).
Proof.
  intros HW [r Hr]. rewrite (Update_known h id σ l r HW Hr).
  by rewrite (alter_alt_Some _ _ _ _ Hr).
Qed.

(** X11.  A liveness signal and an outcome commute: [Update id] then
    [switchResult res] ends in the same store as [switchResult res] then
    [Update id]. *)
Theorem Update_switchResult_commute (h : HealthMgr) (id : p2p_ID)
    (res : SwitchValidator) (σ σ1 : store) (l : loc) (r : Health) :
  Work h !! id = Some (Some l) → σ !! l = Some r →
  switchResult h res σ = Some σ1 →
  ∃ σ2 σ12, Update h id σ = Some σ2 ∧ switchResult h res σ2 = Some σ12
            ∧ Update h id σ1 = Some σ12.
Proof.
  intros HW Hl Hs. exists (alter (with_Tick 0) l σ), (alter (with_Tick 0) l σ1).
  split_and!.
  - apply Update_alter; [done | by eexists].
  - by rewrite switchResult_retick, Hs.
  - apply Update_alter; [done|].
    destruct (switchResult_switched _ _ _ _ Hs l) as [->|(q & _ & [[-> _]|[-> _]])];
      by eexists.
Qed.

Lemma Update_switchResult_commute_witness :
  ∃ σ2 σ12,
    Update ex_mgr "C" (ex_store 601 StateSwitching StateSwitching) = Some σ2
    ∧ switchResult ex_mgr (ex_request EmptyString 1) σ2 = Some σ12
    ∧ Update ex_mgr "C" (ex_store 601 StateRemoved StateUsed) = Some σ12.
Proof.
  apply (Update_switchResult_commute ex_mgr "C" (ex_request EmptyString 1)
           (ex_store 601 StateSwitching StateSwitching)
           (ex_store 601 StateRemoved StateUsed)
           2%nat (mkHealth "C" 601 StateSwitching [x0c]));
    first [reflexivity | (vm_compute; reflexivity)].
Defined.

Lemma promote_loop_inv_strong (back : list ptr) add σ σ' a :
  deref σ add = Some a → promote_loop back add σ = Some σ' →
  (Forall (λ p, ∃ r, deref σ p = Some r ∧ ID r ≠ ID a) back ∧ σ' = σ)
  ∨ ∃ (pre post : list ptr) (la : loc) ra,
      back = pre ++ Some la :: post
      ∧ Forall (λ p, ∃ r, deref σ p = Some r ∧ ID r ≠ ID a) pre
      ∧ σ !! la = Some ra ∧ ID ra = ID a
      ∧ σ' = <[la := with_State StateUsed ra]> σ.
Proof.
  intros Ha. induction back as [|v back IH]; simpl.
  - intros [= <-]. left. by split.
  - destruct (deref σ v) as [r|] eqn:E; simpl; [|done]. rewrite Ha. simpl.
    destruct (String.eqb_spec (ID r) (ID a)) as [Hid|Hid].
    + intros (l & r' & -> & Hl & ->)%set_State_inv. simpl in E.
      rewrite Hl in E. injection E as ->. right.
      exists [], back, l, r. split_and!; try done.
    + intros H. destruct (IH H) as [[HF ->]|(pre & post & la & ra & -> & HF & ? & ? & ->)].
      * left. split; [|done]. constructor; [|done]. by exists r.
      * right. exists (v :: pre), post, la, ra. split_and!; try done.
        constructor; [|done]. by exists r.
Qed.

Lemma switchResult_failure_id h res σ rr vr ra va :
  from res = 1 → Resion res ≠ EmptyString →
  deref σ (Remove res) = Some rr → Val rr = Some vr →
  deref σ (Add res) = Some ra → Val ra = Some va →
  switchResult h res σ = Some σ.
Proof.
  intros Hf Hr Hrm Hvr Had Hva. unfold switchResult. rewrite Hf. simpl.
  destruct (String.eqb_spec (Resion res) EmptyString); [done|]. simpl.
  rewrite (String_returns_Some _ _ _ _ Hrm Hvr). simpl.
  by rewrite (String_returns_Some _ _ _ _ Had Hva).
Qed.

Lemma String_returns_inv σ p :
  String_returns σ p = Some () → ∃ r v, deref σ p = Some r ∧ Val r = Some v.
Proof.
  unfold String_returns. destruct (deref σ p) as [r|]; simpl; [|done].
  destruct (Val r) as [v|] eqn:E; simpl; [|done]. intros _. by exists r, v.
Qed.

(** The success branch, cut in two: the removal, then the promotion. *)
Lemma switchResult_success_steps h res σ rm σa σ1 :
  from res = 1 → Resion res = EmptyString →
  deref σ (Remove res) = Some rm →
  match Work h !! ID rm with
  | Some v => set_State v StateRemoved σ
  | None => Some σ
  end = Some σa →
  promote_loop (Back h) (Add res) σa = Some σ1 →
  String_returns σ (Remove res) = Some () → String_returns σ (Add res) = Some () →
  switchResult h res σ = Some σ1.
Proof.
  intros Hf Hr Hrm Ha Hp H1 H2. unfold switchResult.
  rewrite Hf, Hr, Hrm. simpl. rewrite Ha. simpl. rewrite Hp. simpl.
  assert (∀ p, String_returns σ1 p = String_returns σ p) as Hsr.
  { intros p. transitivity (String_returns σa p).
    - destruct (promote_loop_inv _ _ _ _ Hp) as [->|(la & ra & _ & Hla & ->)]; [done|].
      by apply String_returns_set_State.
    - destruct (Work h !! ID rm) as [v|]; [|by injection Ha as <-].
      apply set_State_inv in Ha as (l0 & r0 & -> & Hl0 & ->).
      by apply String_returns_set_State. }
  by rewrite !Hsr, H1, H2.
Qed.

Lemma switchResult_success_inv h res σ σ' :
  from res = 1 → Resion res = EmptyString → switchResult h res σ = Some σ' →
  ∃ rm σa, deref σ (Remove res) = Some rm
    ∧ match Work h !! ID rm with
      | Some v => set_State v StateRemoved σ
      | None => Some σ
      end = Some σa
    ∧ promote_loop (Back h) (Add res) σa = Some σ'.
Proof.
  intros Hf Hr. unfold switchResult. rewrite Hf, Hr. simpl.
  destruct (deref σ (Remove res)) as [rm|]; simpl; [|done].
  destruct (match Work h !! ID rm with
            | Some v => set_State v StateRemoved σ
            | None => Some σ
            end) as [σa|] eqn:Ea; simpl; [|done].
  destruct (promote_loop (Back h) (Add res) σa) as [σ1|] eqn:Ep; simpl; [|done].
  destruct (String_returns σ1 (Remove res)); simpl; [|done].
  destruct (String_returns σ1 (Add res)); simpl; [|done].
  intros [= <-]. by exists rm, σa.
Qed.

Lemma with_State_absorb s s' r : with_State s (with_State s' r) = with_State s r.
Proof. done. Qed.

Lemma switchResult_again h res σ σ' :
  switchResult h res σ = Some σ' → switchResult h res σ' = Some σ'.
Proof.
  intros H. destruct (Z.eq_dec (from res) 1) as [Hf|Hf];
    [|rewrite switchResult_local in H by done; injection H as <-;
      by apply switchResult_local].
  pose proof (switchResult_switched _ _ _ _ H) as Hsw.
  destruct (switchResult_Remote_prints _ _ _ _ Hf H) as [P1 P2].
  destruct (String.eqb_spec (Resion res) EmptyString) as [Hr|Hr].
  - destruct (switchResult_success_inv _ _ _ _ Hf Hr H) as (rm & σa & Hrm & Ha & Hp).
    assert (∃ rm', deref σ' (Remove res) = Some rm' ∧ ID rm' = ID rm) as (rm' & Hrm' & Hid).
    { destruct (Remove res) as [l|]; [|done]. simpl in *.
      destruct (Hsw l) as [E|(q & Hq & [[E _]|[E _]])].
      - exists rm. by rewrite E.
      - rewrite Hrm in Hq. injection Hq as <-. eexists. by rewrite E.
      - rewrite Hrm in Hq. injection Hq as <-. eexists. by rewrite E. }
    (* the store after the removal, and after the removal done again *)
    assert (∃ σa', match Work h !! ID rm' with
                   | Some v => set_State v StateRemoved σ'
                   | None => Some σ'
                   end = Some σa'
                   ∧ promote_loop (Back h) (Add res) σa' = Some σ') as (σa' & Ha' & Hp').
    { rewrite Hid.
      destruct (String_returns_inv _ _ P2) as (ad' & va & Had' & _).
      assert (∃ ada, deref σa (Add res) = Some ada) as [ada Hada].
      { destruct (Add res) as [l|]; [|done]. simpl in *.
        destruct (promote_loop_inv _ _ _ _ Hp) as [->|(la & ra & _ & Hla & ->)];
          [by eexists|].
        destruct (decide (l = la)) as [->|Hne]; [by eexists|].
        rewrite lookup_insert_ne in Had' by done. by eexists. }
      destruct (Work h !! ID rm) as [v|] eqn:EW.
      - apply set_State_inv in Ha as (lr & rr & -> & Hlr & ->).
        destruct (promote_loop_inv_strong _ _ _ _ _ Hada Hp)
          as [[HF ->]|(pre & post & la & ra & HB & HF & Hla & Hra & ->)].
        + exists (<[lr := with_State StateRemoved rr]> σ). split; [|done].
          unfold set_State. simpl. rewrite lookup_insert_eq. simpl.
          by rewrite insert_insert_eq.
        + destruct (decide (la = lr)) as [->|Hne].
          * rewrite lookup_insert_eq in Hla. injection Hla as <-.
            rewrite insert_insert_eq, with_State_absorb.
            exists (<[lr := with_State StateRemoved rr]> σ). split.
            -- unfold set_State. simpl. rewrite lookup_insert_eq. simpl.
               by rewrite insert_insert_eq.
            -- rewrite HB.
               rewrite (promote_loop_first_match pre post lr (Add res) _ ada
                          (with_State StateRemoved rr) Hada HF);
                 [|apply lookup_insert_eq | done].
               by rewrite insert_insert_eq.
          * rewrite lookup_insert_ne in Hla by done.
            exists (<[la := with_State StateUsed ra]> (<[lr := with_State StateRemoved rr]> σ)).
            split.
            -- unfold set_State. simpl.
               rewrite lookup_insert_ne, lookup_insert_eq by done. simpl.
               rewrite (insert_insert_ne _ la lr) by done.
               by rewrite insert_insert_eq.
            -- set (σb := <[lr := with_State StateRemoved rr]> σ) in *.
               assert (σb !! la = Some ra) as Hlb
                 by (unfold σb; by rewrite lookup_insert_ne).
               destruct (deref_set_State_fwd σb la ra StateUsed _ _ Hlb Hada)
                 as (adb & Hadb & Hidb & _).
               rewrite HB.
               rewrite (promote_loop_first_match pre post la (Add res) _ adb
                          (with_State StateUsed ra) Hadb);
                 [by rewrite insert_insert_eq
                 | by apply (Forall_other_ID_set_State σb la ra _ pre ada adb)
                 | apply lookup_insert_eq
                 | simpl; congruence].
      - injection Ha as <-. exists σ'. split; [done|].
        destruct (promote_loop_inv_strong _ _ _ _ _ Hada Hp)
          as [[HF ->]|(pre & post & la & ra & HB & HF & Hla & Hra & ->)]; [done|].
        destruct (deref_set_State_fwd σ la ra StateUsed _ _ Hla Hada)
          as (adb & Hadb & Hidb & _).
        rewrite HB.
        rewrite (promote_loop_first_match pre post la (Add res) _ adb
                   (with_State StateUsed ra) Hadb);
          [by rewrite insert_insert_eq
          | by apply (Forall_other_ID_set_State σ la ra _ pre ada adb)
          | apply lookup_insert_eq
          | simpl; congruence]. }
    by apply (switchResult_success_steps h res σ' rm' σa' σ').
  - destruct (String_returns_inv _ _ P1) as (r1 & v1 & D1 & V1).
    destruct (String_returns_inv _ _ P2) as (r2 & v2 & D2 & V2).
    by apply (switchResult_failure_id h res σ' r1 v1 r2 v2).
Qed.

(** X12.  Applying the same outcome a second time changes nothing. *)
Theorem switchResult_idempotent (h : HealthMgr) (res : SwitchValidator) (σ σ' : store) :
  switchResult h res σ = Some σ' → switchResult h res σ' = Some σ'.
Proof. apply switchResult_again. Qed.

Lemma healthGoroutine_emits_local h (evs : list loop_event) : ∀ σ out σ',
  healthGoroutine h evs σ = Some (out, σ') →
  ∀ sv, sv ∈ out → from sv = 0 ∧ Resion sv = "Switch".
Proof.
  induction evs as [|[vs|s|] evs IH]; intros σ out σ'; simpl.
  - intros [= <- <-] sv Hin. by apply elem_of_nil in Hin.
  - destruct (work_loop h vs σ) as [[out1 σ1]|] eqn:E1; simpl; [|done].
    destruct (healthGoroutine h evs σ1) as [[out2 σ2]|] eqn:E2; simpl; [|done].
    intros [= <- <-] sv [Hin|Hin]%elem_of_app.
    + destruct (work_loop_inv _ _ _ _ _ E1) as [_ Hout].
      destruct (Hout sv Hin) as (l & r & r' & _ & _ & ? & ? & _). done.
    + by apply (IH _ _ _ E2).
  - destruct s as [res|]; simpl; [|done].
    destruct (switchResult h res σ) as [σ1|]; simpl; [|done]. apply IH.
  - intros [= <- <-] sv Hin. by apply elem_of_nil in Hin.
Qed.

Lemma switchResult_idempotent_witness :
  switchResult ex_mgr (ex_request EmptyString 1) (ex_store 601 StateRemoved StateUsed)
  = Some (ex_store 601 StateRemoved StateUsed).
Proof.
  apply (switchResult_idempotent ex_mgr (ex_request EmptyString 1)
           (ex_store 601 StateSwitching StateSwitching)).
  vm_compute. reflexivity.
Defined.

Lemma healthGoroutine_quit h (evs rest : list loop_event) : ∀ σ,
  healthGoroutine h (evs ++ QuitC :: rest) σ = healthGoroutine h evs σ.
Proof.
  induction evs as [|[vs|s|] evs IH]; intros σ; simpl; [done | | | done].
  - destruct (work_loop h vs σ) as [[out1 σ1]|]; simpl; [|done]. by rewrite IH.
  - destruct s as [res|]; simpl; [|done].
    destruct (switchResult h res σ) as [σ1|]; simpl; [|done]. apply IH.
Qed.

(** X13.  The loop ignores what does not come from [Remote].  If every
    value received from the channel has an origin other than 1, as the
    requests of the ticks have, the loop ends in the same store and emits
    the same requests as if nothing had been received; and every request
    that the loop emits has an origin other than 1.  The loop stops at the
    quit signal: whatever is scheduled after it is not served. *)
Theorem healthGoroutine_ignores_local_requests (h : HealthMgr)
    (evs : list loop_event) (σ : store) :
  Forall (λ e, ∀ s, e = RecvSwitch s → ∃ res, s = Some res ∧ from res ≠ 1) evs →
  healthGoroutine h evs σ
  = healthGoroutine h (List.filter (λ e, negb (is_RecvSwitch e)) evs) σ
  ∧ (∀ out σ', healthGoroutine h evs σ = Some (out, σ') →
       ∀ sv, sv ∈ out → from sv ≠ 1)
  ∧ ∀ rest, healthGoroutine h (evs ++ QuitC :: rest) σ = healthGoroutine h evs σ.
Proof.
  intros HF. split_and!; [| |intros rest; apply healthGoroutine_quit].
  - revert σ. induction HF as [|e evs He HF IH]; intros σ; [done|].
    destruct e as [vs|s|]; simpl.
    + destruct (work_loop h vs σ) as [[out1 σ1]|]; simpl; [|done]. by rewrite IH.
    + destruct (He s eq_refl) as (res & -> & Hf). simpl.
      rewrite switchResult_local by done. simpl. apply IH.
    + done.
  - intros out σ' H sv Hin.
    destruct (healthGoroutine_emits_local h evs σ out σ' H sv Hin) as [-> _]. done.
Qed.

Lemma healthGoroutine_ignores_local_requests_witness :
  let σ := ex_store_at 0 600 StateUsed StateUnused in
  healthGoroutine ex_mgr ex_schedule σ
  = healthGoroutine ex_mgr (List.filter (λ e, negb (is_RecvSwitch e)) ex_schedule) σ
  ∧ (∀ out σ', healthGoroutine ex_mgr ex_schedule σ = Some (out, σ') →
       ∀ sv, sv ∈ out → from sv ≠ 1)
  ∧ ∀ rest, healthGoroutine ex_mgr (ex_schedule ++ QuitC :: rest) σ
            = healthGoroutine ex_mgr ex_schedule σ.
Proof.
  apply (healthGoroutine_ignores_local_requests ex_mgr ex_schedule
           (ex_store_at 0 600 StateUsed StateUnused)).
  unfold ex_schedule. repeat constructor; intros s Hs; try discriminate.
  injection Hs as <-. eexists. split; [reflexivity | discriminate].
Defined.

(** The schedule of the example: the tick after the quit signal is not
    served; A and B have aged twice, C once past the threshold. *)
Example ex_schedule_result :
  healthGoroutine ex_mgr ex_schedule (ex_store_at 0 600 StateUsed StateUnused)
  = Some ([ex_request "Switch" 0], ex_store_at 2 601 StateSwitching StateSwitching).
Proof. vm_compute. reflexivity. Qed.

(** ** [HealthsByAddress] *)

Lemma bytes_Compare_refl a : bytes_Compare a a = 0.
Proof. induction a as [|x a IH]; simpl; [done|]. by rewrite N.compare_refl. Qed.

Lemma to_N_inj x y : to_N x = to_N y → x = y.
Proof.
  intros H. pose proof (of_to_N x) as Hx. rewrite H, of_to_N in Hx. by injection Hx.
Qed.

Lemma bytes_Compare_eq a b : bytes_Compare a b = 0 → a = b.
Proof.
  revert b. induction a as [|x a IH]; intros [|y b]; simpl; try done.
  destruct (N.compare_spec (to_N x) (to_N y)) as [E|?|?]; try done.
  intros H. f_equal; [by apply to_N_inj | by apply IH].
Qed.

Lemma bytes_Compare_gt_lt a b :
  bytes_Compare a b = 1 → bytes_Compare b a = -1.
Proof.
  revert b. induction a as [|x a IH]; intros [|y b]; simpl; try done.
  rewrite (N.compare_antisym (to_N x) (to_N y)).
  destruct (N.compare (to_N x) (to_N y)); simpl; try done. apply IH.
Qed.

Lemma bytes_Compare_lt_trans a b c :
  bytes_Compare a b = -1 → bytes_Compare b c = -1 → bytes_Compare a c = -1.
Proof.
  revert b c. induction a as [|x a IH]; intros [|y b] [|z c]; simpl; try done.
  destruct (N.compare_spec (to_N x) (to_N y)),
           (N.compare_spec (to_N y) (to_N z)),
           (N.compare_spec (to_N x) (to_N z));
    try done; try lia.
  apply IH.
Qed.

Lemma index_Some {A} (hs : list A) (i : Z) :
  0 <= i < Z.of_nat (length hs) → is_Some (index hs i).
Proof.
  intros H. unfold index. destruct (Z.leb_spec 0 i); [|lia].
  apply lookup_lt_is_Some. lia.
Qed.

Lemma index_None {A} (hs : list A) (i : Z) :
  ¬ (0 <= i < Z.of_nat (length hs)) → index hs i = None.
Proof.
  intros H. unfold index. destruct (Z.leb_spec 0 i); [|done].
  apply lookup_ge_None. lia.
Qed.

Lemma index_elem {A} (hs : list A) (i : Z) x : index hs i = Some x → x ∈ hs.
Proof.
  unfold index. destruct (0 <=? i); [|done]. apply list_elem_of_lookup_2.
Qed.

(** X14.  [Less] on records with validators: in range it returns whether
    the address at [i] is below the address at [j] in the byte order of
    [bytes.Compare]; two entries neither of which is less have the same
    address; and [Less] is irreflexive, asymmetric and transitive, as
    [sort.Sort] needs. *)
Theorem HealthsByAddress_Less_strict_order (σ : store) (hs : list ptr) :
  Forall (λ p, is_Some (address_of σ p)) hs →
  (∀ i j, 0 <= i < HealthsByAddress_Len hs → 0 <= j < HealthsByAddress_Len hs →
     ∃ p q a b, index hs i = Some p ∧ index hs j = Some q
       ∧ address_of σ p = Some a ∧ address_of σ q = Some b
       ∧ HealthsByAddress_Less σ hs i j = Some (bool_decide (bytes_Compare a b = -1))
       ∧ (HealthsByAddress_Less σ hs i j = Some false →
          HealthsByAddress_Less σ hs j i = Some false → a = b))
  ∧ (∀ i, 0 <= i < HealthsByAddress_Len hs →
       HealthsByAddress_Less σ hs i i = Some false)
  ∧ (∀ i j, HealthsByAddress_Less σ hs i j = Some true →
       HealthsByAddress_Less σ hs j i = Some false)
  ∧ (∀ i j k, HealthsByAddress_Less σ hs i j = Some true →
       HealthsByAddress_Less σ hs j k = Some true →
       HealthsByAddress_Less σ hs i k = Some true).
Proof.
  intros HF.
  assert (∀ i j p q a b, index hs i = Some p → index hs j = Some q →
            address_of σ p = Some a → address_of σ q = Some b →
            HealthsByAddress_Less σ hs i j = Some (bytes_Compare a b =? -1)) as Hval.
  { intros i j p q a b Hi Hj Ha Hb. unfold HealthsByAddress_Less, Less.
    rewrite Hi, Hj. simpl. rewrite Ha, Hb. done. }
  assert (∀ i j, HealthsByAddress_Less σ hs i j = Some true →
            ∃ p q a b, index hs i = Some p ∧ index hs j = Some q
              ∧ address_of σ p = Some a ∧ address_of σ q = Some b
              ∧ bytes_Compare a b = -1) as Hinv.
  { intros i j. unfold HealthsByAddress_Less, Less.
    destruct (index hs i) as [p|]; simpl; [|done].
    destruct (index hs j) as [q|]; simpl; [|done].
    destruct (address_of σ p) as [a|] eqn:Ea; simpl; [|done].
    destruct (address_of σ q) as [b|] eqn:Eb; simpl; [|done].
    intros [= H%Z.eqb_eq]. by exists p, q, a, b. }
  split_and!.
  - intros i j Hi Hj. unfold HealthsByAddress_Len in *.
    destruct (index_Some hs i Hi) as [p Hp], (index_Some hs j Hj) as [q Hq].
    destruct (proj1 (Forall_forall _ _) HF p (index_elem _ _ _ Hp)) as [a Ha].
    destruct (proj1 (Forall_forall _ _) HF q (index_elem _ _ _ Hq)) as [b Hb].
    exists p, q, a, b. split_and!; try done.
    + rewrite (Hval i j p q a b) by done. f_equal.
      destruct (Z.eqb_spec (bytes_Compare a b) (-1)).
      * by rewrite bool_decide_true.
      * by rewrite bool_decide_false.
    + rewrite (Hval i j p q a b), (Hval j i q p b a) by done.
      intros [= H1%Z.eqb_neq] [= H2%Z.eqb_neq]. apply bytes_Compare_eq.
      destruct (bytes_Compare_range a b) as [?|[?|H3]]; [done | done |].
      by apply bytes_Compare_gt_lt in H3.
  - intros i Hi. unfold HealthsByAddress_Len in *.
    destruct (index_Some hs i Hi) as [p Hp].
    destruct (proj1 (Forall_forall _ _) HF p (index_elem _ _ _ Hp)) as [a Ha].
    by rewrite (Hval i i p p a a), bytes_Compare_refl.
  - intros i j (p & q & a & b & Hp & Hq & Ha & Hb & Hc)%Hinv.
    rewrite (Hval j i q p b a) by done.
    by rewrite (bytes_Compare_antisym _ _ Hc).
  - intros i j k (p & q & a & b & Hp & Hq & Ha & Hb & Hc)%Hinv
                 (q' & s & b' & c & Hq' & Hs & Hb' & Hc' & Hd)%Hinv.
    rewrite Hq in Hq'. injection Hq' as <-. rewrite Hb in Hb'. injection Hb' as <-.
    rewrite (Hval i k p s a c) by done.
    by rewrite (bytes_Compare_lt_trans a b c).
Qed.

Lemma HealthsByAddress_Less_strict_order_witness :
  let σ := ex_store 0 StateUsed StateUnused in
  let hs := [Some 4%nat; Some 3%nat] in
  (∀ i j, 0 <= i < HealthsByAddress_Len hs → 0 <= j < HealthsByAddress_Len hs →
     ∃ p q a b, index hs i = Some p ∧ index hs j = Some q
       ∧ address_of σ p = Some a ∧ address_of σ q = Some b
       ∧ HealthsByAddress_Less σ hs i j = Some (bool_decide (bytes_Compare a b = -1))
       ∧ (HealthsByAddress_Less σ hs i j = Some false →
          HealthsByAddress_Less σ hs j i = Some false → a = b))
  ∧ (∀ i, 0 <= i < HealthsByAddress_Len hs →
       HealthsByAddress_Less σ hs i i = Some false)
  ∧ (∀ i j, HealthsByAddress_Less σ hs i j = Some true →
       HealthsByAddress_Less σ hs j i = Some false)
  ∧ (∀ i j k, HealthsByAddress_Less σ hs i j = Some true →
       HealthsByAddress_Less σ hs j k = Some true →
       HealthsByAddress_Less σ hs i k = Some true).
Proof.
  apply (HealthsByAddress_Less_strict_order (ex_store 0 StateUsed StateUnused)
           [Some 4%nat; Some 3%nat]).
  repeat constructor; eexists; reflexivity.
Defined.

Lemma index_insert_eq {A} (hs : list A) (i : Z) x :
  0 <= i < Z.of_nat (length hs) → index (<[Z.to_nat i := x]> hs) i = Some x.
Proof.
  intros H. unfold index. destruct (Z.leb_spec 0 i); [|lia].
  apply list_lookup_insert_eq. lia.
Qed.

Lemma index_insert_ne {A} (hs : list A) (i k : Z) x :
  0 <= i → k ≠ i → index (<[Z.to_nat i := x]> hs) k = index hs k.
Proof.
  intros Hi Hne. unfold index. destruct (Z.leb_spec 0 k); [|done].
  apply list_lookup_insert_ne. lia.
Qed.

(** X15.  [Swap] with both indices in range exchanges the two entries and
    changes nothing else: same length, the other entries in place, the same
    entries as a multiset, and a second [Swap] restores the slice.  With an
    index out of range it panics. *)
Theorem HealthsByAddress_Swap_exchanges (hs : list ptr) (i j : Z) :
  (0 <= i < HealthsByAddress_Len hs → 0 <= j < HealthsByAddress_Len hs →
   ∃ hs', HealthsByAddress_Swap hs i j = Some hs'
          ∧ HealthsByAddress_Len hs' = HealthsByAddress_Len hs
          ∧ index hs' i = index hs j ∧ index hs' j = index hs i
          ∧ (∀ k, k ≠ i → k ≠ j → index hs' k = index hs k)
          ∧ hs' ≡ₚ hs
          ∧ HealthsByAddress_Swap hs' i j = Some hs)
  ∧ (¬ (0 <= i < HealthsByAddress_Len hs) ∨ ¬ (0 <= j < HealthsByAddress_Len hs) →
     HealthsByAddress_Swap hs i j = None).
Proof.
  unfold HealthsByAddress_Len. split.
  - intros Hi Hj.
    destruct (index_Some hs i Hi) as [x Hx], (index_Some hs j Hj) as [y Hy].
    unfold HealthsByAddress_Swap. rewrite Hx, Hy. simpl.
    eexists. split; [done|].
    assert (hs !! Z.to_nat i = Some x) as Hx'.
    { unfold index in Hx. destruct (Z.leb_spec 0 i); [done | lia]. }
    assert (hs !! Z.to_nat j = Some y) as Hy'.
    { unfold index in Hy. destruct (Z.leb_spec 0 j); [done | lia]. }
    assert (index (<[Z.to_nat j := x]> (<[Z.to_nat i := y]> hs)) i = Some y) as Hi'.
    { destruct (decide (i = j)) as [->|Hne].
      - rewrite index_insert_eq by (rewrite length_insert; lia). congruence.
      - rewrite index_insert_ne by lia. apply index_insert_eq. lia. }
    assert (index (<[Z.to_nat j := x]> (<[Z.to_nat i := y]> hs)) j = Some x) as Hj'.
    { apply index_insert_eq. rewrite length_insert. lia. }
    split_and!.
    + by rewrite !length_insert.
    + congruence.
    + congruence.
    + intros k Hki Hkj. by rewrite !index_insert_ne by lia.
    + by apply Permutation_insert_swap.
    + rewrite Hi', Hj'. simpl. f_equal.
      apply list_eq. intros n.
      destruct (decide (n = Z.to_nat j)) as [->|Hnj].
      * rewrite list_lookup_insert_eq; [done|]. rewrite !length_insert. lia.
      * rewrite list_lookup_insert_ne by done.
        destruct (decide (n = Z.to_nat i)) as [->|Hni].
        -- rewrite list_lookup_insert_eq; [done|]. rewrite !length_insert. lia.
        -- by rewrite !list_lookup_insert_ne by done.
  - intros H. unfold HealthsByAddress_Swap.
    destruct (decide (0 <= i < Z.of_nat (length hs))) as [Hi|Hi].
    + destruct H as [?|Hj]; [done|]. rewrite (index_None hs j Hj).
      by destruct (index hs i).
    + by rewrite (index_None hs i Hi).
Qed.

Lemma HealthsByAddress_Swap_exchanges_witness :
  (∃ hs', HealthsByAddress_Swap [Some 4%nat; Some 3%nat; None] 0 1 = Some hs'
          ∧ HealthsByAddress_Len hs' = HealthsByAddress_Len [Some 4%nat; Some 3%nat; None]
          ∧ index hs' 0 = index [Some 4%nat; Some 3%nat; None] 1
          ∧ index hs' 1 = index [Some 4%nat; Some 3%nat; None] 0
          ∧ (∀ k, k ≠ 0 → k ≠ 1 → index hs' k = index [Some 4%nat; Some 3%nat; None] k)
          ∧ hs' ≡ₚ [Some 4%nat; Some 3%nat; None]
          ∧ HealthsByAddress_Swap hs' 0 1 = Some [Some 4%nat; Some 3%nat; None])
  ∧ HealthsByAddress_Swap [Some 4%nat; Some 3%nat; None] 0 3 = None.
Proof.
  split.
  - apply (proj1 (HealthsByAddress_Swap_exchanges [Some 4%nat; Some 3%nat; None] 0 1));
      unfold HealthsByAddress_Len; simpl; lia.
  - apply (proj2 (HealthsByAddress_Swap_exchanges [Some 4%nat; Some 3%nat; None] 0 3)).
    right. unfold HealthsByAddress_Len. simpl. lia.
Defined.

(** ** The order of the pool does not depend on the caller *)

Lemma addr_le_antisym_on σ p q a b :
  address_of σ p = Some a → address_of σ q = Some b →
  addr_le σ p q → addr_le σ q p → a = b.
Proof.
  unfold addr_le. intros -> ->. simpl. intros H1 H2.
  apply bytes_Compare_eq.
  destruct (bytes_Compare_range a b) as [?|[?|H3]]; [done | done |].
  by apply bytes_Compare_gt_lt in H3.
Qed.

Lemma sorted_permutation_unique σ (l1 : list ptr) : ∀ l2,
  StronglySorted (addr_le σ) l1 → StronglySorted (addr_le σ) l2 → l1 ≡ₚ l2 →
  (∀ p q, p ∈ l1 → q ∈ l1 → addr_le σ p q → addr_le σ q p → p = q) →
  l1 = l2.
Proof.
  induction l1 as [|x l1 IH]; intros l2 H1 H2 HP Hanti.
  - by apply Permutation_nil_l in HP.
  - destruct l2 as [|y l2]; [by apply Permutation_nil_r in HP|].
    apply StronglySorted_inv in H1 as [H1 Hx].
    apply StronglySorted_inv in H2 as [H2 Hy].
    assert (x = y) as <-.
    { destruct (decide (x = y)) as [?|Hne]; [done|].
      assert (x ∈ y :: l2) as Hx2 by (rewrite <- HP; apply elem_of_cons; by left).
      assert (y ∈ x :: l1) as Hy1 by (rewrite HP; apply elem_of_cons; by left).
      apply elem_of_cons in Hx2 as [?|Hx2]; [done|].
      apply elem_of_cons in Hy1 as [?|Hy1]; [done|].
      apply Hanti.
      - apply elem_of_cons; by left.
      - apply elem_of_cons; by right.
      - by apply (proj1 (Forall_forall _ _) Hx).
      - by apply (proj1 (Forall_forall _ _) Hy). }
    f_equal. apply IH; [done | done | by apply Permutation_cons_inv in HP |].
    intros p q Hp Hq. apply Hanti; apply elem_of_cons; by right.
Qed.

(** X16.  When the validators' addresses are pairwise different,
    [SetBackValidators] gives the same pool for every order in which the
    same records are passed. *)
Theorem SetBackValidators_order_independent (hh1 hh2 : list ptr) (h : HealthMgr)
    (σ : store) :
  hh1 ≡ₚ hh2 →
  Forall (λ p, is_Some (address_of σ p)) hh1 →
  (∀ p q, p ∈ hh1 → q ∈ hh1 → address_of σ p = address_of σ q → p = q) →
  ∃ h', SetBackValidators hh1 h σ = Some h' ∧ SetBackValidators hh2 h σ = Some h'.
Proof.
  intros HP HF Hinj. unfold SetBackValidators.
  assert (Forall (λ p, is_Some (address_of σ p)) hh2) as HF2 by (by rewrite <- HP).
  rewrite (sort_Sort_readable σ hh1), (sort_Sort_readable σ hh2) by (by right).
  simpl. eexists. split; [done|]. do 2 f_equal.
  symmetry. apply (sorted_permutation_unique σ).
  - apply StronglySorted_merge_sort; [apply addr_le_trans | apply addr_le_total].
  - apply StronglySorted_merge_sort; [apply addr_le_trans | apply addr_le_total].
  - by rewrite !merge_sort_Permutation.
  - intros p q Hp Hq H1 H2. rewrite merge_sort_Permutation in Hp, Hq.
    destruct (proj1 (Forall_forall _ _) HF p Hp) as [a Ha].
    destruct (proj1 (Forall_forall _ _) HF q Hq) as [b Hb].
    apply Hinj; [done | done |].
    rewrite Ha, Hb. f_equal. by apply (addr_le_antisym_on σ p q).
Qed.

Lemma SetBackValidators_order_independent_witness :
  ∃ h', SetBackValidators [Some 4%nat; Some 3%nat] ex_mgr
          (ex_store 0 StateUsed StateUnused) = Some h'
        ∧ SetBackValidators [Some 3%nat; Some 4%nat] ex_mgr
            (ex_store 0 StateUsed StateUnused) = Some h'.
Proof.
  apply (SetBackValidators_order_independent [Some 4%nat; Some 3%nat]
           [Some 3%nat; Some 4%nat] ex_mgr (ex_store 0 StateUsed StateUnused)).
  - apply perm_swap.
  - repeat constructor; eexists; reflexivity.
  - intros p q Hp Hq.
    rewrite !elem_of_cons, elem_of_nil in Hp, Hq.
    destruct Hp as [->|[->|[]]], Hq as [->|[->|[]]]; vm_compute; congruence.
Defined.

(** ** [Heartbeat.Copy] *)

Lemma slice_bytes_same_arrays m m' s :
  arrays m' = arrays m → slice_bytes m' s = slice_bytes m s.
Proof. intros H. unfold slice_bytes. by rewrite H. Qed.

(** X17.  [Copy] of nil is nil and changes nothing; [Copy] of a pointer to
    no object panics; otherwise it allocates one new object, at an address
    that was not in use, with the fields of the old one, and changes no
    other object and no byte array.  The copy shows the same heartbeat and
    has the same [SignBytes] as the original. *)
Theorem Copy_new_object_same_fields (m : memory) :
  Copy None m = Some (None, m)
  ∧ (∀ l : loc, objects m !! l = None → Copy (Some l) m = None)
  ∧ ∀ (l : loc) hb, objects m !! l = Some hb →
      ∃ (l' : loc) m', Copy (Some l) m = Some (Some l', m')
        ∧ l' ≠ l ∧ objects m !! l' = None
        ∧ objects m' !! l' = Some hb
        ∧ (∀ k : loc, k ≠ l' → objects m' !! k = objects m !! k)
        ∧ arrays m' = arrays m
        ∧ snapshot m' (Some l') = snapshot m (Some l)
        ∧ ∀ c, SignBytes (snapshot m' (Some l')) c = SignBytes (snapshot m (Some l)) c.
Proof.
  split_and!; [done | by intros l H; unfold Copy; rewrite H |].
  intros l hb Hl. unfold Copy. rewrite Hl. simpl.
  set (l' := fresh (dom (objects m))).
  assert (objects m !! l' = None) as Hfresh.
  { apply not_elem_of_dom. apply is_fresh. }
  eexists _, _. split; [done|]. simpl.
  assert (snapshot {| objects := <[l' := hb]> (objects m); arrays := arrays m |} (Some l')
          = snapshot m (Some l)) as Hsnap.
  { unfold snapshot. simpl. rewrite lookup_insert_eq, Hl. simpl.
    by rewrite !(slice_bytes_same_arrays _ m) by done. }
  split_and!; try done.
  - intros ->. congruence.
  - apply lookup_insert_eq.
  - intros k Hk. by rewrite lookup_insert_ne.
  - intros c. exact (f_equal (λ x, SignBytes x c) Hsnap).
Qed.

Lemma Copy_new_object_same_fields_witness :
  ∃ (l' : loc) m', Copy (Some 0%nat) ex_memory = Some (Some l', m')
    ∧ l' ≠ 0%nat ∧ objects ex_memory !! l' = None
    ∧ objects m' !! l' = Some ex_ref
    ∧ (∀ k : loc, k ≠ l' → objects m' !! k = objects ex_memory !! k)
    ∧ arrays m' = arrays ex_memory
    ∧ snapshot m' (Some l') = snapshot ex_memory (Some 0%nat)
    ∧ ∀ c, SignBytes (snapshot m' (Some l')) c
           = SignBytes (snapshot ex_memory (Some 0%nat)) c.
Proof.
  apply (proj2 (proj2 (Copy_new_object_same_fields ex_memory)) 0%nat ex_ref).
  reflexivity.
Defined.

Lemma slice_bytes_store m s (i : Z) b a bs sig :
  arr s = Some a → arrays m !! a = Some bs → slice_bytes m s = Some sig →
  0 <= i < Z.of_nat (len s) →
  ∃ m', slice_store s i b m = Some m'
        ∧ objects m' = objects m
        ∧ slice_bytes m' s = Some (<[Z.to_nat i := b]> sig).
Proof.
  intros Ha Hbs Hsig Hi. unfold slice_store.
  destruct (Z.leb_spec 0 i); [|lia]. destruct (Z.ltb_spec i (Z.of_nat (len s))); [|lia].
  simpl. rewrite Ha. simpl. rewrite Hbs. simpl. eexists. split_and!; [done | done |].
  unfold slice_bytes in *. rewrite Ha in *. simpl in *. rewrite Hbs in Hsig.
  rewrite lookup_insert_eq. simpl in *.
  destruct (decide (off s + len s ≤ length bs)%nat) as [Hle|]; [|done].
  injection Hsig as <-. rewrite length_insert.
  destruct (decide (off s + len s ≤ length bs)%nat); [|done]. f_equal.
  rewrite drop_insert_ge by lia. rewrite take_insert_lt by lia.
  f_equal. lia.
Qed.

(** X18.  [Copy] is shallow: the copy's [Signature] is a slice over the
    same array as the original's, so a byte stored through the copy's
    signature shows in the original's signature at the same index. *)
Theorem Copy_shares_signature_bytes (m : memory) (l : loc) (hb : Ref.Heartbeat)
    (a : loc) (bs sig : bytes) (i : Z) (b : byte) :
  objects m !! l = Some hb →
  arr (Ref.Signature hb) = Some a → arrays m !! a = Some bs →
  slice_bytes m (Ref.Signature hb) = Some sig →
  0 <= i < Z.of_nat (len (Ref.Signature hb)) →
  ∃ (l' : loc) m' hb' m'',
    Copy (Some l) m = Some (Some l', m')
    ∧ objects m' !! l' = Some hb'
    ∧ slice_store (Ref.Signature hb') i b m' = Some m''
    ∧ objects m'' !! l = Some hb
    ∧ slice_bytes m'' (Ref.Signature hb) = Some (<[Z.to_nat i := b]> sig).
Proof.
  intros Hl Ha Hbs Hsig Hi. unfold Copy. rewrite Hl. simpl.
  set (l' := fresh (dom (objects m))).
  set (m' := {| objects := <[l' := hb]> (objects m); arrays := arrays m |}).
  assert (l' ≠ l) as Hne.
  { intros E. assert (objects m !! l' = None) as Hf
      by (apply not_elem_of_dom, is_fresh). rewrite E in Hf. congruence. }
  destruct (slice_bytes_store m' (Ref.Signature hb) i b a bs sig)
    as (m'' & Hst & Hobj & Hsl); try done.
  exists l', m', hb, m''. split_and!; try done.
  - apply lookup_insert_eq.
  - rewrite Hobj. simpl. by rewrite lookup_insert_ne.
Qed.

Lemma Copy_shares_signature_bytes_witness :
  ∃ (l' : loc) m' hb' m'',
    Copy (Some 0%nat) ex_memory = Some (Some l', m')
    ∧ objects m' !! l' = Some hb'
    ∧ slice_store (Ref.Signature hb') 1 xff m' = Some m''
    ∧ objects m'' !! 0%nat = Some ex_ref
    ∧ slice_bytes m'' (Ref.Signature ex_ref) = Some (<[Z.to_nat 1 := xff]> [x51; x52]).
Proof.
  apply (Copy_shares_signature_bytes ex_memory 0%nat ex_ref 1%nat [x00; x51; x52; x53]);
    first [reflexivity | (vm_compute; split; [discriminate | reflexivity])].
Defined.

(** ** A request and its answer *)

Lemma adds_for_pos l out sv :
  sv ∈ out → Add sv = Some l → adds_for l out ≠ 0%nat.
Proof.
  unfold adds_for. induction out as [|sv' out IH]; simpl.
  - by intros ?%elem_of_nil.
  - intros [->|Hin]%elem_of_cons Ha.
    + by rewrite bool_decide_true.
    + destruct (bool_decide (Add sv' = Some l)); simpl; [done | by apply IH].
Qed.

(** X19.  A request and its answer.  Take a request that a tick emits
    with a candidate, and answer it as a success with the same two
    records.  If the active map holds the outgoing record under its own ID
    and no other pool record has the candidate's ID, then both records are
    [Switching] when the answer arrives, the outgoing record ends
    [Removed], the candidate ends [Used], and nothing else changes. *)
Theorem tick_then_success_swaps (h : HealthMgr) (vs : list ptr) (σ σ1 : store)
    (out : list SwitchValidator) (sv : SwitchValidator) (l lb : loc)
    (r1 rb : Health) (vr vb : Validator) :
  work_loop h vs σ = Some (out, σ1) → sv ∈ out →
  Remove sv = Some l → Add sv = Some lb →
  σ1 !! l = Some r1 → σ1 !! lb = Some rb →
  Val r1 = Some vr → Val rb = Some vb →
  Work h !! ID r1 = Some (Some l) →
  Forall (valid_ptr σ1) (Back h) →
  (∀ p r, p ∈ Back h → deref σ1 p = Some r → ID r = ID rb → p = Some lb) →
  State r1 = StateSwitching ∧ State rb = StateSwitching
  ∧ ∃ σ2, switchResult h
            {| Remove := Some l; Add := Some lb; Resion := EmptyString; from := 1 |} σ1
          = Some σ2
          ∧ σ2 !! l = Some (with_State StateRemoved r1)
          ∧ σ2 !! lb = Some (with_State StateUsed rb)
          ∧ ∀ k : loc, k ≠ l → k ≠ lb → σ2 !! k = σ1 !! k.
Proof.
  intros Hw Hin Hrem Hadd Hl Hlb Hvr Hvb HW Hval Hids.
  destruct (work_loop_inv _ _ _ _ _ Hw) as [_ Hout].
  destruct (Hout sv Hin) as (l0 & r & r' & _ & Hr0 & _ & _ & Hσl & Hused & Hl' & _ & Hsw).
  rewrite Hrem in Hr0. injection Hr0 as <-. rewrite Hl in Hl'. injection Hl' as <-.
  destruct (work_loop_adds h lb _ _ _ _ Hw) as (Hle & Hzero & Hone).
  pose proof (adds_for_pos lb out sv Hin Hadd) as Hpos.
  assert (adds_for lb out = 1%nat) as H1 by lia.
  destruct (Hone H1) as [Hnu Hback].
  assert (is_Unused σ lb = true) as Hu.
  { destruct (is_Unused σ lb) eqn:E; [done|]. rewrite (Hzero eq_refl) in H1. done. }
  assert (lb ≠ l) as Hne.
  { intros ->. unfold is_Unused in Hu. rewrite Hσl in Hu.
    apply Z.eqb_eq in Hu. unfold StateUsed, StateUnused in *. lia. }
  assert (State rb = StateSwitching) as Hsb.
  { pose proof (work_loop_ticked _ _ _ _ _ Hw lb) as Ht. unfold record_ticked in Ht.
    unfold is_Unused in Hu, Hnu. rewrite Hlb in Ht, Hnu.
    destruct (σ !! lb) as [rb0|]; [|done].
    destruct Ht as (_ & [E|[E _]] & _); [|done].
    rewrite E in Hnu. congruence. }
  split_and!; [done | done |].
  apply list_elem_of_split_l in Hback as (pre & post & HB & Hpre).
  eexists. split.
  - apply (switchResult_success_known h
             {| Remove := Some l; Add := Some lb; Resion := EmptyString; from := 1 |}
             σ1 r1 rb l lb r1 rb vr vb pre post); try done.
    + apply Forall_forall. intros p Hp.
      assert (p ∈ Back h) as HpB by (rewrite HB; apply elem_of_app; by left).
      destruct (proj1 (Forall_forall _ _) Hval p HpB) as [rp Hrp].
      exists rp. split; [done|]. intros Hid.
      apply Hpre. by rewrite <- (Hids p rp HpB Hrp Hid).
    + by rewrite lookup_insert_ne.
  - split_and!.
    + rewrite lookup_insert_ne by done. by rewrite lookup_insert_eq.
    + by rewrite lookup_insert_eq.
    + intros k Hk Hkb. by rewrite !lookup_insert_ne.
Qed.

Lemma tick_then_success_swaps_witness :
  State (mkHealth "C" 601 StateSwitching [x0c]) = StateSwitching
  ∧ State (mkHealth "D" 0 StateSwitching [x0d]) = StateSwitching
  ∧ ∃ σ2, switchResult ex_mgr
            {| Remove := Some 2%nat; Add := Some 3%nat; Resion := EmptyString; from := 1 |}
            (ex_store_at 1 601 StateSwitching StateSwitching)
          = Some σ2
          ∧ σ2 !! 2%nat = Some (with_State StateRemoved (mkHealth "C" 601 StateSwitching [x0c]))
          ∧ σ2 !! 3%nat = Some (with_State StateUsed (mkHealth "D" 0 StateSwitching [x0d]))
          ∧ ∀ k : loc, k ≠ 2%nat → k ≠ 3%nat →
              σ2 !! k = ex_store_at 1 601 StateSwitching StateSwitching !! k.
Proof.
  apply (tick_then_success_swaps ex_mgr ex_order
           (ex_store_at 0 600 StateUsed StateUnused)
           (ex_store_at 1 601 StateSwitching StateSwitching)
           [ex_request "Switch" 0] (ex_request "Switch" 0) 2%nat 3%nat
           (mkHealth "C" 601 StateSwitching [x0c]) (mkHealth "D" 0 StateSwitching [x0d])
           {| Address := [x0c]; VotingPower := 1; PubKey := [] |}
           {| Address := [x0d]; VotingPower := 1; PubKey := [] |});
    try reflexivity.
  - by left.
  - repeat constructor; eexists; reflexivity.
  - intros p r Hp. unfold ex_mgr in Hp. simpl in Hp.
    rewrite !elem_of_cons, elem_of_nil in Hp.
    destruct Hp as [->|[->|[]]]; [done|].
    vm_compute. intros [= <-]. discriminate.
Defined.
